(** * Keybinding conflict scanner: shallow embedding and verification

    The development follows [src/extension.ts] (the scanner, the presenter
    and the resolver classes) and [src/types.ts].

    Strings.  A JavaScript string is modelled as a [string] whose characters
    are code units in the Latin-1 range (0..255); [toLowerCase], [trim] and the
    regular expression classes used by the code are written out for that
    range.  Arrays are lists; a [Map] iterated in insertion order is an
    association list; a [Set] only queried with [has] and [size] is a
    [ListSet.set].

    The user's file.  keybindings.json is modelled by what the code finds in
    it once the comments are cut out and [JSON.parse] has run, and an
    element of the parsed array by what the code reads of it (its
    [command], [key] and [when]).  [JSON.parse] itself is not modelled; the
    cutting of the comments and the text that [JSON.stringify] gives for
    the entries that the resolver creates are. *)

From Stdlib Require Import List Bool Arith ZArith NArith Lia.
From Stdlib Require Import Ascii String ListSet Permutation Sorted.
From Stdlib Require Import RelationClasses.
From Stdlib Require Import DecimalString.
Import ListNotations.

Local Open Scope string_scope.
Local Open Scope list_scope.

(** ** JavaScript primitives used by the code *)

Module JS.

(** [String.prototype.toLowerCase] on one code unit of the Latin-1 range:
    A-Z and the accented capitals U+00C0..U+00DE (U+00D7, the multiplication
    sign, apart) move up by 32. *)
Definition toLowerCaseUnit (c : ascii) : ascii :=
  let n := N_of_ascii c in
  if (((65 <=? n) && (n <=? 90)) ||
      ((192 <=? n) && (n <=? 222) && negb (n =? 215)))%N
  then ascii_of_N (n + 32) else c.

Fixpoint toLowerCase (s : string) : string :=
  match s with
  | EmptyString => EmptyString
  | String c r => String (toLowerCaseUnit c) (toLowerCase r)
  end.

(** White space of [trim] and of the regular expression class [\s], in the
    Latin-1 range: TAB, LF, VT, FF, CR, SP and NBSP. *)
Definition isWhiteSpace (c : ascii) : bool :=
  let n := N_of_ascii c in
  (((9 <=? n) && (n <=? 13)) || (n =? 32) || (n =? 160))%N.

Definition isEmpty (s : string) : bool :=
  match s with EmptyString => true | _ => false end.

Fixpoint trimStart (s : string) : string :=
  match s with
  | EmptyString => EmptyString
  | String c r => if isWhiteSpace c then trimStart r else s
  end.

Fixpoint trimEnd (s : string) : string :=
  match s with
  | EmptyString => EmptyString
  | String c r =>
      let r' := trimEnd r in
      if isWhiteSpace c && isEmpty r' then EmptyString else String c r'
  end.

Definition trim (s : string) : string := trimEnd (trimStart s).

(** [s.split(re)] for a pattern that matches exactly one code unit, given
    as a predicate; the result is never empty ([""] splits to [[""]]). *)
Fixpoint splitOn (sep : ascii -> bool) (s : string) : list string :=
  match s with
  | EmptyString => [EmptyString]
  | String c r =>
      if sep c then EmptyString :: splitOn sep r
      else match splitOn sep r with
           | h :: t => String c h :: t
           | [] => [String c EmptyString]
           end
  end.

(** [s.split(c)] for a one-character separator. *)
Definition split (c : ascii) (s : string) : list string :=
  splitOn (Ascii.eqb c) s.

(** [arr.join(sep)]. *)
Fixpoint join (sep : string) (l : list string) : string :=
  match l with
  | [] => EmptyString
  | [x] => x
  | x :: r => x ++ sep ++ join sep r
  end.

(** [s.includes(c)] for a one-character needle. *)
Fixpoint includes (c : ascii) (s : string) : bool :=
  match s with
  | EmptyString => false
  | String a r => Ascii.eqb a c || includes c r
  end.

(** [s.startsWith(c)] and [s.substring(1)]. *)
Definition startsWith (c : ascii) (s : string) : bool :=
  match s with
  | String a _ => Ascii.eqb a c
  | EmptyString => false
  end.

Definition substring1 (s : string) : string :=
  match s with
  | String _ r => r
  | EmptyString => EmptyString
  end.

(** [arr.includes(x)] and [arr.indexOf(x)] on arrays of strings;
    [indexOf] answers -1 when [x] is absent. *)
Definition arrayIncludes (l : list string) (x : string) : bool :=
  existsb (String.eqb x) l.

Fixpoint indexOf (l : list string) (x : string) : Z :=
  match l with
  | [] => (-1)%Z
  | y :: r =>
      if String.eqb y x then 0%Z
      else let i := indexOf r x in
           if (i <? 0)%Z then (-1)%Z else (i + 1)%Z
  end.

(** [arr.sort(cmp)]: the sort is stable (ECMAScript 2019); with a consistent
    comparator every stable sort computes this list.  [cmp a b <= 0] keeps
    [a] before [b]. *)
Section Sort.
Context {A : Type} (cmp : A -> A -> Z).

Fixpoint sortInsert (x : A) (l : list A) : list A :=
  match l with
  | [] => [x]
  | y :: r => if (cmp x y <=? 0)%Z then x :: l else y :: sortInsert x r
  end.

Fixpoint sort (l : list A) : list A :=
  match l with
  | [] => []
  | x :: r => sortInsert x (sort r)
  end.

End Sort.

(** Every code unit of [s] is in the class [p]: the regular expression
    [/^[p]*$/]. *)
Fixpoint allOf (p : ascii -> bool) (s : string) : bool :=
  match s with
  | EmptyString => true
  | String c r => p c && allOf p r
  end.

(** Truthiness of a string: only [""] is falsy. *)
Definition truthy (s : string) : bool := negb (isEmpty s).

(** [JSON.stringify] on a string (QuoteJSONString), in the Latin-1 range:
    the quote and the backslash get a backslash, the control characters
    their short escape or [\u00xx] with lower-case digits, every other
    code unit stands for itself. *)
Definition hexDigit (n : N) : ascii :=
  if (n <? 10)%N then ascii_of_N (48 + n) else ascii_of_N (87 + n).

Definition quoteUnit (c : ascii) : string :=
  let n := N_of_ascii c in
  if (n =? 8)%N then "\b"
  else if (n =? 9)%N then "\t"
  else if (n =? 10)%N then "\n"
  else if (n =? 12)%N then "\f"
  else if (n =? 13)%N then "\r"
  else if (n =? 34)%N then String "\" (String "034" EmptyString)
  else if (n =? 92)%N then "\\"
  else if (n <? 32)%N
       then ("\u00" ++ String (hexDigit (n / 16))
                             (String (hexDigit (n mod 16)) EmptyString))%string
  else String c EmptyString.

Fixpoint quoteBody (s : string) : string :=
  match s with
  | EmptyString => EmptyString
  | String c r => (quoteUnit c ++ quoteBody r)%string
  end.

Definition quoteJSONString (s : string) : string :=
  String "034" (quoteBody s ++ String "034" EmptyString)%string.

End JS.

(** ** Data model ([src/types.ts]) *)

Record KeybindingInfo := {
  key : string;
  command : string;
  when : option string;
  extensionId : string;
  extensionName : string
}.

Record ConflictGroup := {
  group_key : string;
  bindings : list KeybindingInfo
}.

(** An item of the picker.  The separator that heads a group is built
    without a [binding] (the code casts it with [as any]); [isSeparator] is
    its [kind]. *)
Record QuickPickConflictItem := {
  label : string;
  description : string;
  detail : string;
  item_binding : option KeybindingInfo;
  isSeparator : bool
}.

Inductive ResolutionAction :=
| Disable (bs : list KeybindingInfo)
| Reassign (bs : list KeybindingInfo) (newKey : string)
           (allBindings : list KeybindingInfo).

(** ** The scanner *)

Module Scanner.
Import JS.

Definition isModifierKey (k : string) : bool :=
  arrayIncludes
    ["ctrl"; "cmd"; "alt"; "shift"; "meta"; "win"; "command"; "option"; "control"]
    (toLowerCase k).

Definition modifierOrder : list string :=
  ["ctrl"; "cmd"; "alt"; "shift"; "meta"; "win"].

(** The comparator handed to [modifiers.sort]. *)
Definition modifierCompare (a b : string) : Z :=
  (indexOf modifierOrder a - indexOf modifierOrder b)%Z.

(** The loop that separates modifiers from the main key: a modifier is
    pushed, any other part overwrites [mainKey]. *)
Definition classify (parts : list string) : list string * string :=
  fold_left
    (fun (st : list string * string) part =>
       if isModifierKey part then (fst st ++ [part], snd st)
       else (fst st, part))
    parts ([], EmptyString).

Definition normalizeSingleKey (k : string) : string :=
  let normalized := trim (toLowerCase k) in
  let parts := map trim (split "+" normalized) in
  if (List.length parts =? 1)%nat then normalized
  else
    let (modifiers, mainKey) := classify parts in
    let modifiers := sort modifierCompare modifiers in
    if truthy mainKey then join "+" (modifiers ++ [mainKey])
    else join "+" modifiers.

Definition normalizeKey (k : string) : string :=
  let normalized := trim (toLowerCase k) in
  if includes " " normalized
  then join " " (map normalizeSingleKey (split " " normalized))
  else normalizeSingleKey normalized.

(** *** Collection from the installed extensions *)

(** A [key], [mac], [linux] or [win] field of a contribution: absent, one
    string, or an array of strings.  An array is truthy even when empty,
    a string only when it is not [""]. *)
Inductive KeyField :=
| KeyAbsent
| KeyString (s : string)
| KeyArray (l : list string).

Definition fieldTruthy (f : KeyField) : bool :=
  match f with
  | KeyAbsent => false
  | KeyString s => truthy s
  | KeyArray _ => true
  end.

(** [Array.isArray(f) ? f : [f]], then [.filter(k => k)]. *)
Definition fieldKeys (f : KeyField) : list string :=
  filter truthy
    match f with
    | KeyAbsent => []
    | KeyString s => [s]
    | KeyArray l => l
    end.

Record Contribution := {
  kb_command : string;
  kb_when : option string;
  kb_key : KeyField;
  kb_mac : KeyField;
  kb_linux : KeyField;
  kb_win : KeyField
}.

Record PackageJSON := {
  displayName : option string;
  pkg_name : option string;
  (** [contributes?.keybindings] *)
  keybindings : option (list Contribution)
}.

Record Extension := {
  ext_id : string;
  packageJSON : option PackageJSON
}.

(** [process.platform]. *)
Inductive Platform := darwin | linux | win32 | otherPlatform.

Definition keysToProcess (platform : Platform) (kb : Contribution)
  : list string :=
  match platform with
  | darwin =>
      if fieldTruthy (kb_mac kb) then fieldKeys (kb_mac kb)
      else if fieldTruthy (kb_key kb) then fieldKeys (kb_key kb) else []
  | linux =>
      if fieldTruthy (kb_linux kb) then fieldKeys (kb_linux kb)
      else if fieldTruthy (kb_key kb) then fieldKeys (kb_key kb) else []
  | win32 =>
      if fieldTruthy (kb_win kb) then fieldKeys (kb_win kb)
      else if fieldTruthy (kb_key kb) then fieldKeys (kb_key kb) else []
  | otherPlatform =>
      if fieldTruthy (kb_key kb) then fieldKeys (kb_key kb) else []
  end.

(** [a || b] on optional strings: the first truthy one. *)
Definition orElse (a : option string) (b : string) : string :=
  match a with
  | Some s => if truthy s then s else b
  | None => b
  end.

Definition extensionBindings (platform : Platform) (ext : Extension)
  : list KeybindingInfo :=
  match packageJSON ext with
  | None => []
  | Some pkg =>
      match keybindings pkg with
      | None => []
      | Some kbs =>
          let extensionName :=
            orElse (displayName pkg) (orElse (pkg_name pkg) (ext_id ext)) in
          flat_map
            (fun kb =>
               map (fun k =>
                      {| key := normalizeKey k;
                         command := kb_command kb;
                         when := kb_when kb;
                         extensionId := ext_id ext;
                         extensionName := extensionName |})
                   (keysToProcess platform kb))
            kbs
      end
  end.

Definition collectAllKeybindings (platform : Platform)
  (all : list Extension) : list KeybindingInfo :=
  flat_map (extensionBindings platform) all.

(** *** The user's keybindings.json *)

(** A property of a parsed entry: absent, a string, or some other JSON
    value, of which only the truthiness matters. *)
Inductive JField :=
| FAbsent
| FString (s : string)
| FOther (isTruthy : bool).

(** An element of the parsed array: [null] (reading a property of it
    throws), a value whose [command] and [key] are undefined (a primitive
    or a nested array), or an object. *)
Inductive UserEntry :=
| ENull
| EPrimitive
| EObject (e_command e_key e_when : JField).

(** [!f || f === ''] on a property. *)
Definition falsy (f : JField) : bool :=
  match f with
  | FAbsent => true
  | FString s => isEmpty s
  | FOther t => negb t
  end.

(** The loop of [getUserDisabledCommands].  A thrown TypeError ([null]
    element, or a truthy command that is not a string and so has no
    [startsWith]) is caught outside the loop: the set built so far is
    returned. *)
Fixpoint disabledLoop (kbs : list UserEntry) (acc : set string)
  : set string :=
  match kbs with
  | [] => acc
  | ENull :: _ => acc
  | EPrimitive :: r => disabledLoop r acc
  | EObject cmd k _ :: r =>
      match cmd with
      | FOther true => acc
      | FString c =>
          if truthy c && startsWith "-" c
          then disabledLoop r (set_add string_dec (substring1 c) acc)
          else if truthy c && falsy k
          then disabledLoop r (set_add string_dec c acc)
          else disabledLoop r acc
      | _ => disabledLoop r acc
      end
  end.

(** The state of keybindings.json, seen through the two readers (lines
    813-824 and 596-614): what they find once the comments are cut out of
    the text and [JSON.parse] has run.  The file is missing; or it is
    blank or its text is refused by [JSON.parse] ([FileText None]: the
    scanner reads "nothing disabled", the resolver the empty array); or
    the text parses to the array [l] ([FileText (Some l)]); or it parses
    to a JSON value that is not an array ([FileNotArray]: an object,
    [null], a number, a boolean or a string).  The state is this view and
    not the text; [readText] below gives the view of a text.  What the
    readers make of a text that [JSON.stringify] wrote is the array
    written only if their regular expressions find no comment in it. *)
Inductive KeybindingsFile :=
| FileMissing
| FileText (parsed : option (list UserEntry))
| FileNotArray.

(** Over a value that is not an array the [for ... of] throws before
    anything is added (an object, [null], a number or a boolean is not
    iterable) or runs over the characters of a string, none of which has a
    [command]: the set stays empty. *)
Definition getUserDisabledCommands (f : KeybindingsFile) : set string :=
  match f with
  | FileText (Some kbs) => disabledLoop kbs (empty_set string)
  | _ => empty_set string
  end.

(** *** The text of keybindings.json *)

(** A line terminator of the Latin-1 range: what [.] does not match and
    what [$] stops before under the [m] flag. *)
Definition isLineTerminator (c : ascii) : bool :=
  let n := N_of_ascii c in ((n =? 10) || (n =? 13))%N.

(** [content.replace(/\/\/.*$/gm, '')]: from each [//] met outside such a
    match to the end of its line, the terminator left in place. *)
Fixpoint stripLineComments (inComment : bool) (s : string) : string :=
  match s with
  | EmptyString => EmptyString
  | String c r =>
      if inComment then
        if isLineTerminator c then String c (stripLineComments false r)
        else stripLineComments true r
      else
        match r with
        | String d r' =>
            if Ascii.eqb c "/" && Ascii.eqb d "/"
            then stripLineComments true r'
            else String c (stripLineComments false r)
        | EmptyString => String c EmptyString
        end
  end.

(** Whether [*/] occurs in [s]. *)
Fixpoint hasBlockEnd (s : string) : bool :=
  match s with
  | EmptyString => false
  | String c r =>
      match r with
      | String d _ => (Ascii.eqb c "*" && Ascii.eqb d "/") || hasBlockEnd r
      | EmptyString => false
      end
  end.

(** [.replace(/\/\*[\s\S]*?\*\//g, '')]: each [/*] that has a [*/] after it
    is removed together with everything up to the first such [*/]. *)
Fixpoint stripBlockComments (inComment : bool) (s : string) : string :=
  match s with
  | EmptyString => EmptyString
  | String c r =>
      match r with
      | String d r' =>
          if inComment then
            if Ascii.eqb c "*" && Ascii.eqb d "/"
            then stripBlockComments false r'
            else stripBlockComments true r
          else
            if Ascii.eqb c "/" && Ascii.eqb d "*" && hasBlockEnd r'
            then stripBlockComments true r'
            else String c (stripBlockComments false r)
      | EmptyString => if inComment then EmptyString else String c EmptyString
      end
  end.

(** The expression of lines 613 and 823. *)
Definition stripComments (content : string) : string :=
  stripBlockComments false (stripLineComments false content).

Section Text.

(** [JSON.parse], followed by what the code looks at in its result: [None]
    when it throws, [Some None] for a value that is not an array. *)
Variable JSON_parse : string -> option (option (list UserEntry)).

(** What the two readers find in the file, from its text: [None] is a
    missing file. *)
Definition readText (content : option string) : KeybindingsFile :=
  match content with
  | None => FileMissing
  | Some text =>
      if negb (truthy (trim text)) then FileText None
      else
        match JSON_parse (stripComments text) with
        | None => FileText None
        | Some None => FileNotArray
        | Some (Some kbs) => FileText (Some kbs)
        end
  end.

End Text.

(** *** Grouping and filtering *)

(** [groupedByKey]: a [Map] in insertion order.  [mapPush] is
    [if (!m.has(k)) m.set(k, []); m.get(k).push(b)]. *)
Fixpoint mapPush (k : string) (b : KeybindingInfo)
  (m : list (string * list KeybindingInfo))
  : list (string * list KeybindingInfo) :=
  match m with
  | [] => [(k, [b])]
  | (k', bs) :: r =>
      if String.eqb k' k then (k', bs ++ [b]) :: r
      else (k', bs) :: mapPush k b r
  end.

Definition groupByKey (bs : list KeybindingInfo)
  (userDisabledCommands : set string)
  : list (string * list KeybindingInfo) :=
  fold_left
    (fun m b =>
       if set_mem string_dec (command b) userDisabledCommands then m
       else mapPush (key b) b m)
    bs [].

(** [new Set(bindingsForKey.map(b => b.extensionId))]. *)
Definition extensionIds (bs : list KeybindingInfo) : set string :=
  fold_left (fun s b => set_add string_dec (extensionId b) s) bs
    (empty_set string).

Definition qualifies (bs : list KeybindingInfo) : bool :=
  (1 <? List.length bs)%nat && (1 <? List.length (extensionIds bs))%nat.

Definition conflictsOf (m : list (string * list KeybindingInfo))
  : list ConflictGroup :=
  flat_map
    (fun e =>
       if qualifies (snd e)
       then [{| group_key := fst e; bindings := snd e |}]
       else [])
    m.

(** The scanner object: its only field that matters is [allBindings]. *)
Record State := { allBindings : list KeybindingInfo }.

Definition initial : State := {| allBindings := [] |}.

(** What a scan reads from the host. *)
Record Host := {
  extensions_all : list Extension;
  platform : Platform;
  keybindingsFile : KeybindingsFile
}.

Definition getAllBindings (st : State) : list KeybindingInfo :=
  allBindings st.

Section WithCollation.
(** [String.prototype.localeCompare] belongs to the host: its order is the
    collation of the default locale.  It is a parameter of the scan. *)
Variable localeCompare : string -> string -> Z.

Definition findConflicts (bs : list KeybindingInfo)
  (userDisabledCommands : set string) : list ConflictGroup :=
  sort (fun a b => localeCompare (group_key a) (group_key b))
    (conflictsOf (groupByKey bs userDisabledCommands)).

Definition scanConflicts (h : Host) (st : State)
  : State * list ConflictGroup :=
  let st' :=
    {| allBindings := collectAllKeybindings (platform h) (extensions_all h) |} in
  let userDisabledCommands := getUserDisabledCommands (keybindingsFile h) in
  (st', findConflicts (allBindings st') userDisabledCommands).

End WithCollation.

End Scanner.

(** ** The presenter: validation of a typed replacement key *)

Module Presenter.
Import JS.

(** The answers of [validateKeybinding]: [Accepted] is [undefined], every
    other constructor is one of the messages. *)
Inductive Validation :=
| Accepted
| EnterKeyCombination      (* 'Please enter a key combination' *)
| InvalidCharacters        (* 'Invalid characters detected' *)
| NotAValidKey (part : string)   (* '"part" is not a valid key' *)
| InvalidFormat            (* 'Invalid key combination format ...' *)
| OnlyModifiers            (* 'Cannot create a keybinding with only modifiers' *)
| ConflictsWith (cmd ext : string). (* 'Conflicts with "cmd" from "ext"' *)

Definition validModifiers : list string :=
  ["ctrl"; "alt"; "shift"; "cmd"; "meta"; "win"].

Definition isLower (c : ascii) : bool :=
  let n := N_of_ascii c in ((97 <=? n) && (n <=? 122))%N.

Definition isDigit (c : ascii) : bool :=
  let n := N_of_ascii c in ((48 <=? n) && (n <=? 57))%N.

(** [/^[a-z0-9+\s]+$/] *)
Definition validCharacters (s : string) : bool :=
  negb (isEmpty s) &&
  allOf (fun c => isLower c || isDigit c || Ascii.eqb c "+" || isWhiteSpace c) s.

Definition isPunctuationKey (c : ascii) : bool :=
  existsb (Ascii.eqb c)
    ["`"; "-"; "="; "["; "]"; "\"; ";"; "'"; ","; "."; "/"]%char.

(** [/^([a-z]|f\d+|\d+|[`\-=\[\]\;',./])$/] *)
Definition isValidKey (part : string) : bool :=
  match part with
  | EmptyString => false
  | String c EmptyString => isLower c || isDigit c || isPunctuationKey c
  | String c r =>
      (Ascii.eqb c "f" && allOf isDigit r) || allOf isDigit part
  end.

(** The loop over [normalized.split(/[\s+]/)]: the first part that is
    neither empty, nor a modifier, nor a valid key. *)
Fixpoint firstInvalidPart (parts : list string) : option string :=
  match parts with
  | [] => None
  | part :: r =>
      if isEmpty part then firstInvalidPart r
      else if negb (arrayIncludes validModifiers part) && negb (isValidKey part)
      then Some part
      else firstInvalidPart r
  end.

(** The loop over [normalized.split(' ')]. *)
Fixpoint checkChords (chords : list string) : option Validation :=
  match chords with
  | [] => None
  | chord :: r =>
      let keys := split "+" chord in
      if (List.length keys =? 0)%nat || existsb (fun k => isEmpty (trim k)) keys
      then Some InvalidFormat
      else
        let hasModifier := existsb (arrayIncludes validModifiers) keys in
        if hasModifier && (List.length keys =? 1)%nat then Some OnlyModifiers
        else checkChords r
  end.

Definition validateKeybinding (value : option string)
  (currentBinding : KeybindingInfo) (allBindings : list KeybindingInfo)
  : Validation :=
  match value with
  | None => EnterKeyCombination
  | Some value =>
      if isEmpty (trim value) then EnterKeyCombination
      else
        let normalized := trim (toLowerCase value) in
        if negb (validCharacters normalized) then InvalidCharacters
        else
          let parts :=
            splitOn (fun c => isWhiteSpace c || Ascii.eqb c "+") normalized in
          match firstInvalidPart parts with
          | Some part => NotAValidKey part
          | None =>
              match checkChords (split " " normalized) with
              | Some refusal => refusal
              | None =>
                  match
                    find (fun b =>
                            String.eqb (key b) normalized &&
                            negb (String.eqb (command b) (command currentBinding)))
                         allBindings
                  with
                  | Some conflict =>
                      ConflictsWith (command conflict) (extensionName conflict)
                  | None => Accepted
                  end
              end
          end
  end.

(** *** The picker *)

(** [`${n}`] for a length. *)
Definition decimal (n : nat) : string :=
  NilEmpty.string_of_uint (Nat.to_uint n).

Definition separatorItem (conflict : ConflictGroup) : QuickPickConflictItem :=
  {| label := "$(keyboard) " ++ group_key conflict;
     description := decimal (List.length (bindings conflict)) ++ " conflict(s)";
     detail := EmptyString;
     item_binding := None;
     isSeparator := true |}.

Definition bindingItem (binding : KeybindingInfo) : QuickPickConflictItem :=
  {| label := "  " ++ command binding;
     description := extensionName binding;
     detail :=
       match when binding with
       | Some w => if truthy w then "when: " ++ w else EmptyString
       | None => EmptyString
       end;
     item_binding := Some binding;
     isSeparator := false |}.

Definition buildQuickPickItems (conflicts : list ConflictGroup)
  : list QuickPickConflictItem :=
  flat_map
    (fun conflict =>
       separatorItem conflict :: map bindingItem (bindings conflict))
    conflicts.

(** What the user answers to the three prompts of [showConflicts]:
    the items ticked in the picker, the action chosen, the text entered in
    the input box; [None] is a dismissed prompt ([undefined]). *)
Inductive ActionChoice := ChooseDisable | ChooseReassign | ChooseOpenSettings.

Record Answers := {
  picked : option (list QuickPickConflictItem);
  chosen : option ActionChoice;
  typed : option string
}.

(** [selected.map(item => item.binding).filter(b => b !== undefined)] *)
Definition selectedBindingsOf (selected : list QuickPickConflictItem)
  : list KeybindingInfo :=
  flat_map
    (fun item => match item_binding item with
                 | Some b => [b]
                 | None => []
                 end)
    selected.

(** [showConflicts], as a function of the answers; the messages it shows
    and the commands it runs on the way are left out. *)
Definition showConflicts (conflicts : list ConflictGroup)
  (allBindings : list KeybindingInfo) (a : Answers)
  : option ResolutionAction :=
  if (List.length conflicts =? 0)%nat then None
  else
    match picked a with
    | None => None
    | Some selected =>
        if (List.length selected =? 0)%nat then None
        else
          let selectedBindings := selectedBindingsOf selected in
          if (List.length selectedBindings =? 0)%nat then None
          else
            match chosen a with
            | None => None
            | Some ChooseOpenSettings => None
            | Some ChooseReassign =>
                if (1 <? List.length selectedBindings)%nat then None
                else
                  match typed a with
                  | None => None
                  | Some newKey =>
                      if isEmpty newKey then None
                      else Some (Reassign selectedBindings (trim newKey)
                                          allBindings)
                  end
            | Some ChooseDisable => Some (Disable selectedBindings)
            end
    end.

End Presenter.

(** ** The resolver: writing a reassignment to keybindings.json *)

Module Resolver.
Import JS Scanner.

(** [readKeybindingsFile]: a missing file is created holding [[]]; a blank
    or unparseable one reads as [[]]; otherwise the parsed value is
    returned, whatever it is: [Some l] for the array [l], [None] for a
    value that is not an array and so has neither [findIndex] nor
    [push]. *)
Definition readKeybindingsFile (f : KeybindingsFile)
  : KeybindingsFile * option (list UserEntry) :=
  match f with
  | FileMissing => (FileText (Some []), Some [])
  | FileText None => (f, Some [])
  | FileText (Some l) => (f, Some l)
  | FileNotArray => (f, None)
  end.

Definition whenField (w : option string) : JField :=
  match w with
  | Some s => if truthy s then FString s else FAbsent
  | None => FAbsent
  end.

(** The outcome of [reassignKeybinding]: the thrown error, which names the
    conflicting binding; a normal return; or the TypeError of
    [currentKeybindings.push] on a value that is not an array, thrown
    again by the [catch]. *)
Inductive Outcome :=
| Thrown (conflict : KeybindingInfo)
| Returned
| PushFailed.

(** The file afterwards and the outcome.  After a write the file is given
    as [FileText (Some a)] for the array [a] handed to
    [writeKeybindingsFile]: that is what the readers find in it as long as
    their comment stripping leaves the text written alone, which it does
    not when a string of [a] holds [//] (see [stripComments] and
    [stringify] below). *)
Definition reassignKeybinding (binding : KeybindingInfo) (newKey : string)
  (allBindings : list KeybindingInfo) (f : KeybindingsFile)
  : KeybindingsFile * Outcome :=
  let (f1, currentKeybindings) := readKeybindingsFile f in
  let normalizedNewKey := trim (toLowerCase newKey) in
  match
    find (fun b =>
            String.eqb (key b) normalizedNewKey &&
            negb (String.eqb (command b) (command binding)))
         allBindings
  with
  | Some conflict => (f1, Thrown conflict)
  | None =>
      let disableEntry :=
        EObject (FString ("-" ++ command binding)) (FString (key binding))
                (whenField (when binding)) in
      let newEntry :=
        EObject (FString (command binding)) (FString normalizedNewKey)
                (whenField (when binding)) in
      match currentKeybindings with
      | None => (f1, PushFailed)
      | Some current =>
          (FileText (Some (current ++ [disableEntry; newEntry])), Returned)
      end
  end.

(** *** Disabling *)

(** The value of [kb.when || undefined] and of [binding.when || undefined]:
    undefined, a non-empty string, or some other truthy value. *)
Inductive WhenValue :=
| WUndefined
| WString (s : string)
| WOtherValue.

Definition entryWhen (w : JField) : WhenValue :=
  match w with
  | FString s => if truthy s then WString s else WUndefined
  | FOther true => WOtherValue
  | _ => WUndefined
  end.

Definition bindingWhen (w : option string) : WhenValue :=
  match w with
  | Some s => if truthy s then WString s else WUndefined
  | None => WUndefined
  end.

(** [kbWhen === bindingWhen] *)
Definition whenEq (a b : WhenValue) : bool :=
  match a, b with
  | WUndefined, WUndefined => true
  | WString s, WString t => String.eqb s t
  | _, _ => false
  end.

(** The callback of [findIndex]: [None] when reading [kb.command] throws
    ([kb] is [null]). *)
Definition matchesBinding (binding : KeybindingInfo) (kb : UserEntry)
  : option bool :=
  match kb with
  | ENull => None
  | EPrimitive => Some false
  | EObject (FString c) _ w =>
      if negb (String.eqb c (command binding)) then Some false
      else Some (whenEq (entryWhen w) (bindingWhen (when binding)))
  | EObject _ _ _ => Some false
  end.

(** [currentKeybindings.findIndex(...)]: [Some None] is -1, [None] a
    thrown TypeError. *)
Fixpoint findIndex (binding : KeybindingInfo) (kbs : list UserEntry)
  : option (option nat) :=
  match kbs with
  | [] => Some None
  | kb :: r =>
      match matchesBinding binding kb with
      | None => None
      | Some true => Some (Some 0%nat)
      | Some false => option_map (option_map S) (findIndex binding r)
      end
  end.

(** [currentKeybindings[i].key = '']; only an object is ever found by
    [findIndex]. *)
Fixpoint setKeyEmpty (i : nat) (kbs : list UserEntry) : list UserEntry :=
  match kbs, i with
  | [], _ => []
  | EObject c _ w :: r, O => EObject c (FString EmptyString) w :: r
  | kb :: r, O => kb :: r
  | kb :: r, S j => kb :: setKeyEmpty j r
  end.

Definition disableEntryOf (binding : KeybindingInfo) : UserEntry :=
  EObject (FString (command binding)) (FString EmptyString)
          (whenField (when binding)).

(** The loop over the selected bindings; [None] when [findIndex] throws. *)
Fixpoint disableLoop (bs : list KeybindingInfo) (current : list UserEntry)
  : option (list UserEntry) :=
  match bs with
  | [] => Some current
  | binding :: r =>
      match findIndex binding current with
      | None => None
      | Some (Some existingIndex) =>
          disableLoop r (setKeyEmpty existingIndex current)
      | Some None => disableLoop r (current ++ [disableEntryOf binding])
      end
  end.

(** The outcome of [disableKeybindings]: the error thrown from the
    [catch], or a normal return. *)
Inductive DisableOutcome :=
| UpdateFailed
| Done.

(** On a value that is not an array the first [findIndex] is a TypeError.
    [FileText (Some updated)] is the file as [writeKeybindingsFile] leaves
    it, given by the array it was handed, with the same proviso as for
    [reassignKeybinding]. *)
Definition disableKeybindings (bs : list KeybindingInfo)
  (f : KeybindingsFile) : KeybindingsFile * DisableOutcome :=
  if (List.length bs =? 0)%nat then (f, Done)
  else
    let (f1, currentKeybindings) := readKeybindingsFile f in
    match currentKeybindings with
    | None => (f1, UpdateFailed)
    | Some current =>
        match disableLoop bs current with
        | None => (f1, UpdateFailed)
        | Some updated => (FileText (Some updated), Done)
        end
    end.

(** *** The text written *)

(** An entry as the resolver creates it (lines 492-499, 539-545 and
    549-555): the properties [key] and [command], then [when] if the
    binding has a truthy one. *)
Record NewEntry := {
  n_key : string;
  n_command : string;
  n_when : option string
}.

Definition newWhen (w : option string) : option string :=
  match w with
  | Some s => if truthy s then Some s else None
  | None => None
  end.

Definition newDisableEntry (binding : KeybindingInfo) : NewEntry :=
  {| n_key := EmptyString; n_command := command binding;
     n_when := newWhen (when binding) |}.

Definition newReassignEntries (binding : KeybindingInfo) (newKey : string)
  : list NewEntry :=
  [{| n_key := key binding; n_command := ("-" ++ command binding)%string;
      n_when := newWhen (when binding) |};
   {| n_key := trim (toLowerCase newKey); n_command := command binding;
      n_when := newWhen (when binding) |}].

(** What the readers see of such an entry once it is parsed. *)
Definition entryView (e : NewEntry) : UserEntry :=
  EObject (FString (n_command e)) (FString (n_key e))
          (match n_when e with Some w => FString w | None => FAbsent end).

Definition lineFeed : string := String "010" EmptyString.

(** [JSON.stringify(keybindings, null, 2)] (line 626) on an array of such
    entries: one property a line, four spaces in; the braces two spaces
    in; [[]] for the empty array. *)
Definition memberText (name value : string) : string :=
  ("    " ++ quoteJSONString name ++ ": " ++ quoteJSONString value)%string.

Definition members (e : NewEntry) : list string :=
  memberText "key" (n_key e) :: memberText "command" (n_command e) ::
  match n_when e with
  | Some w => [memberText "when" w]
  | None => []
  end.

Definition objectText (e : NewEntry) : string :=
  ("{" ++ lineFeed ++ join ("," ++ lineFeed) (members e)
   ++ lineFeed ++ "  }")%string.

Definition stringify (keybindings : list NewEntry) : string :=
  match keybindings with
  | [] => "[]"
  | _ =>
      ("[" ++ lineFeed ++
       join ("," ++ lineFeed)
            (map (fun e => "  " ++ objectText e) keybindings)
       ++ lineFeed ++ "]")%string
  end.

End Resolver.

(** ** The activation code: change events and the resolution flow *)

Module Extension.
Import JS Scanner Presenter Resolver.

(** The listener of [vscode.extensions.onDidChange], on the global
    [lastKnownExtensions]: the new value of the global, and the identifiers
    for which a scan is scheduled, if any. *)
Definition onDidChange (autoDetect : bool)
  (currentExtensions lastKnownExtensions : list string)
  : list string * option (list string) :=
  if negb autoDetect then (lastKnownExtensions, None)
  else
    let newExtensions :=
      filter (fun i => negb (arrayIncludes lastKnownExtensions i))
             currentExtensions in
    if (0 <? List.length newExtensions)%nat
    then (currentExtensions, Some newExtensions)
    else (currentExtensions, None).

(** The conflicts that involve one of the new extensions. *)
Definition newExtensionConflicts (newExtensionIds : list string)
  (allConflicts : list ConflictGroup) : list ConflictGroup :=
  filter
    (fun conflict =>
       existsb (fun b => arrayIncludes newExtensionIds (extensionId b))
               (bindings conflict))
    allConflicts.

(** What [processConflictResolution] ends with. *)
Inductive Resolution :=
| NothingDone
| DisabledSome (count : nat)
| DisableFailed
| ReassignedTo (newKey : string)
| ReassignRefused (conflict : KeybindingInfo)
| ReassignFailed
| NoBindingToReassign.

Definition processConflictResolution (conflicts : list ConflictGroup)
  (allBindings : list KeybindingInfo) (a : Answers) (f : KeybindingsFile)
  : KeybindingsFile * Resolution :=
  match showConflicts conflicts allBindings a with
  | None => (f, NothingDone)
  | Some (Disable bs) =>
      match disableKeybindings bs f with
      | (f', Done) => (f', DisabledSome (List.length bs))
      | (f', UpdateFailed) => (f', DisableFailed)
      end
  | Some (Reassign bs newKey known) =>
      match bs with
      | [] => (fst (readKeybindingsFile f), NoBindingToReassign)
      | binding :: _ =>
          match reassignKeybinding binding newKey known f with
          | (f', Returned) => (f', ReassignedTo newKey)
          | (f', Thrown conflict) => (f', ReassignRefused conflict)
          | (f', PushFailed) => (f', ReassignFailed)
          end
      end
  end.

(** The answer to the warning of an automatic scan. *)
Inductive Notice := ResolveNow | Ignore | Dismissed.

Section WithCollation.
Variable localeCompare : string -> string -> Z.

(** [scanNewExtensionConflicts], on a fresh scanner: the file afterwards
    and what was done. *)
Definition scanNewExtensionConflicts (newExtensionIds : list string)
  (showNotifications : bool) (notice : Notice) (a : Answers) (h : Host)
  : KeybindingsFile * Resolution :=
  let (st, allConflicts) := scanConflicts localeCompare h initial in
  let allBindings := getAllBindings st in
  let shown := newExtensionConflicts newExtensionIds allConflicts in
  if (List.length shown =? 0)%nat then (keybindingsFile h, NothingDone)
  else if showNotifications then
    match notice with
    | ResolveNow =>
        processConflictResolution shown allBindings a (keybindingsFile h)
    | _ => (keybindingsFile h, NothingDone)
    end
  else (keybindingsFile h, NothingDone).

(** [scanKeybindingConflicts]: the manual scan goes straight to the
    resolution, the automatic one asks first. *)
Definition scanKeybindingConflicts (isAutomatic : bool)
  (showNotifications : bool) (notice : Notice) (a : Answers) (h : Host)
  : KeybindingsFile * Resolution :=
  let (st, conflicts) := scanConflicts localeCompare h initial in
  let allBindings := getAllBindings st in
  if isAutomatic then
    if (0 <? List.length conflicts)%nat then
      if showNotifications then
        match notice with
        | ResolveNow =>
            processConflictResolution conflicts allBindings a
                                      (keybindingsFile h)
        | _ => (keybindingsFile h, NothingDone)
        end
      else (keybindingsFile h, NothingDone)
    else (keybindingsFile h, NothingDone)
  else processConflictResolution conflicts allBindings a (keybindingsFile h).

End WithCollation.

End Extension.

(** ** Two collations *)

Module Collation.

(** Comparison of code units, position by position: the order of [<] on
    JavaScript strings. *)
Definition codeUnitCompare (a b : string) : Z :=
  match String.compare a b with
  | Lt => (-1)%Z
  | Eq => 0%Z
  | Gt => 1%Z
  end.

(** The place of a character in the root collation of the Unicode CLDR, on
    which [localeCompare] is built, for the printable ASCII characters other
    than capital letters: white space, then punctuation, then symbols, then
    the dollar sign, then digits, then letters.  Other code units are put
    after the letters, by code. *)
Definition rootOrder : list ascii :=
  [" "; "_"; "-"; ","; ";"; ":"; "!"; "?"; "."; "'"; "034"; "("; ")"; "[";
   "]"; "{"; "}"; "@"; "*"; "/"; "\"; "&"; "#"; "%"; "`"; "^"; "+"; "<";
   "="; ">"; "|"; "~"; "$";
   "0"; "1"; "2"; "3"; "4"; "5"; "6"; "7"; "8"; "9";
   "a"; "b"; "c"; "d"; "e"; "f"; "g"; "h"; "i"; "j"; "k"; "l"; "m"; "n";
   "o"; "p"; "q"; "r"; "s"; "t"; "u"; "v"; "w"; "x"; "y"; "z"]%char.

Fixpoint position (c : ascii) (l : list ascii) : option nat :=
  match l with
  | [] => None
  | a :: r =>
      if Ascii.eqb a c then Some 0
      else option_map S (position c r)
  end.

Definition rootRank (c : ascii) : N :=
  match position c rootOrder with
  | Some i => N.of_nat i
  | None => 1000 + N_of_ascii c
  end.

Fixpoint rootCompare (a b : string) : Z :=
  match a, b with
  | EmptyString, EmptyString => 0%Z
  | EmptyString, String _ _ => (-1)%Z
  | String _ _, EmptyString => 1%Z
  | String x a', String y b' =>
      match N.compare (rootRank x) (rootRank y) with
      | Lt => (-1)%Z
      | Gt => 1%Z
      | Eq => rootCompare a' b'
      end
  end.

End Collation.

(** ** Vocabulary of the statements *)

Module Vocabulary.
Import JS Scanner.

(** The first character of [s], if any, is not white space. *)
Definition headOk (s : string) : bool :=
  match s with
  | EmptyString => true
  | String c _ => negb (isWhiteSpace c)
  end.

(** A part of a sub-combo as [normalizeSingleKey] leaves it: not empty, in
    lower case, trimmed, without ["+"]. *)
Definition token (x : string) : Prop :=
  x <> EmptyString /\ toLowerCase x = x /\ trim x = x /\
  includes "+" x = false.

(** A token that can stand in a chord: it has no space either. *)
Definition atom (x : string) : Prop :=
  token x /\ includes " " x = false.

(** A main key: an atom that is not a modifier. *)
Definition mainKeyToken (k : string) : Prop :=
  atom k /\ isModifierKey k = false.

(** The parts of one sub-combo, as [normalizeSingleKey] computes them. *)
Definition partsOf (chord : string) : list string :=
  map trim (split "+" (trim (toLowerCase chord))).

(** A well-formed key combination, by the format check of the validation
    (no chord of [normalized.split(' ')] has a blank key,
    [keys.some(k => !k.trim())]): once in lower case and trimmed, every
    part of every space-separated sub-combo is non-blank. *)
Definition wellFormed (x : string) : bool :=
  forallb
    (fun chord => negb (existsb (fun k => isEmpty (trim k)) (split "+" chord)))
    (split " " (trim (toLowerCase x))).

(** A sub-combo as it stands in a chord: not empty, trimmed, without a
    space. *)
Definition subCombo (a : string) : Prop :=
  a <> EmptyString /\ trim a = a /\ includes " " a = false.

(** A string of white space only. *)
Definition blank (s : string) : bool := allOf isWhiteSpace s.

(** The last part that is not a modifier, [""] when there is none: the
    final value of [mainKey]. *)
Definition lastNonModifier (parts : list string) : string :=
  last (filter (fun p => negb (isModifierKey p)) parts) EmptyString.

(** What follows the sorted modifiers in the result: the main key, unless
    it is falsy. *)
Definition mainTail (parts : list string) : list string :=
  if truthy (lastNonModifier parts) then [lastNonModifier parts] else [].

(** The live bindings of a scan that carry the key [k], in collection
    order. *)
Definition liveWithKey (k : string) (bs : list KeybindingInfo)
  (disabled : set string) : list KeybindingInfo :=
  filter (fun b => negb (set_mem string_dec (command b) disabled) &&
                   String.eqb (key b) k) bs.

(** The bindings of [l] that carry the key [k]. *)
Definition withKey (k : string) (l : list KeybindingInfo)
  : list KeybindingInfo :=
  filter (fun b => String.eqb (key b) k) l.

(** The bindings that the user has not disabled. *)
Definition live (bs : list KeybindingInfo) (disabled : set string)
  : list KeybindingInfo :=
  filter (fun b => negb (set_mem string_dec (command b) disabled)) bs.

(** [m.get(k)] on the grouping map. *)
Fixpoint lookup (k : string) (m : list (string * list KeybindingInfo))
  : option (list KeybindingInfo) :=
  match m with
  | [] => None
  | (k', l) :: r => if String.eqb k' k then Some l else lookup k r
  end.

(** The entry of a key once the bindings [l] have been pushed after the
    entry [o]. *)
Definition extend (o : option (list KeybindingInfo))
  (l : list KeybindingInfo) : option (list KeybindingInfo) :=
  match o, l with
  | Some a, _ => Some (a ++ l)
  | None, [] => None
  | None, _ => Some l
  end.

(** An override entry that disables the command [c]: its command is
    ["-" ++ c]; or its command is [c] (not empty, not starting with ["-"])
    and it has no key, or the empty string as its key, or a key that is
    not a string and is falsy ([null], [false], [0]). *)
Definition disables (e : UserEntry) (c : string) : Prop :=
  match e with
  | EObject (FString cmd) k _ =>
      cmd = String "-" c \/
      (cmd = c /\ c <> EmptyString /\ startsWith "-" c = false /\
       match k with
       | FAbsent => True
       | FString s => s = EmptyString
       | FOther isTruthy => isTruthy = false
       end)
  | _ => False
  end.

(** An entry on which the loop of [getUserDisabledCommands] does not
    throw. *)
Definition readable (e : UserEntry) : bool :=
  match e with
  | ENull => false
  | EObject (FOther true) _ _ => false
  | _ => true
  end.

(** The text [s] holds a slash followed by a slash or, if [star] is set,
    by a star: the start of a comment for the regular expressions of
    [stripComments]. *)
Definition opensPair (star : bool) (s : string) : bool :=
  match s with
  | String d _ => Ascii.eqb d "/" || (star && Ascii.eqb d "*")
  | EmptyString => false
  end.

Fixpoint hasPair (star : bool) (s : string) : bool :=
  match s with
  | EmptyString => false
  | String c r => (Ascii.eqb c "/" && opensPair star r) || hasPair star r
  end.

(** A text without slash or star. *)
Definition plain (s : string) : bool :=
  allOf (fun c => negb (Ascii.eqb c "/" || Ascii.eqb c "*")) s.

(** [//] or [/*] occurs in [s]. *)
Definition hasCommentMarker (s : string) : bool := hasPair true s.

(** One of the strings of a created entry holds such a pair. *)
Definition entryHasPair (star : bool) (e : Resolver.NewEntry) : bool :=
  hasPair star (Resolver.n_key e) || hasPair star (Resolver.n_command e) ||
  match Resolver.n_when e with
  | Some w => hasPair star w
  | None => false
  end.

(** [a] may stay before [b] under the comparator [cmp]. *)
Definition leBy {A : Type} (cmp : A -> A -> Z) (a b : A) : Prop :=
  (cmp a b <= 0)%Z.

(** The order a comparator induces. *)
Definition precedes (cmp : string -> string -> Z) (a b : ConflictGroup)
  : Prop :=
  (cmp (group_key a) (group_key b) <= 0)%Z.

End Vocabulary.

(** ** Hosts used in the examples *)

Module Scenarios.
Import Scanner.

Definition contribution (k cmd : string) (w : option string) : Contribution :=
  {| kb_command := cmd; kb_when := w; kb_key := KeyString k;
     kb_mac := KeyAbsent; kb_linux := KeyAbsent; kb_win := KeyAbsent |}.

Definition extension (i : string) (kbs : list Contribution) : Extension :=
  {| ext_id := i;
     packageJSON :=
       Some {| displayName := None; pkg_name := Some i;
               keybindings := Some kbs |} |}.

(** Scenario A of the specification: the same chord from two extensions. *)
Definition scenarioA : Host :=
  {| extensions_all :=
       [extension "x" [contribution "ctrl+k ctrl+s" "x.save" None];
        extension "y" [contribution "ctrl+K ctrl+S" "y.save2" None]];
     platform := linux;
     keybindingsFile := FileMissing |}.

(** Scenario B: one extension, one key, two contexts. *)
Definition scenarioB : Host :=
  {| extensions_all :=
       [extension "z"
          [contribution "ctrl+enter" "z.confirm" (Some "inQuickOpen");
           contribution "ctrl+enter" "z.commit" (Some "scmRepository")]];
     platform := linux;
     keybindingsFile := FileMissing |}.

(** Scenario C: scenario A with [x.save] removed by the user. *)
Definition scenarioC : Host :=
  {| extensions_all := extensions_all scenarioA;
     platform := linux;
     keybindingsFile :=
       FileText (Some [EObject (FString "-x.save") FAbsent FAbsent]) |}.

(** Two extensions that both bind [ctrl+1] and [ctrl+[]. *)
Definition digitAndBracket : Host :=
  {| extensions_all :=
       [extension "x" [contribution "ctrl+1" "x.first" None;
                       contribution "ctrl+[" "x.outdent" None];
        extension "y" [contribution "ctrl+1" "y.one" None;
                       contribution "ctrl+[" "y.fold" None]];
     platform := linux;
     keybindingsFile := FileMissing |}.

Definition binding (k cmd ext : string) : KeybindingInfo :=
  {| key := k; command := cmd; when := None;
     extensionId := ext; extensionName := ext |}.

(** Four extensions: three bind the same chord, one of them through a
    command that the user has removed; the fourth binds one key in two
    contexts. *)
Definition mixed : Host :=
  {| extensions_all :=
       [extension "x" [contribution "ctrl+k ctrl+s" "x.save" None;
                       contribution "alt+q" "x.quit" None];
        extension "y" [contribution "ctrl+K ctrl+S" "y.save2" None];
        extension "w" [contribution "Ctrl+K Ctrl+S" "w.store" None];
        extension "z"
          [contribution "ctrl+enter" "z.confirm" (Some "inQuickOpen");
           contribution "ctrl+enter" "z.commit" (Some "scmRepository")]];
     platform := linux;
     keybindingsFile :=
       FileText (Some [EObject (FString "-x.save") FAbsent FAbsent]) |}.

(** A binding being reassigned, and the set it is checked against: the
    other extension already owns [ctrl+shift+v]. *)
Definition reassigned : KeybindingInfo := binding "ctrl+alt+x" "a.cut" "a".

Definition pasteOwner : KeybindingInfo := binding "ctrl+shift+v" "b.paste" "b".

Definition knownBindings : list KeybindingInfo := [reassigned; pasteOwner].

(** The only group that a scan of [mixed] reports. *)
Definition mixedGroup : ConflictGroup :=
  {| group_key := "ctrl+k ctrl+s";
     bindings := [binding "ctrl+k ctrl+s" "y.save2" "y";
                  binding "ctrl+k ctrl+s" "w.store" "w"] |}.

(** Four extensions and a user file with the three kinds of disabling
    entry: a command behind ["-"], an entry whose key is the empty string,
    and an entry without a key. *)
Definition overridden : Host :=
  {| extensions_all :=
       [extension "x" [contribution "ctrl+k ctrl+s" "x.save" None;
                       contribution "alt+q" "x.quit" None];
        extension "y" [contribution "ctrl+K ctrl+S" "y.save2" None;
                       contribution "alt+q" "y.quit" None];
        extension "w" [contribution "Ctrl+K Ctrl+S" "w.store" None];
        extension "v" [contribution "ctrl+k ctrl+s" "v.keep" None]];
     platform := linux;
     keybindingsFile :=
       FileText
         (Some [EObject (FString "-x.save") (FString "ctrl+k ctrl+s") FAbsent;
                EObject (FString "w.store") (FString EmptyString) FAbsent;
                EObject (FString "y.quit") FAbsent (FString "editorFocus")])
  |}.

(** The only group that a scan of [overridden] reports. *)
Definition overriddenGroup : ConflictGroup :=
  {| group_key := "ctrl+k ctrl+s";
     bindings := [binding "ctrl+k ctrl+s" "y.save2" "y";
                  binding "ctrl+k ctrl+s" "v.keep" "v"] |}.

(** A binding whose [when] clause holds two slashes in a row. *)
Definition linked : KeybindingInfo :=
  {| key := "ctrl+l"; command := "x.open";
     when := Some "origin == 'http://localhost'";
     extensionId := "x"; extensionName := "x" |}.

End Scenarios.

(** ** Vocabulary of the write-back and of the resolution flow *)

Module FlowVocabulary.
Import JS Scanner Presenter Resolver Extension.

(** An entry after a write-back: itself, or itself with its key emptied. *)
Definition sameButKey (e e' : UserEntry) : Prop :=
  e' = e \/
  exists c k w, e = EObject c k w /\ e' = EObject c (FString EmptyString) w.

(** The binding [b] already has its disabling entry in [current]: the entry
    that [findIndex] finds has an empty key. *)
Definition settled (b : KeybindingInfo) (current : list UserEntry) : Prop :=
  exists i, findIndex b current = Some (Some i) /\
            setKeyEmpty i current = current.

(** No element of the array is [null]. *)
Definition noNull (kbs : list UserEntry) : bool :=
  forallb (fun e => match e with ENull => false | _ => true end) kbs.

(** A file in which the resolver finds an array, and the array: a missing
    file is created holding [[]], a blank or unparseable one is taken for
    [[]]. *)
Definition readsArray (f : KeybindingsFile) (current : list UserEntry)
  : Prop :=
  snd (readKeybindingsFile f) = Some current.

(** The two entries that a reassignment appends. *)
Definition reassignEntries (binding : KeybindingInfo) (newKey : string)
  : list UserEntry :=
  [EObject (FString ("-" ++ command binding)) (FString (key binding))
           (whenField (when binding));
   EObject (FString (command binding)) (FString (trim (toLowerCase newKey)))
           (whenField (when binding))].

(** The field that [process.platform] selects, if any. *)
Definition platformField (p : Platform) (kb : Contribution) : KeyField :=
  match p with
  | darwin => kb_mac kb
  | linux => kb_linux kb
  | win32 => kb_win kb
  | otherPlatform => KeyAbsent
  end.

(** The binding that a contribution [kb] of the extension [ext] gives for
    the raw key [k]. *)
Definition bindingOf (ext : Extension) (pkg : PackageJSON)
  (kb : Contribution) (k : string) : KeybindingInfo :=
  {| key := normalizeKey k;
     command := kb_command kb;
     when := kb_when kb;
     extensionId := ext_id ext;
     extensionName :=
       orElse (displayName pkg) (orElse (pkg_name pkg) (ext_id ext)) |}.

(** The bindings that an action carries. *)
Definition actionBindings (act : ResolutionAction) : list KeybindingInfo :=
  match act with
  | Disable bs => bs
  | Reassign bs _ _ => bs
  end.

(** The prompts of [showConflicts] that end it without an action. *)
Definition dismissed (conflicts : list ConflictGroup) (a : Answers) : Prop :=
  conflicts = [] \/
  picked a = None \/
  (exists sel, picked a = Some sel /\ selectedBindingsOf sel = []) \/
  chosen a = None \/
  chosen a = Some ChooseOpenSettings \/
  (chosen a = Some ChooseReassign /\
   (typed a = None \/ typed a = Some EmptyString \/
    exists sel, picked a = Some sel /\
                (1 < List.length (selectedBindingsOf sel))%nat)).

(** A user file with one entry that is not about [x.save]. *)
Definition someFile : KeybindingsFile :=
  FileText (Some [EObject (FString "editor.fold") (FString "ctrl+9") FAbsent]).

End FlowVocabulary.

(** ** Characters and strings *)

Section Strings.
Import JS.

Local Ltac all_units c :=
  destruct c as [[] [] [] [] [] [] [] []]; vm_compute; try reflexivity;
  try discriminate; auto.

Lemma toLowerCaseUnit_idem c :
  toLowerCaseUnit (toLowerCaseUnit c) = toLowerCaseUnit c.
Proof. all_units c. Qed.

Lemma isWhiteSpace_lower c :
  isWhiteSpace (toLowerCaseUnit c) = isWhiteSpace c.
Proof. all_units c. Qed.


Lemma toLowerCase_idem s : toLowerCase (toLowerCase s) = toLowerCase s.
Proof.
  induction s as [|c r IH]; simpl; [reflexivity|].
  now rewrite toLowerCaseUnit_idem, IH.
Qed.

Lemma toLowerCase_app a b :
  toLowerCase (a ++ b) = (toLowerCase a ++ toLowerCase b)%string.
Proof. induction a as [|c r IH]; simpl; [reflexivity | now rewrite IH]. Qed.

Lemma isEmpty_true s : isEmpty s = true <-> s = EmptyString.
Proof. destruct s; simpl; split; congruence. Qed.

Lemma isEmpty_false s : isEmpty s = false <-> s <> EmptyString.
Proof. destruct s; simpl; split; congruence. Qed.

Lemma isEmpty_lower s : isEmpty (toLowerCase s) = isEmpty s.
Proof. destruct s; reflexivity. Qed.

Lemma trimStart_lower s : trimStart (toLowerCase s) = toLowerCase (trimStart s).
Proof.
  induction s as [|c r IH]; simpl; [reflexivity|].
  rewrite isWhiteSpace_lower. destruct (isWhiteSpace c); [exact IH | reflexivity].
Qed.

Lemma trimEnd_lower s : trimEnd (toLowerCase s) = toLowerCase (trimEnd s).
Proof.
  induction s as [|c r IH]; simpl; [reflexivity|].
  rewrite isWhiteSpace_lower, IH, isEmpty_lower.
  destruct (isWhiteSpace c && isEmpty (trimEnd r)); reflexivity.
Qed.

Lemma trim_lower s : trim (toLowerCase s) = toLowerCase (trim s).
Proof. unfold trim. now rewrite trimStart_lower, trimEnd_lower. Qed.

(** *** Trimming *)

Lemma headOk_trimStart s : Vocabulary.headOk (trimStart s) = true.
Proof.
  induction s as [|c r IH]; simpl; [reflexivity|].
  destruct (isWhiteSpace c) eqn:E; [exact IH | simpl; now rewrite E].
Qed.

Lemma trimStart_headOk s : Vocabulary.headOk s = true -> trimStart s = s.
Proof.
  destruct s as [|c r]; simpl; [reflexivity|].
  destruct (isWhiteSpace c); [discriminate | reflexivity].
Qed.

Lemma trimEnd_idem s : trimEnd (trimEnd s) = trimEnd s.
Proof.
  induction s as [|c r IH]; simpl; [reflexivity|].
  destruct (isWhiteSpace c && isEmpty (trimEnd r)) eqn:E; [reflexivity|].
  simpl. now rewrite IH, E.
Qed.

Lemma headOk_trimEnd s :
  Vocabulary.headOk s = true -> Vocabulary.headOk (trimEnd s) = true.
Proof.
  destruct s as [|c r]; simpl; [reflexivity|]. intros H.
  apply negb_true_iff in H. rewrite H. simpl. now rewrite H.
Qed.

Lemma trim_idem s : trim (trim s) = trim s.
Proof.
  unfold trim.
  rewrite (trimStart_headOk (trimEnd (trimStart s))).
  - apply trimEnd_idem.
  - apply headOk_trimEnd, headOk_trimStart.
Qed.

Lemma trimmed_headOk s : trim s = s -> Vocabulary.headOk s = true.
Proof.
  intros H. rewrite <- H. apply headOk_trimEnd, headOk_trimStart.
Qed.

Lemma trimmed_trimEnd s : trim s = s -> trimEnd s = s.
Proof.
  intros H. rewrite <- H at 1. unfold trim. rewrite trimEnd_idem. exact H.
Qed.

Lemma trimmed_intro s :
  Vocabulary.headOk s = true -> trimEnd s = s -> trim s = s.
Proof. intros H1 H2. unfold trim. now rewrite trimStart_headOk. Qed.

Lemma trimEnd_app a b :
  trimEnd b <> EmptyString -> trimEnd (a ++ b) = (a ++ trimEnd b)%string.
Proof.
  intros Hb. induction a as [|c r IH]; simpl; [reflexivity|].
  rewrite IH. destruct (r ++ trimEnd b)%string eqn:E.
  - destruct r; simpl in E; [congruence | discriminate].
  - simpl. now rewrite andb_false_r.
Qed.

Lemma headOk_app a b :
  a <> EmptyString -> Vocabulary.headOk a = true ->
  Vocabulary.headOk (a ++ b) = true.
Proof. destruct a; simpl; [congruence | auto]. Qed.

Lemma app_nonempty (a b : string) :
  a <> EmptyString -> (a ++ b)%string <> EmptyString.
Proof. destruct a; simpl; congruence. Qed.

Lemma app_nonempty_r (a b : string) :
  b <> EmptyString -> (a ++ b)%string <> EmptyString.
Proof. destruct a; simpl; congruence. Qed.


(** *** Searching, splitting and joining *)

Lemma eqb_lower_plus c :
  Ascii.eqb (toLowerCaseUnit c) "+" = Ascii.eqb c "+".
Proof. all_units c. Qed.

Lemma eqb_lower_space c :
  Ascii.eqb (toLowerCaseUnit c) " " = Ascii.eqb c " ".
Proof. all_units c. Qed.


Lemma includes_lower_space s : includes " " (toLowerCase s) = includes " " s.
Proof.
  induction s as [|c r IH]; simpl; [reflexivity|].
  now rewrite eqb_lower_space, IH.
Qed.

Lemma includes_app c a b :
  includes c (a ++ b) = includes c a || includes c b.
Proof.
  induction a as [|x r IH]; simpl; [reflexivity|].
  now rewrite IH, orb_assoc.
Qed.

Lemma includes_trimStart c s :
  includes c s = false -> includes c (trimStart s) = false.
Proof.
  induction s as [|x r IH]; simpl; [auto|]. intros H.
  apply orb_false_iff in H as [H1 H2].
  destruct (isWhiteSpace x); [auto | simpl; now rewrite H1, H2].
Qed.

Lemma includes_trimEnd c s :
  includes c s = false -> includes c (trimEnd s) = false.
Proof.
  induction s as [|x r IH]; simpl; [auto|]. intros H.
  apply orb_false_iff in H as [H1 H2].
  destruct (isWhiteSpace x && isEmpty (trimEnd r)); [reflexivity|].
  simpl. now rewrite H1, IH.
Qed.

Lemma includes_trim c s : includes c s = false -> includes c (trim s) = false.
Proof. intros H. apply includes_trimEnd, includes_trimStart, H. Qed.

Lemma splitOn_not_nil sep s : splitOn sep s <> [].
Proof.
  destruct s as [|c r]; simpl; [discriminate|].
  destruct (sep c); [discriminate|].
  destruct (splitOn sep r); discriminate.
Qed.

Lemma split_no_sep c s : Forall (fun x => includes c x = false) (split c s).
Proof.
  unfold split. induction s as [|a r IH]; simpl.
  - constructor; [reflexivity | constructor].
  - destruct (Ascii.eqb c a) eqn:E.
    + constructor; [reflexivity | exact IH].
    + destruct (splitOn (Ascii.eqb c) r) as [|h t] eqn:S.
      * constructor; [|constructor]. simpl.
        rewrite Ascii.eqb_sym, E. reflexivity.
      * inversion IH; subst. constructor; [|assumption].
        simpl. rewrite Ascii.eqb_sym, E. assumption.
Qed.

Lemma split_single c s : includes c s = false -> split c s = [s].
Proof.
  unfold split. induction s as [|a r IH]; simpl; [reflexivity|].
  intros H. apply orb_false_iff in H as [H1 H2].
  rewrite Ascii.eqb_sym, H1, (IH H2). reflexivity.
Qed.

Lemma split_app_sep c a b :
  includes c a = false ->
  split c (a ++ String c b) = a :: split c b.
Proof.
  unfold split. induction a as [|x r IH]; simpl.
  - intros _. now rewrite Ascii.eqb_refl.
  - intros H. apply orb_false_iff in H as [H1 H2].
    rewrite Ascii.eqb_sym, H1, (IH H2). reflexivity.
Qed.

Lemma join_cons sep x y r :
  join sep (x :: y :: r) = (x ++ sep ++ join sep (y :: r))%string.
Proof. reflexivity. Qed.

Lemma split_join c l :
  l <> [] -> Forall (fun x => includes c x = false) l ->
  split c (join (String c EmptyString) l) = l.
Proof.
  induction l as [|x r IH]; [congruence|]. intros _ H.
  inversion H as [|? ? Hx Hr]; subst.
  destruct r as [|y r'].
  - simpl. now apply split_single.
  - rewrite join_cons.
    change (String c EmptyString ++ join (String c EmptyString) (y :: r'))%string
      with (String c (join (String c EmptyString) (y :: r'))).
    rewrite split_app_sep by assumption.
    rewrite IH; [reflexivity | discriminate | assumption].
Qed.

Lemma includes_join c sep l :
  includes c sep = false -> Forall (fun x => includes c x = false) l ->
  includes c (join sep l) = false.
Proof.
  intros Hs. induction l as [|x r IH]; intros H; [reflexivity|].
  inversion H as [|? ? Hx Hr]; subst.
  destruct r as [|y r']; [exact Hx|].
  rewrite join_cons, !includes_app, Hx, Hs, (IH Hr). reflexivity.
Qed.

Lemma includes_join_sep c x y r :
  includes c (join (String c EmptyString) (x :: y :: r)) = true.
Proof.
  rewrite join_cons, !includes_app. simpl.
  rewrite Ascii.eqb_refl. simpl. apply orb_true_r.
Qed.

Lemma toLowerCase_join sep l :
  toLowerCase (join sep l) = join (toLowerCase sep) (map toLowerCase l).
Proof.
  induction l as [|x r IH]; [reflexivity|].
  destruct r as [|y r']; [reflexivity|].
  rewrite join_cons, !toLowerCase_app, IH. reflexivity.
Qed.

Lemma lower_split c s :
  toLowerCase s = s -> Forall (fun x => toLowerCase x = x) (split c s).
Proof.
  unfold split. induction s as [|a r IH]; simpl; intros H.
  - constructor; [reflexivity | constructor].
  - injection H as Ha Hr. specialize (IH Hr).
    destruct (Ascii.eqb c a).
    + constructor; [reflexivity | exact IH].
    + destruct (splitOn (Ascii.eqb c) r) as [|h t].
      * constructor; [|constructor]. simpl. now rewrite Ha.
      * inversion IH; subst. constructor; [|assumption].
        simpl. rewrite Ha. f_equal. assumption.
Qed.

Lemma lower_trim s : toLowerCase s = s -> toLowerCase (trim s) = trim s.
Proof. intros H. rewrite <- trim_lower, H. reflexivity. Qed.

Lemma map_fixed {A} (f : A -> A) l : Forall (fun x => f x = x) l -> map f l = l.
Proof.
  induction 1 as [|x r Hx Hr IH]; simpl; [reflexivity | now rewrite Hx, IH].
Qed.

Lemma join_nonempty sep x r : x <> EmptyString -> join sep (x :: r) <> EmptyString.
Proof.
  intros Hx. destruct r; [exact Hx | rewrite join_cons; now apply app_nonempty].
Qed.

(** A joined list of non-empty trimmed strings is trimmed. *)
Lemma trimEnd_join sep l :
  Forall (fun x => x <> EmptyString /\ trim x = x) l ->
  trimEnd (join sep l) = join sep l.
Proof.
  induction 1 as [|x r [Hx Tx] Hr IH]; [reflexivity|].
  destruct r as [|y r']; [now apply trimmed_trimEnd|].
  assert (HJ : trimEnd (join sep (y :: r')) <> EmptyString).
  { rewrite IH. inversion Hr as [|? ? [Hy _] _]; subst.
    now apply join_nonempty. }
  assert (HS : trimEnd (sep ++ join sep (y :: r')) =
               (sep ++ join sep (y :: r'))%string).
  { rewrite trimEnd_app by exact HJ. now rewrite IH. }
  rewrite join_cons, trimEnd_app; rewrite HS; [reflexivity|].
  apply app_nonempty_r. now rewrite <- IH.
Qed.

Lemma trim_join sep l :
  Forall (fun x => x <> EmptyString /\ trim x = x) l ->
  trim (join sep l) = join sep l.
Proof.
  intros H. apply trimmed_intro; [|now apply trimEnd_join].
  destruct H as [|x r [Hx Tx] Hr]; [reflexivity|].
  destruct r as [|y r']; [now apply trimmed_headOk|].
  rewrite join_cons. apply headOk_app; [assumption | now apply trimmed_headOk].
Qed.

End Strings.

(** ** The stable sort *)

Section SortFacts.
Import JS Vocabulary.
Context {A : Type} (cmp : A -> A -> Z).


Lemma sortInsert_perm x l : Permutation (sortInsert cmp x l) (x :: l).
Proof.
  induction l as [|y r IH]; simpl; [reflexivity|].
  destruct (cmp x y <=? 0)%Z; [reflexivity|].
  rewrite IH. apply perm_swap.
Qed.

Lemma sort_perm l : Permutation (sort cmp l) l.
Proof.
  induction l as [|x r IH]; simpl; [reflexivity|].
  rewrite sortInsert_perm. now constructor.
Qed.

Lemma sort_In x l : In x (sort cmp l) <-> In x l.
Proof.
  split; apply Permutation_in; [apply sort_perm|].
  symmetry; apply sort_perm.
Qed.

Lemma sort_Forall (P : A -> Prop) l : Forall P l -> Forall P (sort cmp l).
Proof.
  rewrite !Forall_forall. intros H x Hx. apply H, sort_In, Hx.
Qed.

Lemma sortInsert_fixed x l :
  HdRel (leBy cmp) x l -> sortInsert cmp x l = x :: l.
Proof.
  destruct 1 as [|y r Hxy]; simpl; [reflexivity|].
  unfold leBy in Hxy. apply Z.leb_le in Hxy. now rewrite Hxy.
Qed.

(** Sorting a sorted list changes nothing. *)
Lemma sort_fixed l : Sorted (leBy cmp) l -> sort cmp l = l.
Proof.
  induction 1 as [|x r Hs IH Hh]; simpl; [reflexivity|].
  rewrite IH. now apply sortInsert_fixed.
Qed.

Hypothesis le_total : forall a b, leBy cmp a b \/ leBy cmp b a.

Lemma sortInsert_sorted x l :
  Sorted (leBy cmp) l -> Sorted (leBy cmp) (sortInsert cmp x l).
Proof.
  induction 1 as [|y r Hs IH Hh]; simpl.
  - repeat constructor.
  - destruct (cmp x y <=? 0)%Z eqn:E.
    + apply Z.leb_le in E. repeat constructor; assumption.
    + apply Z.leb_gt in E.
      assert (Hyx : leBy cmp y x)
        by (destruct (le_total x y); unfold leBy in *; [lia | assumption]).
      constructor; [exact IH|].
      destruct Hh as [|z r' Hyz]; simpl.
      * now constructor.
      * destruct (cmp x z <=? 0)%Z; now constructor.
Qed.

Lemma sort_sorted l : Sorted (leBy cmp) (sort cmp l).
Proof.
  induction l as [|x r IH]; simpl; [constructor | now apply sortInsert_sorted].
Qed.

Lemma sort_idem l : sort cmp (sort cmp l) = sort cmp l.
Proof. apply sort_fixed, sort_sorted. Qed.

Hypothesis le_trans :
  forall a b c, leBy cmp a b -> leBy cmp b c -> leBy cmp a c.

Lemma sort_strongly_sorted l : StronglySorted (leBy cmp) (sort cmp l).
Proof.
  apply Sorted_StronglySorted; [|apply sort_sorted].
  intros a b c. apply le_trans.
Qed.

(** Two sorted arrangements of the same elements are equal when the order
    identifies no two distinct elements of them. *)
Lemma sorted_perm_unique l l' :
  (forall a b, In a l -> In b l -> leBy cmp a b -> leBy cmp b a -> a = b) ->
  Permutation l l' ->
  StronglySorted (leBy cmp) l -> StronglySorted (leBy cmp) l' -> l = l'.
Proof.
  revert l'. induction l as [|a t IH]; intros l' Hanti Hp Hs Hs'.
  - apply Permutation_nil in Hp. now subst.
  - destruct l' as [|b t'].
    + symmetry in Hp. apply Permutation_nil in Hp. discriminate.
    + apply StronglySorted_inv in Hs as [Hs Ha].
      apply StronglySorted_inv in Hs' as [Hs' Hb].
      rewrite Forall_forall in Ha, Hb.
      assert (Hab : a = b).
      { assert (In a (b :: t')) as [->|Ia]
          by (eapply Permutation_in; [exact Hp | now left]); [reflexivity|].
        assert (In b (a :: t)) as [->|Ib]
          by (eapply Permutation_in; [symmetry; exact Hp | now left]);
          [reflexivity|].
        apply Hanti; [now left | now right | now apply Ha | now apply Hb]. }
      subst b. f_equal. apply IH; auto.
      * intros x y Hx Hy. apply Hanti; now right.
      * eapply Permutation_cons_inv; exact Hp.
Qed.

Lemma sort_perm_invariant l l' :
  (forall a b, In a l -> In b l -> leBy cmp a b -> leBy cmp b a -> a = b) ->
  Permutation l l' -> sort cmp l = sort cmp l'.
Proof.
  intros Hanti Hp. apply sorted_perm_unique.
  - intros a b Ha Hb. apply Hanti; now apply sort_In.
  - rewrite sort_perm, Hp. symmetry. apply sort_perm.
  - apply sort_strongly_sorted.
  - apply sort_strongly_sorted.
Qed.

End SortFacts.

(** ** The normalizer *)

Section Normalizer.
Import JS Scanner Vocabulary.

Lemma classify_acc parts ms mk :
  fold_left
    (fun (st : list string * string) part =>
       if isModifierKey part then (fst st ++ [part], snd st)
       else (fst st, part))
    parts (ms, mk)
  = (ms ++ filter isModifierKey parts,
     last (filter (fun p => negb (isModifierKey p)) parts) mk).
Proof.
  revert ms mk. induction parts as [|p r IH]; intros ms mk; simpl.
  - now rewrite app_nil_r.
  - destruct (isModifierKey p); simpl; rewrite IH.
    + now rewrite <- app_assoc.
    + f_equal.
      destruct (filter (fun p0 => negb (isModifierKey p0)) r) eqn:E;
        [reflexivity|].
      clear. revert s mk. induction l as [|x l IHl]; intros; [reflexivity|].
      simpl. destruct l; [reflexivity|]. apply (IHl x).
Qed.

Lemma classify_spec parts :
  classify parts = (filter isModifierKey parts, lastNonModifier parts).
Proof. unfold classify. now rewrite classify_acc. Qed.


(** [normalizeSingleKey] in one equation. *)
Lemma normalizeSingleKey_unfold p :
  normalizeSingleKey p =
  if (List.length (partsOf p) =? 1)%nat then trim (toLowerCase p)
  else join "+" (sort modifierCompare (filter isModifierKey (partsOf p))
                 ++ mainTail (partsOf p)).
Proof.
  unfold normalizeSingleKey, partsOf, mainTail.
  destruct (List.length _ =? 1)%nat; [reflexivity|].
  rewrite classify_spec.
  destruct (truthy _); [reflexivity | now rewrite app_nil_r].
Qed.

Lemma modifierCompare_total a b :
  leBy modifierCompare a b \/ leBy modifierCompare b a.
Proof. unfold leBy, modifierCompare. lia. Qed.

Lemma modifierCompare_trans a b c :
  leBy modifierCompare a b -> leBy modifierCompare b c ->
  leBy modifierCompare a c.
Proof. unfold leBy, modifierCompare. lia. Qed.

(** A modifier written in lower case is one of the nine names, each of
    which is an atom. *)
Lemma modifier_atom x :
  toLowerCase x = x -> isModifierKey x = true -> atom x.
Proof.
  unfold isModifierKey, arrayIncludes. intros ->. simpl. intros H.
  repeat (apply orb_true_iff in H as [H|H];
          [apply String.eqb_eq in H; subst x;
           repeat split; (discriminate || reflexivity)|]).
  discriminate H.
Qed.

Lemma partsOf_shape p :
  Forall (fun x => toLowerCase x = x /\ trim x = x /\ includes "+" x = false)
         (partsOf p).
Proof.
  unfold partsOf. apply Forall_map.
  assert (Hl : toLowerCase (trim (toLowerCase p)) = trim (toLowerCase p))
    by (apply lower_trim, toLowerCase_idem).
  pose proof (lower_split "+" _ Hl) as H1.
  pose proof (split_no_sep "+" (trim (toLowerCase p))) as H2.
  rewrite Forall_forall in *. intros x Hx. repeat split.
  - apply lower_trim, H1, Hx.
  - apply trim_idem.
  - apply includes_trim, H2, Hx.
Qed.

Lemma partsOf_not_nil p : partsOf p <> [].
Proof.
  unfold partsOf, split. intros H. apply map_eq_nil in H.
  now apply splitOn_not_nil in H.
Qed.

Lemma truthy_true s : truthy s = true <-> s <> EmptyString.
Proof. unfold truthy. rewrite negb_true_iff. apply isEmpty_false. Qed.

Lemma last_In {X} (l : list X) d : l <> [] -> In (last l d) l.
Proof.
  induction l as [|x r IH]; [congruence|]. intros _.
  destruct r; [now left|]. right. apply IH. discriminate.
Qed.

Lemma mainTail_spec parts k :
  In k (mainTail parts) ->
  k = lastNonModifier parts /\ k <> EmptyString /\
  In k parts /\ isModifierKey k = false.
Proof.
  unfold mainTail. destruct (truthy (lastNonModifier parts)) eqn:E;
    [|contradiction].
  intros [<-|[]]. apply truthy_true in E.
  assert (Hin : In (lastNonModifier parts)
                   (filter (fun p => negb (isModifierKey p)) parts)).
  { unfold lastNonModifier in *. apply last_In.
    destruct (filter _ parts); [simpl in E; congruence | discriminate]. }
  apply filter_In in Hin as [H1 H2]. apply negb_true_iff in H2. auto.
Qed.

(** The pieces of the result of [normalizeSingleKey] are tokens. *)
Lemma result_tokens p :
  Forall token (sort modifierCompare (filter isModifierKey (partsOf p))
                ++ mainTail (partsOf p)).
Proof.
  pose proof (partsOf_shape p) as Hs. rewrite Forall_forall in Hs.
  apply Forall_app. split.
  - apply sort_Forall. apply Forall_forall. intros x Hx.
    apply filter_In in Hx as [H1 H2]. destruct (Hs x H1) as (Hl & Ht & Hp).
    now destruct (modifier_atom x Hl H2).
  - apply Forall_forall. intros k Hk.
    apply mainTail_spec in Hk as (_ & Hne & Hin & _).
    destruct (Hs k Hin) as (Hl & Ht & Hp). now repeat split.
Qed.

Lemma tokens_trimmed l :
  Forall token l -> Forall (fun x => x <> EmptyString /\ trim x = x) l.
Proof. apply Forall_impl. intros x (H1 & _ & H3 & _). now split. Qed.

Lemma tokens_lower l : Forall token l -> map toLowerCase l = l.
Proof.
  intros H. apply map_fixed. revert H. apply Forall_impl.
  now intros x (_ & H2 & _).
Qed.

Lemma tokens_no_plus l :
  Forall token l -> Forall (fun x => includes "+" x = false) l.
Proof. apply Forall_impl. now intros x (_ & _ & _ & H4). Qed.

Lemma tokens_parts l :
  Forall token l -> l <> [] -> partsOf (join "+" l) = l.
Proof.
  intros H Hne. unfold partsOf.
  rewrite toLowerCase_join, tokens_lower by assumption.
  change (toLowerCase "+") with "+".
  rewrite trim_join by now apply tokens_trimmed.
  rewrite split_join; [|assumption|now apply tokens_no_plus].
  apply map_fixed. revert H. apply Forall_impl. now intros x (_ & _ & H3 & _).
Qed.

Lemma tokens_normalized l :
  Forall token l -> trim (toLowerCase (join "+" l)) = join "+" l.
Proof.
  intros H. rewrite toLowerCase_join, tokens_lower by assumption.
  change (toLowerCase "+") with "+". apply trim_join. now apply tokens_trimmed.
Qed.

(** [normalizeSingleKey] on a key already made of tokens. *)
Lemma normalizeSingleKey_tokens l :
  Forall token l ->
  normalizeSingleKey (join "+" l) =
  match l with
  | [] => EmptyString
  | [x] => x
  | _ => join "+" (sort modifierCompare (filter isModifierKey l) ++ mainTail l)
  end.
Proof.
  intros H. destruct l as [|x r]; [reflexivity|].
  rewrite normalizeSingleKey_unfold, tokens_parts, tokens_normalized;
    [|assumption|assumption|discriminate].
  destruct r; reflexivity.
Qed.

Lemma filter_all {X} (f : X -> bool) l :
  Forall (fun x => f x = true) l -> filter f l = l.
Proof.
  induction 1 as [|x r Hx Hr IH]; simpl; [reflexivity | now rewrite Hx, IH].
Qed.

Lemma filter_none {X} (f : X -> bool) l :
  Forall (fun x => f x = false) l -> filter f l = [].
Proof.
  induction 1 as [|x r Hx Hr IH]; simpl; [reflexivity | now rewrite Hx, IH].
Qed.

Lemma sorted_modifiers_are_modifiers l :
  Forall (fun x => isModifierKey x = true)
         (sort modifierCompare (filter isModifierKey l)).
Proof.
  apply sort_Forall, Forall_forall. intros x Hx.
  now apply filter_In in Hx as [_ Hx].
Qed.

Lemma mainTail_not_modifier l :
  Forall (fun x => isModifierKey x = false) (mainTail l).
Proof.
  apply Forall_forall. intros k Hk. now apply mainTail_spec in Hk.
Qed.

Lemma Forall_negb {X} (f : X -> bool) l :
  Forall (fun x => f x = false) l -> Forall (fun x => negb (f x) = true) l.
Proof. apply Forall_impl. intros x ->. reflexivity. Qed.

Lemma Forall_negb' {X} (f : X -> bool) l :
  Forall (fun x => f x = true) l -> Forall (fun x => negb (f x) = false) l.
Proof. apply Forall_impl. intros x ->. reflexivity. Qed.

(** Classifying the pieces of a result gives the same pieces back. *)
Lemma result_reclassify l :
  let res := sort modifierCompare (filter isModifierKey l) ++ mainTail l in
  filter isModifierKey res = sort modifierCompare (filter isModifierKey l) /\
  mainTail res = mainTail l.
Proof.
  intros res. subst res. split.
  - rewrite filter_app.
    rewrite (filter_all isModifierKey)
      by apply sorted_modifiers_are_modifiers.
    rewrite (filter_none isModifierKey (mainTail l))
      by apply mainTail_not_modifier.
    apply app_nil_r.
  - unfold mainTail at 1, lastNonModifier at 1 2.
    rewrite filter_app.
    rewrite (filter_none (fun p => negb (isModifierKey p))
               (sort modifierCompare (filter isModifierKey l)))
      by apply Forall_negb', sorted_modifiers_are_modifiers.
    rewrite (filter_all (fun p => negb (isModifierKey p)) (mainTail l))
      by apply Forall_negb, mainTail_not_modifier.
    simpl. unfold mainTail.
    destruct (truthy (lastNonModifier l)) eqn:E; simpl; [now rewrite E|].
    reflexivity.
Qed.

Lemma normalized_fixed x :
  trim (toLowerCase (trim (toLowerCase x))) = trim (toLowerCase x).
Proof.
  rewrite (trim_lower (trim (toLowerCase x))), trim_idem, (trim_lower x).
  apply toLowerCase_idem.
Qed.

Lemma partsOf_normalized x : partsOf (trim (toLowerCase x)) = partsOf x.
Proof. unfold partsOf. now rewrite normalized_fixed. Qed.

Lemma normalizeSingleKey_normalized x :
  normalizeSingleKey (trim (toLowerCase x)) = normalizeSingleKey x.
Proof.
  now rewrite !normalizeSingleKey_unfold, partsOf_normalized, normalized_fixed.
Qed.

(** The single-key normalizer is idempotent on every string. *)
Lemma normalizeSingleKey_idem p :
  normalizeSingleKey (normalizeSingleKey p) = normalizeSingleKey p.
Proof.
  rewrite (normalizeSingleKey_unfold p).
  destruct (List.length (partsOf p) =? 1)%nat eqn:E.
  - rewrite normalizeSingleKey_normalized, normalizeSingleKey_unfold, E.
    reflexivity.
  - rewrite normalizeSingleKey_tokens by apply result_tokens.
    destruct (result_reclassify (partsOf p)) as [H1 H2].
    destruct (sort modifierCompare (filter isModifierKey (partsOf p))
              ++ mainTail (partsOf p)) as [|a [|b r]] eqn:L;
      [reflexivity | reflexivity |].
    rewrite H1, H2, sort_idem by apply modifierCompare_total.
    now rewrite L.
Qed.

Lemma normalizeSingleKey_lower p :
  toLowerCase (normalizeSingleKey p) = normalizeSingleKey p.
Proof.
  rewrite normalizeSingleKey_unfold.
  destruct (List.length (partsOf p) =? 1)%nat.
  - apply lower_trim, toLowerCase_idem.
  - rewrite toLowerCase_join, tokens_lower by apply result_tokens.
    reflexivity.
Qed.

Lemma normalizeSingleKey_trimmed p :
  trim (normalizeSingleKey p) = normalizeSingleKey p.
Proof.
  rewrite normalizeSingleKey_unfold.
  destruct (List.length (partsOf p) =? 1)%nat.
  - apply trim_idem.
  - apply trim_join, tokens_trimmed, result_tokens.
Qed.

Lemma splitOn_includes sep c s :
  includes c s = false ->
  Forall (fun x => includes c x = false) (splitOn sep s).
Proof.
  induction s as [|a r IH]; simpl; intros H.
  - constructor; [reflexivity | constructor].
  - apply orb_false_iff in H as [H1 H2]. specialize (IH H2).
    destruct (sep a).
    + constructor; [reflexivity | exact IH].
    + destruct (splitOn sep r) as [|h t].
      * constructor; [|constructor]. simpl. now rewrite H1.
      * inversion IH; subst. constructor; [|assumption].
        simpl. rewrite H1. assumption.
Qed.

Lemma partsOf_no_space p :
  includes " " p = false ->
  Forall (fun x => includes " " x = false) (partsOf p).
Proof.
  intros H. unfold partsOf. apply Forall_map.
  assert (Hm : includes " " (trim (toLowerCase p)) = false)
    by (apply includes_trim; now rewrite includes_lower_space).
  pose proof (splitOn_includes (Ascii.eqb "+") " " _ Hm) as Hs.
  revert Hs. apply Forall_impl. intros x. apply includes_trim.
Qed.

(** A sub-combo without a space normalizes to a string without a space. *)
Lemma normalizeSingleKey_no_space p :
  includes " " p = false -> includes " " (normalizeSingleKey p) = false.
Proof.
  intros H. rewrite normalizeSingleKey_unfold.
  destruct (List.length (partsOf p) =? 1)%nat.
  - apply includes_trim. now rewrite includes_lower_space.
  - apply includes_join; [reflexivity|].
    pose proof (partsOf_no_space p H) as Hp. rewrite Forall_forall in Hp.
    apply Forall_app. split; apply Forall_forall; intros x Hx.
    + apply sort_In, filter_In in Hx as [Hx _]. now apply Hp.
    + apply mainTail_spec in Hx as (_ & _ & Hx & _). now apply Hp.
Qed.

(** With no blank part, the result is not empty. *)
Lemma normalizeSingleKey_nonempty p :
  forallb truthy (partsOf p) = true -> normalizeSingleKey p <> EmptyString.
Proof.
  intros H. rewrite forallb_forall in H.
  rewrite normalizeSingleKey_unfold.
  destruct (List.length (partsOf p) =? 1)%nat eqn:E.
  - intros Hm. unfold partsOf in H. rewrite Hm in H.
    specialize (H EmptyString (or_introl eq_refl)). discriminate H.
  - pose proof (result_tokens p) as Ht.
    destruct (sort modifierCompare (filter isModifierKey (partsOf p))
              ++ mainTail (partsOf p)) as [|a r] eqn:L.
    + exfalso. apply app_eq_nil in L as [L1 L2].
      destruct (partsOf p) as [|x t] eqn:P;
        [now apply partsOf_not_nil in P|].
      destruct (filter (fun q => negb (isModifierKey q)) (x :: t)) as [|y u] eqn:F.
      * assert (Hx : In x (sort modifierCompare (filter isModifierKey (x :: t)))).
        { apply sort_In, filter_In. split; [now left|].
          simpl in F. destruct (isModifierKey x); [reflexivity | discriminate]. }
        rewrite L1 in Hx. contradiction.
      * assert (Hin : In (lastNonModifier (x :: t)) (y :: u)).
        { unfold lastNonModifier. rewrite F. apply last_In. discriminate. }
        rewrite <- F in Hin. apply filter_In in Hin as [Hin _].
        apply H in Hin. unfold mainTail in L2. rewrite Hin in L2.
        discriminate.
    + inversion Ht as [|? ? (Ha & _) _]; subst. now apply join_nonempty.
Qed.

(** *** Chords *)

Lemma includes_split2 c s :
  includes c s = true -> exists a b r, split c s = a :: b :: r.
Proof.
  unfold split. induction s as [|x t IH]; simpl; [discriminate|].
  intros H. destruct (Ascii.eqb c x) eqn:E.
  - destruct (splitOn (Ascii.eqb c) t) as [|h u] eqn:S;
      [now apply splitOn_not_nil in S|]. eauto.
  - rewrite Ascii.eqb_sym, E in H. simpl in H.
    destruct (IH H) as (a & b & r & ->). eauto.
Qed.

Lemma normalizeKey_single x :
  includes " " (trim (toLowerCase x)) = false ->
  normalizeKey x = normalizeSingleKey x.
Proof.
  intros H. unfold normalizeKey. rewrite H.
  apply normalizeSingleKey_normalized.
Qed.

Lemma normalizeKey_chord x :
  includes " " (trim (toLowerCase x)) = true ->
  normalizeKey x =
  join " " (map normalizeSingleKey (split " " (trim (toLowerCase x)))).
Proof. intros H. unfold normalizeKey. now rewrite H. Qed.

Lemma chord_pieces_no_space x :
  Forall (fun q => includes " " q = false)
         (map normalizeSingleKey (split " " x)).
Proof.
  apply Forall_map. pose proof (split_no_sep " " x) as H.
  revert H. apply Forall_impl. intros p. apply normalizeSingleKey_no_space.
Qed.

(** The sub-combos of a normalized chord are the normalized sub-combos of
    the input, in the same order. *)
Lemma normalizeKey_chord_split x :
  includes " " (trim (toLowerCase x)) = true ->
  split " " (normalizeKey x) =
  map normalizeSingleKey (split " " (trim (toLowerCase x))).
Proof.
  intros H. rewrite normalizeKey_chord by assumption.
  apply split_join; [|apply chord_pieces_no_space].
  destruct (includes_split2 _ _ H) as (a & b & r & ->). discriminate.
Qed.

Lemma normalizeKey_lower x : toLowerCase (normalizeKey x) = normalizeKey x.
Proof.
  destruct (includes " " (trim (toLowerCase x))) eqn:E.
  - rewrite normalizeKey_chord by assumption.
    rewrite toLowerCase_join, map_map. f_equal.
    apply map_ext. intros p. apply normalizeSingleKey_lower.
  - rewrite normalizeKey_single by assumption. apply normalizeSingleKey_lower.
Qed.

(** A chord keeps a space; a single combo has none. *)
Lemma normalizeKey_includes_space x :
  includes " " (normalizeKey x) = includes " " (trim (toLowerCase x)).
Proof.
  destruct (includes " " (trim (toLowerCase x))) eqn:E.
  - rewrite normalizeKey_chord by assumption.
    destruct (includes_split2 _ _ E) as (a & b & r & ->).
    apply includes_join_sep.
  - unfold normalizeKey. rewrite E. now apply normalizeSingleKey_no_space.
Qed.

(** Whenever the result is trimmed, normalizing it again changes nothing. *)
Lemma normalizeKey_idem_of_trimmed x :
  trim (normalizeKey x) = normalizeKey x ->
  normalizeKey (normalizeKey x) = normalizeKey x.
Proof.
  intros Ht.
  assert (Hn : trim (toLowerCase (normalizeKey x)) = normalizeKey x)
    by now rewrite normalizeKey_lower.
  destruct (includes " " (trim (toLowerCase x))) eqn:E.
  - rewrite (normalizeKey_chord (normalizeKey x));
      rewrite Hn; [|now rewrite normalizeKey_includes_space].
    rewrite normalizeKey_chord_split by assumption.
    rewrite map_map.
    rewrite (normalizeKey_chord x) by assumption. f_equal.
    apply map_ext. intros p. apply normalizeSingleKey_idem.
  - rewrite (normalizeKey_single (normalizeKey x));
      [|now rewrite Hn, normalizeKey_includes_space].
    rewrite normalizeKey_single by assumption.
    apply normalizeSingleKey_idem.
Qed.

(** *** The parts of a trimmed string *)

Lemma trim_commute s : trimEnd (trimStart s) = trimStart (trimEnd s).
Proof.
  induction s as [|a r IH]; simpl; [reflexivity|].
  destruct (isWhiteSpace a) eqn:W; simpl.
  - rewrite IH. destruct (trimEnd r); simpl; [reflexivity | now rewrite W].
  - now rewrite W.
Qed.

Lemma not_white_neq c a :
  isWhiteSpace c = false -> isWhiteSpace a = true -> Ascii.eqb c a = false.
Proof. intros Hc Ha. apply Ascii.eqb_neq. intros <-. congruence. Qed.

Lemma split_trimStart_parts c s :
  isWhiteSpace c = false ->
  map trimStart (split c (trimStart s)) = map trimStart (split c s).
Proof.
  intros Hc. unfold split. induction s as [|a r IH]; simpl; [reflexivity|].
  destruct (isWhiteSpace a) eqn:W; [|reflexivity].
  rewrite (not_white_neq c a Hc W), IH.
  destruct (splitOn (Ascii.eqb c) r) as [|h t] eqn:S;
    [now apply splitOn_not_nil in S|].
  simpl. now rewrite W.
Qed.

Lemma split_trimEnd_parts c s :
  isWhiteSpace c = false ->
  map trimEnd (split c (trimEnd s)) = map trimEnd (split c s).
Proof.
  intros Hc. unfold split. induction s as [|a r IH]; simpl; [reflexivity|].
  destruct (splitOn (Ascii.eqb c) r) as [|h t] eqn:S;
    [now apply splitOn_not_nil in S|].
  destruct (isWhiteSpace a && isEmpty (trimEnd r)) eqn:E.
  - apply andb_true_iff in E as [W E]. apply isEmpty_true in E.
    rewrite E in IH. simpl in IH.
    destruct t; [|discriminate IH]. injection IH as IH.
    rewrite (not_white_neq c a Hc W). simpl. now rewrite W, <- IH.
  - simpl. destruct (Ascii.eqb c a); simpl.
    + simpl in IH. now rewrite IH.
    + destruct (splitOn (Ascii.eqb c) (trimEnd r)) as [|h' t'] eqn:S';
        [now apply splitOn_not_nil in S'|].
      simpl in IH |- *. injection IH as I1 I2. now rewrite I1, I2.
Qed.

(** Trimming a string first does not change its trimmed parts. *)
Lemma split_trim_parts c s :
  isWhiteSpace c = false ->
  map trim (split c (trim s)) = map trim (split c s).
Proof.
  intros Hc.
  assert (E1 : forall l, map trim l = map trimStart (map trimEnd l)).
  { intros l. rewrite map_map. apply map_ext. intros x. apply trim_commute. }
  assert (E2 : forall l, map trim l = map trimEnd (map trimStart l)).
  { intros l. rewrite map_map. reflexivity. }
  unfold trim at 2.
  rewrite E1, split_trimEnd_parts, <- E1 by assumption.
  rewrite E2, split_trimStart_parts, <- E2 by assumption.
  reflexivity.
Qed.

Lemma partsOf_lower chord :
  toLowerCase chord = chord -> partsOf chord = map trim (split "+" chord).
Proof.
  intros H. unfold partsOf. rewrite H. now apply split_trim_parts.
Qed.

(** The format check of the validation, read on the parts that the
    normalizer computes. *)
Lemma wellFormed_parts x :
  wellFormed x = true ->
  forall chord, In chord (split " " (trim (toLowerCase x))) ->
                forallb truthy (partsOf chord) = true.
Proof.
  unfold wellFormed. rewrite forallb_forall. intros W chord Hin.
  specialize (W chord Hin). apply negb_true_iff in W.
  assert (Hl : toLowerCase chord = chord).
  { pose proof (lower_split " " (trim (toLowerCase x))
                  (lower_trim _ (toLowerCase_idem x))) as H.
    rewrite Forall_forall in H. now apply H. }
  rewrite (partsOf_lower chord Hl). apply forallb_forall.
  intros p Hp. apply in_map_iff in Hp as (k & <- & Hk).
  unfold truthy. apply negb_true_iff.
  destruct (isEmpty (trim k)) eqn:E; [|reflexivity].
  assert (Hex : existsb (fun k => isEmpty (trim k)) (split "+" chord) = true)
    by (apply existsb_exists; eauto).
  congruence.
Qed.

Lemma wellFormed_trimmed x :
  wellFormed x = true -> trim (normalizeKey x) = normalizeKey x.
Proof.
  intros W. destruct (includes " " (trim (toLowerCase x))) eqn:E.
  - rewrite normalizeKey_chord by assumption.
    apply trim_join, Forall_map, Forall_forall. intros p Hp.
    split; [now apply normalizeSingleKey_nonempty, wellFormed_parts with (x := x)|].
    apply normalizeSingleKey_trimmed.
  - rewrite normalizeKey_single by assumption.
    apply normalizeSingleKey_trimmed.
Qed.

End Normalizer.

(** ** Claims about the normalizer *)

Section NormalizerClaims.
Import JS Scanner Vocabulary.

Lemma trimStart_blank s : blank s = true -> trimStart s = EmptyString.
Proof.
  unfold blank. induction s as [|c r IH]; simpl; [reflexivity|].
  intros H. apply andb_true_iff in H as [H1 H2]. rewrite H1. auto.
Qed.

Lemma trimEnd_blank s : blank s = true -> trimEnd s = EmptyString.
Proof.
  unfold blank. induction s as [|c r IH]; simpl; [reflexivity|].
  intros H. apply andb_true_iff in H as [H1 H2]. now rewrite H1, IH.
Qed.

Lemma trimStart_pad pre y :
  blank pre = true -> trimStart (pre ++ y) = trimStart y.
Proof.
  unfold blank. induction pre as [|c r IH]; simpl; [reflexivity|].
  intros H. apply andb_true_iff in H as [H1 H2]. rewrite H1. auto.
Qed.

Lemma trimEnd_pad y post :
  blank post = true -> trimEnd (y ++ post) = trimEnd y.
Proof.
  intros H. induction y as [|c r IH]; simpl; [now apply trimEnd_blank|].
  now rewrite IH.
Qed.

Lemma trimStart_app_blank x post :
  blank post = true ->
  trimStart (x ++ post) =
  if isEmpty (trimStart x) then EmptyString else (trimStart x ++ post)%string.
Proof.
  intros H. induction x as [|c r IH]; simpl; [now apply trimStart_blank|].
  destruct (isWhiteSpace c); [exact IH | reflexivity].
Qed.

Lemma trim_pad pre x post :
  blank pre = true -> blank post = true -> trim (pre ++ x ++ post) = trim x.
Proof.
  intros H1 H2. unfold trim.
  rewrite trimStart_pad, trimStart_app_blank by assumption.
  destruct (isEmpty (trimStart x)) eqn:E.
  - apply isEmpty_true in E. now rewrite E.
  - now apply trimEnd_pad.
Qed.

(** The normalizer reads its argument only through [toLowerCase] and
    [trim]. *)
Lemma normalizeKey_ext x y :
  trim (toLowerCase x) = trim (toLowerCase y) -> normalizeKey x = normalizeKey y.
Proof. intros H. unfold normalizeKey. now rewrite H. Qed.

(** *** The normal form is a function of the trimmed parts *)

Lemma split_lower_plus s :
  split "+" (toLowerCase s) = map toLowerCase (split "+" s).
Proof.
  unfold split. induction s as [|a r IH]; [reflexivity|].
  cbn [toLowerCase splitOn].
  rewrite (Ascii.eqb_sym "+" (toLowerCaseUnit a)), eqb_lower_plus,
    (Ascii.eqb_sym a "+"), IH.
  destruct (Ascii.eqb "+" a); [reflexivity|].
  destruct (splitOn (Ascii.eqb "+") r); reflexivity.
Qed.

Lemma join_split c s : join (String c EmptyString) (split c s) = s.
Proof.
  unfold split. induction s as [|a r IH]; simpl; [reflexivity|].
  destruct (splitOn (Ascii.eqb c) r) as [|h t] eqn:S;
    [now apply splitOn_not_nil in S|].
  destruct (Ascii.eqb_spec c a) as [<-|Hne].
  - rewrite join_cons, IH. reflexivity.
  - destruct t as [|h' t']; simpl in IH |- *; now rewrite <- IH.
Qed.

Lemma partsOf_alt s :
  partsOf s = map (fun k => trim (toLowerCase k)) (split "+" s).
Proof.
  unfold partsOf.
  rewrite split_trim_parts by reflexivity.
  now rewrite split_lower_plus, map_map.
Qed.

Lemma normalizeSingleKey_of_parts s :
  normalizeSingleKey s =
  match partsOf s with
  | [p] => p
  | ps => join "+" (sort modifierCompare (filter isModifierKey ps)
                    ++ mainTail ps)
  end.
Proof.
  rewrite normalizeSingleKey_unfold.
  destruct (partsOf s) as [|p [|q r]] eqn:P; try reflexivity.
  simpl. unfold partsOf in P.
  pose proof (join_split "+" (trim (toLowerCase s))) as J.
  destruct (split "+" (trim (toLowerCase s))) as [|y [|z t]];
    try discriminate P.
  simpl in J, P. injection P as <-. rewrite J.
  symmetry. apply trim_idem.
Qed.

(** Sub-combos whose parts agree once in lower case and trimmed have the
    same normal form, as long as no space character makes them chords. *)
Lemma normalizeKey_trimmed_parts l l' :
  Forall2 (fun a b => trim (toLowerCase a) = trim (toLowerCase b)) l l' ->
  Forall (fun a => includes "+" a = false) l ->
  Forall (fun a => includes "+" a = false) l' ->
  includes " " (join "+" l) = false ->
  includes " " (join "+" l') = false ->
  normalizeKey (join "+" l) = normalizeKey (join "+" l').
Proof.
  intros H2 Hl Hl' Hs Hs'.
  destruct H2 as [|a b l l' Hab H2]; [reflexivity|].
  rewrite !normalizeKey_single
    by (apply includes_trim; now rewrite includes_lower_space).
  rewrite !normalizeSingleKey_of_parts, !partsOf_alt.
  rewrite !split_join by (discriminate || assumption).
  assert (E : map (fun k => trim (toLowerCase k)) (a :: l) =
              map (fun k => trim (toLowerCase k)) (b :: l')).
  { simpl. rewrite Hab. f_equal.
    clear -H2. induction H2 as [|x y l l' Hxy _ IH]; simpl; [reflexivity|].
    now rewrite Hxy, IH. }
  now rewrite E.
Qed.

(** C3, as the code has it: the normalizer is invariant under case and
    under white space around the whole string, so that
    [normalize("CTRL+C")], [normalize(" ctrl+c ")] and ["ctrl+c"] are equal.
    [normalizeSingleKey] trims each part split on ["+"], and white space
    other than the space character around ["+"] does not change the
    result; a space character separates the sub-combos of a chord and is
    split first, so [normalize(" ctrl + c ")] is ["ctrl  c"]. *)
Theorem normalize_case_and_outer_whitespace :
  forall x : string,
    (forall y, toLowerCase y = toLowerCase x ->
               normalizeKey y = normalizeKey x) /\
    (forall pre post, blank pre = true -> blank post = true ->
                      normalizeKey (pre ++ x ++ post) = normalizeKey x) /\
    (forall l l',
        Forall2 (fun a b => trim (toLowerCase a) = trim (toLowerCase b)) l l' ->
        Forall (fun a => includes "+" a = false) l ->
        Forall (fun a => includes "+" a = false) l' ->
        includes " " (join "+" l) = false ->
        includes " " (join "+" l') = false ->
        normalizeKey (join "+" l) = normalizeKey (join "+" l')) /\
    normalizeKey "CTRL+C" = "ctrl+c" /\
    normalizeKey " ctrl+c " = "ctrl+c" /\
    normalizeSingleKey " ctrl + c " = "ctrl+c" /\
    normalizeKey ("ctrl" ++ String "009" ("+" ++ String "009" "c")) = "ctrl+c" /\
    normalizeKey " ctrl + c " = "ctrl  c".
Proof.
  intros x. split; [|split; [|split]].
  - intros y H. apply normalizeKey_ext. now rewrite H.
  - intros pre post H1 H2. apply normalizeKey_ext.
    now rewrite !trim_lower, trim_pad.
  - apply normalizeKey_trimmed_parts.
  - repeat split; vm_compute; reflexivity.
Qed.

Lemma normalize_case_and_outer_whitespace_witness :
  normalizeKey "Ctrl+Shift+P" = normalizeKey "ctrl+shift+p" /\
  normalizeKey ("  " ++ "ctrl+shift+p" ++ " ") = normalizeKey "ctrl+shift+p" /\
  normalizeKey (join "+" ["Ctrl"; String "009" "Shift"; String "009" "p"]) =
  normalizeKey (join "+" ["ctrl"; "shift"; "P"]).
Proof.
  destruct (normalize_case_and_outer_whitespace "ctrl+shift+p")
    as (H1 & H2 & H3 & _).
  split; [|split].
  - apply H1. reflexivity.
  - apply H2; reflexivity.
  - apply H3.
    + repeat constructor.
    + repeat constructor.
    + repeat constructor.
    + reflexivity.
    + reflexivity.
Defined.

(** C3 as the specification states it fails: spaces around ["+"] change
    the canonical form. *)
Lemma normalize_spaces_around_plus_differ :
  ~ (normalizeKey "CTRL+C" = normalizeKey " ctrl + c " /\
     normalizeKey " ctrl + c " = "ctrl+c").
Proof. intros [H _]. vm_compute in H. discriminate H. Qed.

(** *** Modifier order *)

Lemma Permutation_filter {X} (f : X -> bool) l l' :
  Permutation l l' -> Permutation (filter f l) (filter f l').
Proof.
  induction 1 as [|x l l' Hp IH|x y l|l l' l'' H1 IH1 H2 IH2]; simpl.
  - constructor.
  - destruct (f x); [now constructor | assumption].
  - destruct (f x), (f y); try reflexivity. apply perm_swap.
  - now transitivity (filter f l').
Qed.

Lemma StronglySorted_impl {X} (R R' : X -> X -> Prop) l :
  (forall a b, R a b -> R' a b) -> StronglySorted R l -> StronglySorted R' l.
Proof.
  intros H. induction 1 as [|a l Hs IH Hf]; constructor; [assumption|].
  revert Hf. apply Forall_impl. intros b. apply H.
Qed.

Local Ltac each_modifier H :=
  simpl in H;
  repeat (destruct H as [H|H]; [subst|]); try contradiction.

Lemma precedence_modifier m :
  In m modifierOrder -> isModifierKey m = true /\ atom m.
Proof.
  intros H. each_modifier H;
    (split; [reflexivity | repeat split; (discriminate || reflexivity)]).
Qed.

(** On the six names of the precedence list the comparator identifies no
    two distinct names. *)
Lemma modifierCompare_antisym a b :
  In a modifierOrder -> In b modifierOrder ->
  leBy modifierCompare a b -> leBy modifierCompare b a -> a = b.
Proof.
  intros Ha Hb. each_modifier Ha; each_modifier Hb;
    unfold leBy, modifierCompare; cbn; intros H1 H2;
    (reflexivity || lia).
Qed.

Lemma atom_token x : atom x -> token x.
Proof. now intros [H _]. Qed.

Lemma classify_permutation ms k parts :
  Forall (fun m => In m modifierOrder) ms -> mainKeyToken k ->
  Permutation parts (k :: ms) ->
  sort modifierCompare (filter isModifierKey parts) = sort modifierCompare ms /\
  mainTail parts = [k].
Proof.
  intros Hms [Hk Hnk] Hp. rewrite Forall_forall in Hms. split.
  - assert (Hf : Permutation (filter isModifierKey parts) ms).
    { rewrite (Permutation_filter isModifierKey _ _ Hp). simpl. rewrite Hnk.
      rewrite filter_all; [reflexivity|].
      apply Forall_forall. intros m Hm. now apply precedence_modifier, Hms. }
    apply sort_perm_invariant; auto using modifierCompare_total.
    + intros a b c. apply modifierCompare_trans.
    + intros a b Ha Hb. apply modifierCompare_antisym; apply Hms.
      * eapply Permutation_in; [exact Hf | exact Ha].
      * eapply Permutation_in; [exact Hf | exact Hb].
  - assert (Hf : filter (fun p => negb (isModifierKey p)) parts = [k]).
    { apply Permutation_length_1_inv. symmetry.
      rewrite (Permutation_filter _ _ _ Hp). simpl. rewrite Hnk. simpl.
      rewrite filter_none; [reflexivity|].
      apply Forall_forall. intros m Hm.
      destruct (precedence_modifier m (Hms m Hm)) as [-> _]. reflexivity. }
    unfold mainTail, lastNonModifier. rewrite Hf. simpl.
    destruct Hk as [(Hne & _) _].
    apply truthy_true in Hne. now rewrite Hne.
Qed.

Lemma normalizeKey_parts ms k parts :
  Forall (fun m => In m modifierOrder) ms -> mainKeyToken k ->
  Permutation parts (k :: ms) ->
  normalizeKey (join "+" parts) = join "+" (sort modifierCompare ms ++ [k]).
Proof.
  intros Hms Hk Hp.
  assert (Ha : Forall atom parts).
  { apply Forall_forall. intros x Hx.
    apply (Permutation_in _ Hp) in Hx as [<-|Hx]; [now destruct Hk|].
    rewrite Forall_forall in Hms. now apply precedence_modifier, Hms. }
  assert (Ht : Forall token parts)
    by (revert Ha; apply Forall_impl, atom_token).
  rewrite normalizeKey_single.
  2:{ rewrite tokens_normalized by assumption.
      apply includes_join; [reflexivity|].
      revert Ha. apply Forall_impl. now intros x [_ H]. }
  rewrite normalizeSingleKey_tokens by assumption.
  destruct (classify_permutation ms k parts Hms Hk Hp) as [H1 H2].
  destruct parts as [|a [|b r]].
  - apply Permutation_nil in Hp. discriminate.
  - apply Permutation_length_1_inv in Hp. injection Hp as E1 E2.
    subst. reflexivity.
  - now rewrite H1, H2.
Qed.

(** C6, as the code has it: within one sub-combo, any arrangement of the
    same modifiers taken from the precedence list
    [ctrl, cmd, alt, shift, meta, win] around the same main key normalizes
    to the same string, the modifiers in precedence order followed by the
    main key; [normalize("shift+ctrl+v")] and [normalize("ctrl+shift+v")]
    are both ["ctrl+shift+v"]. *)
Theorem normalize_modifier_order :
  forall (ms : list string) (k : string) (parts parts' : list string),
    Forall (fun m => In m modifierOrder) ms ->
    mainKeyToken k ->
    Permutation parts (k :: ms) ->
    Permutation parts' (k :: ms) ->
    normalizeKey (join "+" parts) = normalizeKey (join "+" parts') /\
    normalizeKey (join "+" parts) = join "+" (sort modifierCompare ms ++ [k]) /\
    Permutation (sort modifierCompare ms) ms /\
    StronglySorted
      (fun a b => (indexOf modifierOrder a <= indexOf modifierOrder b)%Z)
      (sort modifierCompare ms) /\
    normalizeKey "shift+ctrl+v" = "ctrl+shift+v" /\
    normalizeKey "ctrl+shift+v" = "ctrl+shift+v".
Proof.
  intros ms k parts parts' Hms Hk Hp Hp'. repeat split.
  - now rewrite !(normalizeKey_parts ms k).
  - now apply normalizeKey_parts.
  - apply sort_perm.
  - apply StronglySorted_impl with (R := leBy modifierCompare).
    + unfold leBy, modifierCompare. intros a b. lia.
    + apply sort_strongly_sorted.
      * apply modifierCompare_total.
      * apply modifierCompare_trans.
Qed.

Lemma normalize_modifier_order_witness :
  normalizeKey "shift+ctrl+v" = normalizeKey "v+ctrl+shift" /\
  normalizeKey "shift+ctrl+v" = "ctrl+shift+v".
Proof.
  assert (Hms : Forall (fun m => In m modifierOrder) ["shift"; "ctrl"])
    by (repeat constructor; simpl; auto 10).
  assert (Hk : mainKeyToken "v")
    by (repeat split; (discriminate || reflexivity)).
  assert (Hp : Permutation ["shift"; "ctrl"; "v"] ("v" :: ["shift"; "ctrl"]))
    by (symmetry; apply (Permutation_cons_append ["shift"; "ctrl"] "v")).
  assert (Hp' : Permutation ["v"; "ctrl"; "shift"] ("v" :: ["shift"; "ctrl"]))
    by (apply perm_skip, perm_swap).
  destruct (normalize_modifier_order _ _ _ _ Hms Hk Hp Hp') as (H1 & H2 & _).
  split; [exact H1 | exact H2].
Defined.

(** C6 as the specification states it fails on the synonyms: they are
    modifiers, yet two of them stay in their input order, and none is
    moved to the slot of the name it stands for. *)
Lemma synonyms_keep_input_order :
  isModifierKey "control" = true /\ isModifierKey "command" = true /\
  normalizeKey "control+command+v" <> normalizeKey "command+control+v" /\
  normalizeKey "ctrl+command+v" = "command+ctrl+v".
Proof.
  repeat split; try reflexivity.
  intros H. vm_compute in H. discriminate H.
Qed.

(** *** Chords *)

Lemma normalizeSingleKey_lower_arg a :
  normalizeSingleKey (toLowerCase a) = normalizeSingleKey a.
Proof.
  rewrite !normalizeSingleKey_unfold. unfold partsOf.
  now rewrite toLowerCase_idem.
Qed.

Lemma normalizeKey_pair a b :
  subCombo a -> subCombo b ->
  normalizeKey (a ++ " " ++ b) =
  join " " [normalizeSingleKey a; normalizeSingleKey b].
Proof.
  intros (Ha1 & Ha2 & Ha3) (Hb1 & Hb2 & Hb3).
  change (a ++ " " ++ b)%string with (join " " [a; b]).
  assert (Hn : trim (toLowerCase (join " " [a; b])) =
               join " " [toLowerCase a; toLowerCase b]).
  { rewrite trim_lower, trim_join by (repeat constructor; assumption).
    apply toLowerCase_join. }
  rewrite normalizeKey_chord; rewrite Hn; [|apply includes_join_sep].
  rewrite split_join.
  - simpl map. now rewrite !normalizeSingleKey_lower_arg.
  - discriminate.
  - repeat constructor; now rewrite includes_lower_space.
Qed.

(** C7: chord order is never canonicalized away.  The two examples of the
    specification hold; a chord never normalizes to the same string as a
    single combo; the sub-combos of a normalized chord are the normalized
    sub-combos of the input in their order; and exchanging two sub-combos
    with different normal forms changes the result. *)
Theorem chord_order_is_kept :
  normalizeKey "ctrl+k ctrl+s" <> normalizeKey "ctrl+s ctrl+k" /\
  normalizeKey "ctrl+k ctrl+n" <> normalizeKey "ctrl+n" /\
  (forall x y,
      includes " " (trim (toLowerCase x)) = true ->
      includes " " (trim (toLowerCase y)) = false ->
      normalizeKey x <> normalizeKey y) /\
  (forall x,
      includes " " (trim (toLowerCase x)) = true ->
      split " " (normalizeKey x) =
      map normalizeSingleKey (split " " (trim (toLowerCase x)))) /\
  (forall a b,
      subCombo a -> subCombo b ->
      normalizeSingleKey a <> normalizeSingleKey b ->
      normalizeKey (a ++ " " ++ b) <> normalizeKey (b ++ " " ++ a)).
Proof.
  split; [|split; [|split; [|split]]].
  - intros H. vm_compute in H. discriminate H.
  - intros H. vm_compute in H. discriminate H.
  - intros x y Hx Hy H.
    pose proof (normalizeKey_includes_space x) as Ex.
    pose proof (normalizeKey_includes_space y) as Ey.
    rewrite H, Ey, Hx, Hy in Ex. discriminate Ex.
  - apply normalizeKey_chord_split.
  - intros a b Ha Hb Hne H.
    rewrite !normalizeKey_pair in H by assumption.
    apply (f_equal (split " ")) in H.
    destruct Ha as (_ & _ & Ha), Hb as (_ & _ & Hb).
    rewrite !split_join in H;
      try discriminate;
      try (repeat constructor; now apply normalizeSingleKey_no_space).
    injection H as H _. contradiction.
Qed.

Lemma chord_order_is_kept_witness :
  normalizeKey "Ctrl+K Ctrl+S" <> normalizeKey "ctrl+s" /\
  split " " (normalizeKey "Shift+Ctrl+K S") =
    map normalizeSingleKey (split " " "shift+ctrl+k s") /\
  normalizeKey ("ctrl+k" ++ " " ++ "ctrl+s") <>
    normalizeKey ("ctrl+s" ++ " " ++ "ctrl+k").
Proof.
  destruct chord_order_is_kept as (_ & _ & H1 & H2 & H3).
  split; [|split].
  - apply H1; reflexivity.
  - apply (H2 "Shift+Ctrl+K S"). reflexivity.
  - apply H3.
    + repeat split; (discriminate || reflexivity).
    + repeat split; (discriminate || reflexivity).
    + intros H. vm_compute in H. discriminate H.
Defined.

(** *** Idempotence *)

(** C8: on every well-formed key combination the normalizer is
    idempotent. *)
Theorem normalize_idempotent :
  forall x : string,
    wellFormed x = true ->
    normalizeKey (normalizeKey x) = normalizeKey x.
Proof.
  intros x W. apply normalizeKey_idem_of_trimmed, wellFormed_trimmed, W.
Qed.

Lemma normalize_idempotent_witness :
  wellFormed " Shift+Ctrl+K alt+S " = true /\
  normalizeKey (normalizeKey " Shift+Ctrl+K alt+S ") =
  normalizeKey " Shift+Ctrl+K alt+S ".
Proof.
  split; [reflexivity|].
  apply (normalize_idempotent " Shift+Ctrl+K alt+S "). reflexivity.
Defined.

(** Outside the well-formed combinations idempotence can fail: a first
    sub-combo made of ["+"] alone normalizes to the empty string, and the
    space left in front is trimmed by the second pass. *)
Lemma normalize_not_idempotent_on_blank_part :
  wellFormed "+ a" = false /\
  normalizeKey "+ a" = " a" /\ normalizeKey (normalizeKey "+ a") = "a".
Proof. repeat split. Qed.

End NormalizerClaims.

(** ** Grouping and filtering *)

Section Grouping.
Import JS Scanner Vocabulary.

Lemma mapPush_keys k b m x :
  In x (map fst (mapPush k b m)) -> x = k \/ In x (map fst m).
Proof.
  induction m as [|[k' l] r IH]; simpl.
  - intros [<-|[]]. now left.
  - destruct (String.eqb k' k); simpl; intros [<-|H]; auto.
    destruct (IH H); auto.
Qed.

Lemma mapPush_NoDup k b m :
  NoDup (map fst m) -> NoDup (map fst (mapPush k b m)).
Proof.
  induction m as [|[k' l] r IH]; simpl; intros H.
  - repeat constructor. intros [].
  - inversion H as [|? ? Hn Hr]; subst.
    destruct (String.eqb_spec k' k); simpl; constructor; auto.
    intros Hin. apply mapPush_keys in Hin as [->|Hin]; contradiction.
Qed.

Lemma lookup_mapPush k b m k' :
  lookup k' (mapPush k b m) =
  if String.eqb k k' then extend (lookup k m) [b] else lookup k' m.
Proof.
  induction m as [|[k0 l] r IH]; simpl.
  - destruct (String.eqb k k'); reflexivity.
  - destruct (String.eqb_spec k0 k) as [->|Hne]; simpl.
    + destruct (String.eqb k k'); reflexivity.
    + rewrite IH. destruct (String.eqb_spec k k') as [->|Hne'].
      * apply String.eqb_neq in Hne. now rewrite Hne.
      * reflexivity.
Qed.

Lemma In_lookup k l m :
  NoDup (map fst m) -> (In (k, l) m <-> lookup k m = Some l).
Proof.
  induction m as [|[k' l'] r IH]; simpl; intros H.
  - split; [intros [] | discriminate].
  - inversion H as [|? ? Hn Hr]; subst.
    destruct (String.eqb_spec k' k) as [->|Hne].
    + split.
      * intros [E|Hin]; [now injection E as -> |].
        exfalso. apply Hn. now apply (in_map fst) in Hin.
      * intros E. injection E as ->. now left.
    + rewrite <- (IH Hr). split; [intros [E|Hin]|]; auto.
      injection E as -> ->. congruence.
Qed.

Lemma extend_app o a b : extend (extend o a) b = extend o (a ++ b).
Proof.
  destruct o as [x|]; simpl; [now rewrite app_assoc|].
  destruct a; simpl; [reflexivity|]. destruct b; reflexivity.
Qed.

Lemma extend_nil o : extend o [] = o.
Proof. destruct o; simpl; [now rewrite app_nil_r | reflexivity]. Qed.

(** The map after the loop: under every key, the pushed bindings that
    carry it, in order. *)
Lemma group_fold l m :
  NoDup (map fst m) ->
  let m' := fold_left (fun m b => mapPush (key b) b m) l m in
  NoDup (map fst m') /\
  forall k, lookup k m' = extend (lookup k m) (withKey k l).
Proof.
  revert m. induction l as [|b r IH]; intros m H; simpl.
  - split; [assumption|]. intros k. now rewrite extend_nil.
  - destruct (IH (mapPush (key b) b m) (mapPush_NoDup _ _ _ H)) as [H1 H2].
    split; [exact H1|]. intros k. rewrite H2, lookup_mapPush.
    destruct (String.eqb (key b) k) eqn:E.
    + apply String.eqb_eq in E. subst k. now rewrite extend_app.
    + reflexivity.
Qed.

Lemma groupByKey_live bs disabled :
  groupByKey bs disabled =
  fold_left (fun m b => mapPush (key b) b m) (live bs disabled) [].
Proof.
  unfold groupByKey, live. generalize (@nil (string * list KeybindingInfo)).
  induction bs as [|b r IH]; intros m; simpl; [reflexivity|].
  destruct (set_mem string_dec (command b) disabled); simpl; apply IH.
Qed.

Lemma withKey_live k bs disabled :
  withKey k (live bs disabled) = liveWithKey k bs disabled.
Proof.
  unfold withKey, live, liveWithKey.
  induction bs as [|b r IH]; simpl; [reflexivity|].
  destruct (set_mem string_dec (command b) disabled); simpl; [exact IH|].
  destruct (String.eqb (key b) k); now rewrite IH.
Qed.

(** The entries of the grouping map. *)
Lemma groupByKey_spec bs disabled k l :
  In (k, l) (groupByKey bs disabled) <->
  l = liveWithKey k bs disabled /\ l <> [].
Proof.
  rewrite groupByKey_live.
  destruct (group_fold (live bs disabled) [] (NoDup_nil _)) as [H1 H2].
  rewrite (In_lookup _ _ _ H1), H2, withKey_live. simpl.
  destruct (liveWithKey k bs disabled) eqn:E; simpl.
  - split; [discriminate | intros [-> H]; congruence].
  - split; [intros H; injection H as <-; split; [reflexivity | discriminate]|].
    now intros [-> _].
Qed.

Lemma conflictsOf_spec m g :
  In g (conflictsOf m) <->
  In (group_key g, bindings g) m /\ qualifies (bindings g) = true.
Proof.
  unfold conflictsOf. rewrite in_flat_map. split.
  - intros ([k l] & Hin & Hg). simpl in Hg.
    destruct (qualifies l) eqn:Q; [|contradiction].
    destruct Hg as [<-|[]]. simpl. auto.
  - intros [Hin Q]. exists (group_key g, bindings g). split; [assumption|].
    simpl. rewrite Q. left. now destruct g.
Qed.

Lemma qualifies_not_nil l : qualifies l = true -> l <> [].
Proof. intros H ->. discriminate H. Qed.

(** The groups that [findConflicts] returns, whatever the collation. *)
Lemma findConflicts_spec cmp bs disabled g :
  In g (findConflicts cmp bs disabled) <->
  bindings g = liveWithKey (group_key g) bs disabled /\
  qualifies (bindings g) = true.
Proof.
  unfold findConflicts. rewrite sort_In, conflictsOf_spec, groupByKey_spec.
  split; [tauto|]. intros [H Q]. auto using qualifies_not_nil.
Qed.

(** *** The set of extension identifiers *)

Lemma extensionIds_acc l s x :
  set_In x (fold_left (fun s b => set_add string_dec (extensionId b) s) l s)
  <-> set_In x s \/ In x (map extensionId l).
Proof.
  revert s. induction l as [|b r IH]; intros s; simpl; [tauto|].
  rewrite IH, set_add_iff. intuition.
Qed.

Lemma extensionIds_In l x :
  set_In x (extensionIds l) <-> In x (map extensionId l).
Proof. unfold extensionIds. rewrite extensionIds_acc. simpl. tauto. Qed.

Lemma extensionIds_NoDup l : NoDup (extensionIds l).
Proof.
  unfold extensionIds.
  assert (H : NoDup (empty_set string)) by constructor.
  revert H. generalize (empty_set string).
  induction l as [|b r IH]; intros s H; simpl; [assumption|].
  apply IH. now apply set_add_nodup.
Qed.

(** More than one identifier in the set: two members from different
    extensions. *)
Lemma extensionIds_two l :
  (1 < List.length (extensionIds l))%nat <->
  exists b1 b2, In b1 l /\ In b2 l /\ extensionId b1 <> extensionId b2.
Proof.
  pose proof (extensionIds_NoDup l) as Hn.
  pose proof (extensionIds_In l) as Hi.
  split.
  - destruct (extensionIds l) as [|x [|y r]]; simpl; try lia. intros _.
    assert (Hx : In x (map extensionId l)) by (apply Hi; now left).
    assert (Hy : In y (map extensionId l)) by (apply Hi; right; now left).
    apply in_map_iff in Hx as (b1 & E1 & H1).
    apply in_map_iff in Hy as (b2 & E2 & H2).
    exists b1, b2. repeat split; try assumption.
    rewrite E1, E2. intros ->. inversion Hn as [|? ? Hx _]. apply Hx. now left.
  - intros (b1 & b2 & H1 & H2 & Hne).
    assert (I1 : In (extensionId b1) (extensionIds l))
      by (apply Hi; now apply in_map).
    assert (I2 : In (extensionId b2) (extensionIds l))
      by (apply Hi; now apply in_map).
    destruct (extensionIds l) as [|x [|y r]]; simpl in *; try lia.
    destruct I1 as [E1|[]], I2 as [E2|[]]. congruence.
Qed.

Lemma qualifies_spec l :
  qualifies l = true <->
  (2 <= List.length l)%nat /\
  exists b1 b2, In b1 l /\ In b2 l /\ extensionId b1 <> extensionId b2.
Proof.
  unfold qualifies. rewrite andb_true_iff, !Nat.ltb_lt, extensionIds_two.
  reflexivity.
Qed.

End Grouping.

(** ** The user's disabled commands *)

Section Disabled.
Import JS Scanner Vocabulary.

(** [!kb.key || kb.key === ''] holds of an absent key, of the empty string
    and of a falsy value that is not a string, and of nothing else. *)
Lemma falsy_shape k :
  falsy k = true <->
  match k with
  | FAbsent => True
  | FString s => s = EmptyString
  | FOther isTruthy => isTruthy = false
  end.
Proof.
  destruct k as [|s|t]; simpl.
  - tauto.
  - destruct s; simpl; split; intros H; try reflexivity; discriminate H.
  - destruct t; simpl; split; intros H; try reflexivity; discriminate H.
Qed.

Lemma disabledLoop_mono kbs acc c :
  set_In c acc -> set_In c (disabledLoop kbs acc).
Proof.
  revert acc. induction kbs as [|e r IH]; intros acc H; simpl; [assumption|].
  destruct e as [| |cmd k w]; auto.
  destruct cmd as [|s|[]]; auto.
  destruct (truthy s && startsWith "-" s);
    [apply IH; now apply set_add_intro1|].
  destruct (truthy s && falsy k); [apply IH; now apply set_add_intro1 | auto].
Qed.

(** Every disabling entry read before an exception puts its command in
    the set. *)
Lemma disabledLoop_complete pre rest acc e c :
  forallb readable pre = true -> In e pre -> disables e c ->
  set_In c (disabledLoop (pre ++ rest) acc).
Proof.
  revert acc. induction pre as [|e' r IH]; intros acc Hr Hin Hd; [destruct Hin|].
  simpl in Hr. apply andb_true_iff in Hr as [Hr1 Hr2].
  destruct Hin as [->|Hin].
  - destruct e as [| |cmd k w]; try contradiction.
    destruct cmd as [|s|t]; try contradiction. simpl in Hd |- *.
    destruct Hd as [->|(-> & Hne & Hs & Hk)].
    + simpl. apply disabledLoop_mono, set_add_intro2. reflexivity.
    + apply falsy_shape in Hk. rewrite Hs, andb_false_r, Hk, andb_true_r.
      apply truthy_true in Hne. rewrite Hne.
      apply disabledLoop_mono, set_add_intro2. reflexivity.
  - simpl. destruct e' as [| |cmd k w]; try discriminate; auto.
    destruct cmd as [|s|[]]; try discriminate; auto.
    destruct (truthy s && startsWith "-" s); auto.
    destruct (truthy s && falsy k); auto.
Qed.

(** Every command of the set comes from a disabling entry. *)
Lemma disabledLoop_sound kbs acc c :
  set_In c (disabledLoop kbs acc) ->
  set_In c acc \/ exists e, In e kbs /\ disables e c.
Proof.
  revert acc. induction kbs as [|e r IH]; intros acc; simpl; [auto|].
  assert (Hrest : forall acc', set_In c (disabledLoop r acc') ->
                  (set_In c acc' -> set_In c acc \/
                                    exists e0, (e = e0 \/ In e0 r) /\ disables e0 c) ->
                  set_In c acc \/ exists e0, (e = e0 \/ In e0 r) /\ disables e0 c).
  { intros acc' H Hacc. destruct (IH _ H) as [H'|(e0 & H1 & H2)]; eauto. }
  destruct e as [| |cmd k w]; auto.
  - intros H. apply (Hrest acc H). auto.
  - destruct cmd as [|s|[]]; auto;
      try (intros H; apply (Hrest acc H); auto; fail).
    destruct (truthy s && startsWith "-" s) eqn:E1.
    + intros H. apply (Hrest _ H). intros Hs.
      apply set_add_elim in Hs as [->|Hs]; [|auto].
      right. eexists. split; [left; reflexivity|]. simpl. left.
      apply andb_true_iff in E1 as [_ E1].
      destruct s as [|a s']; [discriminate|]. simpl in E1 |- *.
      apply Ascii.eqb_eq in E1. now subst.
    + destruct (truthy s && falsy k) eqn:E2.
      * intros H. apply (Hrest _ H). intros Hs.
        apply set_add_elim in Hs as [->|Hs]; [|auto].
        right. eexists. split; [left; reflexivity|]. simpl. right.
        apply andb_true_iff in E2 as [T E2]. rewrite T in E1. simpl in E1.
        apply truthy_true in T. apply falsy_shape in E2.
        repeat split; assumption.
      * intros H. apply (Hrest acc H). auto.
Qed.

Lemma live_empty bs : live bs (empty_set string) = bs.
Proof. unfold live. apply filter_all, Forall_forall. reflexivity. Qed.

Lemma live_idem bs disabled :
  groupByKey (live bs disabled) (empty_set string) = groupByKey bs disabled.
Proof. now rewrite !groupByKey_live, live_empty. Qed.

Lemma liveWithKey_not_disabled k bs disabled b :
  In b (liveWithKey k bs disabled) ->
  In b bs /\ ~ set_In (command b) disabled /\ key b = k.
Proof.
  unfold liveWithKey. rewrite filter_In, andb_true_iff, negb_true_iff.
  intros (H1 & H2 & H3). repeat split; [assumption| |now apply String.eqb_eq].
  intros Hin. apply (set_mem_correct2 string_dec) in Hin. congruence.
Qed.

End Disabled.

(** ** Claims about a scan *)

Section ScanClaims.
Import JS Scanner Vocabulary.

(** C1: every group that a scan returns has at least two members, from at
    least two different extensions, and holds exactly the live bindings of
    its key in collection order; a key whose live bindings all come from
    one extension gives no group, and a key whose live bindings qualify
    gives one. *)
Theorem conflict_groups_span_extensions :
  forall (localeCompare : string -> string -> Z) (h : Host) (st : State),
    let bs := collectAllKeybindings (platform h) (extensions_all h) in
    let disabled := getUserDisabledCommands (keybindingsFile h) in
    let result := snd (scanConflicts localeCompare h st) in
    (forall g, In g result ->
       (2 <= List.length (bindings g))%nat /\
       (2 <= List.length (extensionIds (bindings g)))%nat /\
       (exists b1 b2, In b1 (bindings g) /\ In b2 (bindings g) /\
                      extensionId b1 <> extensionId b2) /\
       bindings g = liveWithKey (group_key g) bs disabled) /\
    (forall k e,
       (forall b, In b (liveWithKey k bs disabled) -> extensionId b = e) ->
       forall g, In g result -> group_key g <> k) /\
    (forall k,
       qualifies (liveWithKey k bs disabled) = true ->
       In {| group_key := k; bindings := liveWithKey k bs disabled |} result).
Proof.
  intros cmp h st bs disabled result. subst result. simpl. fold bs disabled.
  split; [|split].
  - intros g Hg. apply findConflicts_spec in Hg as [Hb Q].
    pose proof Q as Q'. apply qualifies_spec in Q' as [H1 H2].
    unfold qualifies in Q. apply andb_true_iff in Q as [_ Q].
    apply Nat.ltb_lt in Q. auto.
  - intros k e Hsame g Hg <-.
    apply findConflicts_spec in Hg as [Hb Q].
    apply qualifies_spec in Q as (_ & b1 & b2 & H1 & H2 & Hne).
    rewrite Hb in H1, H2. apply Hne.
    now rewrite (Hsame b1 H1), (Hsame b2 H2).
  - intros k Q. apply findConflicts_spec. simpl. auto.
Qed.

Lemma conflict_groups_span_extensions_witness :
  ((2 <= List.length (bindings Scenarios.mixedGroup))%nat /\
   (2 <= List.length (extensionIds (bindings Scenarios.mixedGroup)))%nat) /\
  group_key Scenarios.mixedGroup <> "ctrl+enter" /\
  In Scenarios.mixedGroup
     (snd (scanConflicts Collation.rootCompare Scenarios.mixed initial)).
Proof.
  destruct (conflict_groups_span_extensions
              Collation.rootCompare Scenarios.mixed initial) as (H1 & H2 & H3).
  assert (Hin : In Scenarios.mixedGroup
                  (snd (scanConflicts Collation.rootCompare
                          Scenarios.mixed initial)))
    by (apply (H3 "ctrl+k ctrl+s"); reflexivity).
  split; [|split].
  - destruct (H1 _ Hin) as (A & B & _). split; [exact A | exact B].
  - apply (H2 "ctrl+enter" "z"); [|exact Hin].
    intros b Hb. vm_compute in Hb.
    destruct Hb as [<-|[<-|[]]]; reflexivity.
  - exact Hin.
Defined.

(** C2: no binding of a command of the user-disabled set is in a reported
    group.  The set holds the command of every entry that disables it, as
    long as the entry is read before an exception ends the loop: an entry
    whose command is the command behind ["-"], whatever its key, and an
    entry with the command itself and a key that is the empty string or is
    missing; and it holds nothing else.  The bindings are dropped before
    grouping: the scan is the scan of the live bindings, and a key left
    with one live binding gives no group. *)
Theorem disabled_commands_are_excluded :
  forall (localeCompare : string -> string -> Z) (h : Host) (st : State),
    let bs := collectAllKeybindings (platform h) (extensions_all h) in
    let disabled := getUserDisabledCommands (keybindingsFile h) in
    let result := snd (scanConflicts localeCompare h st) in
    (forall c g b,
       set_In c disabled -> In g result -> In b (bindings g) ->
       command b <> c) /\
    (forall pre rest e c,
       keybindingsFile h = FileText (Some (pre ++ rest)) ->
       forallb readable pre = true -> In e pre -> disables e c ->
       set_In c disabled) /\
    (forall kbs c k w,
       keybindingsFile h = FileText (Some kbs) ->
       forallb readable kbs = true ->
       (In (EObject (FString (String "-" c)) k w) kbs ->
        set_In c disabled) /\
       (c <> EmptyString -> startsWith "-" c = false ->
        In (EObject (FString c) (FString EmptyString) w) kbs \/
        In (EObject (FString c) FAbsent w) kbs ->
        set_In c disabled)) /\
    (forall c,
       set_In c disabled ->
       exists kbs e,
         keybindingsFile h = FileText (Some kbs) /\ In e kbs /\ disables e c) /\
    result = findConflicts localeCompare (live bs disabled) (empty_set string) /\
    (forall k,
       (List.length (liveWithKey k bs disabled) <= 1)%nat ->
       forall g, In g result -> group_key g <> k).
Proof.
  intros cmp h st bs disabled result. subst result. simpl. fold bs disabled.
  split; [|split; [|split; [|split; [|split]]]].
  - intros c g b Hc Hg Hb <-.
    apply findConflicts_spec in Hg as [Hg _]. rewrite Hg in Hb.
    apply liveWithKey_not_disabled in Hb as (_ & Hn & _). contradiction.
  - intros pre rest e c Hf Hr Hin Hd. subst disabled. rewrite Hf. simpl.
    now apply disabledLoop_complete with (e := e).
  - intros kbs c k w Hf Hr. subst disabled. rewrite Hf. simpl.
    split.
    + intros Hin. rewrite <- (app_nil_r kbs).
      apply disabledLoop_complete
        with (e := EObject (FString (String "-" c)) k w); try assumption.
      left. reflexivity.
    + intros Hne Hs [Hin|Hin]; rewrite <- (app_nil_r kbs).
      * apply disabledLoop_complete
          with (e := EObject (FString c) (FString EmptyString) w);
          try assumption.
        right. repeat split; assumption.
      * apply disabledLoop_complete
          with (e := EObject (FString c) FAbsent w); try assumption.
        right. repeat split; assumption.
  - intros c Hc. subst disabled. unfold getUserDisabledCommands in Hc.
    destruct (keybindingsFile h) as [|[kbs|]|]; try contradiction.
    apply disabledLoop_sound in Hc as [[]|(e & H1 & H2)]. eauto.
  - unfold findConflicts. now rewrite live_idem.
  - intros k Hk g Hg <-. apply findConflicts_spec in Hg as [Hg Q].
    apply qualifies_spec in Q as [Q _]. rewrite Hg in Q. lia.
Qed.

Lemma disabled_commands_are_excluded_witness :
  (set_In "x.save"
     (getUserDisabledCommands (keybindingsFile Scenarios.overridden)) /\
   set_In "w.store"
     (getUserDisabledCommands (keybindingsFile Scenarios.overridden)) /\
   set_In "y.quit"
     (getUserDisabledCommands (keybindingsFile Scenarios.overridden))) /\
  (command (Scenarios.binding "ctrl+k ctrl+s" "y.save2" "y") <> "w.store" /\
   command (Scenarios.binding "ctrl+k ctrl+s" "v.keep" "v") <> "x.save") /\
  group_key Scenarios.overriddenGroup <> "alt+q" /\
  (exists kbs e,
     keybindingsFile Scenarios.overridden = FileText (Some kbs) /\
     In e kbs /\ disables e "y.quit").
Proof.
  destruct (disabled_commands_are_excluded
              Collation.rootCompare Scenarios.overridden initial)
    as (H1 & H2 & H3 & H4 & _ & H6).
  pose (prefixed :=
          EObject (FString "-x.save") (FString "ctrl+k ctrl+s") FAbsent).
  pose (emptied := EObject (FString "w.store") (FString EmptyString) FAbsent).
  pose (keyless :=
          EObject (FString "y.quit") FAbsent (FString "editorFocus")).
  assert (Hx : set_In "x.save"
                 (getUserDisabledCommands
                    (keybindingsFile Scenarios.overridden))).
  { apply (H2 [prefixed] [emptied; keyless] prefixed "x.save").
    - reflexivity.
    - reflexivity.
    - now left.
    - left. reflexivity. }
  assert (Hw : set_In "w.store"
                 (getUserDisabledCommands
                    (keybindingsFile Scenarios.overridden))).
  { apply (H3 [prefixed; emptied; keyless] "w.store" FAbsent FAbsent).
    - reflexivity.
    - reflexivity.
    - discriminate.
    - reflexivity.
    - left. simpl. right. now left. }
  assert (Hy : set_In "y.quit"
                 (getUserDisabledCommands
                    (keybindingsFile Scenarios.overridden))).
  { apply (H3 [prefixed; emptied; keyless] "y.quit" FAbsent
              (FString "editorFocus")).
    - reflexivity.
    - reflexivity.
    - discriminate.
    - reflexivity.
    - right. simpl. right. right. now left. }
  assert (Hg : In Scenarios.overriddenGroup
                 (snd (scanConflicts Collation.rootCompare
                         Scenarios.overridden initial)))
    by (vm_compute; now left).
  split; [exact (conj Hx (conj Hw Hy)) | split; [split|split]].
  - apply (H1 "w.store" Scenarios.overriddenGroup); [exact Hw | exact Hg |].
    simpl. now left.
  - apply (H1 "x.save" Scenarios.overriddenGroup); [exact Hx | exact Hg |].
    simpl. right. now left.
  - apply (H6 "alt+q"); [vm_compute; lia | exact Hg].
  - apply (H4 "y.quit"). exact Hy.
Defined.

(** Scenarios A, B and C of the specification, evaluated. *)
Lemma scenarios_evaluated :
  map (fun g => (group_key g, map command (bindings g)))
      (snd (scanConflicts Collation.rootCompare Scenarios.scenarioA initial))
    = [("ctrl+k ctrl+s", ["x.save"; "y.save2"])] /\
  snd (scanConflicts Collation.rootCompare Scenarios.scenarioB initial) = [] /\
  snd (scanConflicts Collation.rootCompare Scenarios.scenarioC initial) = [].
Proof. repeat split. Qed.

(** *** Ordering *)

Lemma rootCompare_total a b :
  (Collation.rootCompare a b <= 0)%Z \/ (Collation.rootCompare b a <= 0)%Z.
Proof.
  revert b. induction a as [|x a IH]; intros [|y b]; simpl; try lia.
  rewrite (N.compare_antisym (Collation.rootRank x) (Collation.rootRank y)).
  destruct (N.compare (Collation.rootRank x) (Collation.rootRank y));
    simpl; try lia. apply IH.
Qed.

Lemma rootCompare_trans a b c :
  (Collation.rootCompare a b <= 0)%Z -> (Collation.rootCompare b c <= 0)%Z ->
  (Collation.rootCompare a c <= 0)%Z.
Proof.
  revert b c. induction a as [|x a IH]; intros [|y b] [|z c]; simpl; try lia.
  destruct (N.compare_spec (Collation.rootRank x) (Collation.rootRank y));
    destruct (N.compare_spec (Collation.rootRank y) (Collation.rootRank z));
    destruct (N.compare_spec (Collation.rootRank x) (Collation.rootRank z));
    try lia.
  apply IH.
Qed.

(** C4, as the code has it: the list that a scan returns is in ascending
    order of the canonical keys under the comparator of the host,
    [localeCompare], whenever that comparator is total and transitive. *)
Theorem conflicts_sorted_by_collation :
  forall (localeCompare : string -> string -> Z),
    (forall a b, (localeCompare a b <= 0)%Z \/ (localeCompare b a <= 0)%Z) ->
    (forall a b c, (localeCompare a b <= 0)%Z -> (localeCompare b c <= 0)%Z ->
                   (localeCompare a c <= 0)%Z) ->
    forall (h : Host) (st : State),
      StronglySorted (precedes localeCompare)
                     (snd (scanConflicts localeCompare h st)).
Proof.
  intros cmp Htot Htrans h st. simpl. unfold findConflicts.
  apply (sort_strongly_sorted
           (fun a b => cmp (group_key a) (group_key b))).
  - intros a b. apply Htot.
  - intros a b c. apply Htrans.
Qed.

Lemma conflicts_sorted_by_collation_witness :
  StronglySorted (precedes Collation.rootCompare)
    (snd (scanConflicts Collation.rootCompare Scenarios.digitAndBracket initial)).
Proof.
  apply (conflicts_sorted_by_collation Collation.rootCompare).
  - exact rootCompare_total.
  - exact rootCompare_trans.
Defined.

(** C4 as the specification states it fails: under the root collation the
    key ["ctrl+["] is returned before ["ctrl+1"], while code unit by code
    unit ["ctrl+1"] comes first. *)
Lemma collation_is_not_code_unit_order :
  map group_key
      (snd (scanConflicts Collation.rootCompare Scenarios.digitAndBracket initial))
    = ["ctrl+["; "ctrl+1"] /\
  ~ Sorted (precedes Collation.codeUnitCompare)
      (snd (scanConflicts Collation.rootCompare Scenarios.digitAndBracket initial)).
Proof.
  split; [reflexivity|]. intros H.
  vm_compute in H. inversion H as [|g l _ Hd]; subst.
  inversion Hd as [|g' l' Hp]; subst.
  apply Hp. reflexivity.
Qed.

(** *** The exposed binding set *)

Lemma collect_In pf all ext pkg kbs kb k :
  In ext all -> packageJSON ext = Some pkg -> keybindings pkg = Some kbs ->
  In kb kbs -> In k (keysToProcess pf kb) ->
  In {| key := normalizeKey k;
        command := kb_command kb;
        when := kb_when kb;
        extensionId := ext_id ext;
        extensionName :=
          orElse (displayName pkg) (orElse (pkg_name pkg) (ext_id ext)) |}
     (collectAllKeybindings pf all).
Proof.
  intros Hext Hpkg Hkbs Hkb Hk. unfold collectAllKeybindings.
  apply in_flat_map. exists ext. split; [assumption|].
  unfold extensionBindings. rewrite Hpkg, Hkbs.
  apply in_flat_map. exists kb. split; [assumption|].
  apply in_map_iff. exists k. auto.
Qed.

(** C10: after a scan [getAllBindings] returns every collected binding,
    whatever the user has disabled and whatever the groups are: the list
    does not depend on keybindings.json nor on the former state, and the
    members of the reported groups are taken from it. *)
Theorem all_bindings_survive_the_filters :
  forall (localeCompare : string -> string -> Z) (h : Host) (st : State),
    let st' := fst (scanConflicts localeCompare h st) in
    getAllBindings st' =
      collectAllKeybindings (platform h) (extensions_all h) /\
    (forall ext pkg kbs kb k,
       In ext (extensions_all h) -> packageJSON ext = Some pkg ->
       keybindings pkg = Some kbs -> In kb kbs ->
       In k (keysToProcess (platform h) kb) ->
       In {| key := normalizeKey k;
             command := kb_command kb;
             when := kb_when kb;
             extensionId := ext_id ext;
             extensionName :=
               orElse (displayName pkg) (orElse (pkg_name pkg) (ext_id ext)) |}
          (getAllBindings st')) /\
    (forall f st0,
       getAllBindings
         (fst (scanConflicts localeCompare
                 {| extensions_all := extensions_all h;
                    platform := platform h;
                    keybindingsFile := f |} st0))
       = getAllBindings st') /\
    (forall g b,
       In g (snd (scanConflicts localeCompare h st)) -> In b (bindings g) ->
       In b (getAllBindings st')).
Proof.
  intros cmp h st st'. subst st'. simpl. split; [|split; [|split]].
  - reflexivity.
  - intros. now apply collect_In with (kbs := kbs).
  - reflexivity.
  - intros g b Hg Hb. apply findConflicts_spec in Hg as [Hg _].
    rewrite Hg in Hb. now apply liveWithKey_not_disabled in Hb.
Qed.

Lemma all_bindings_survive_the_filters_witness :
  In (Scenarios.binding "ctrl+k ctrl+s" "x.save" "x")
     (getAllBindings
        (fst (scanConflicts Collation.rootCompare Scenarios.mixed initial))) /\
  In (Scenarios.binding "ctrl+k ctrl+s" "y.save2" "y")
     (getAllBindings
        (fst (scanConflicts Collation.rootCompare Scenarios.mixed initial))).
Proof.
  destruct (all_bindings_survive_the_filters
              Collation.rootCompare Scenarios.mixed initial)
    as (_ & H2 & _ & H4).
  split.
  - apply (H2 (Scenarios.extension "x"
                 [Scenarios.contribution "ctrl+k ctrl+s" "x.save" None;
                  Scenarios.contribution "alt+q" "x.quit" None])
              {| displayName := None; pkg_name := Some "x";
                 keybindings :=
                   Some [Scenarios.contribution "ctrl+k ctrl+s" "x.save" None;
                         Scenarios.contribution "alt+q" "x.quit" None] |}
              [Scenarios.contribution "ctrl+k ctrl+s" "x.save" None;
               Scenarios.contribution "alt+q" "x.quit" None]
              (Scenarios.contribution "ctrl+k ctrl+s" "x.save" None)
              "ctrl+k ctrl+s").
    + simpl. now left.
    + reflexivity.
    + reflexivity.
    + simpl. now left.
    + simpl. now left.
  - apply (H4 Scenarios.mixedGroup).
    + vm_compute. now left.
    + simpl. now left.
Defined.

(** In the scan of [mixed] the removed command and the two bindings of the
    single-extension key are exposed, and none of them is reported. *)
Lemma mixed_evaluated :
  map command
      (getAllBindings
         (fst (scanConflicts Collation.rootCompare Scenarios.mixed initial)))
    = ["x.save"; "x.quit"; "y.save2"; "w.store"; "z.confirm"; "z.commit"] /\
  snd (scanConflicts Collation.rootCompare Scenarios.mixed initial)
    = [Scenarios.mixedGroup].
Proof. split; reflexivity. Qed.

End ScanClaims.

(** ** Claims about the validation of a replacement key *)

Section ValidationClaims.
Import JS Scanner Presenter Resolver Vocabulary.

Lemma checkChords_refusal chords r :
  checkChords chords = Some r -> r = InvalidFormat \/ r = OnlyModifiers.
Proof.
  induction chords as [|c t IH]; simpl; [discriminate|].
  destruct (_ || _); [intros H; injection H as <-; now left|].
  destruct (_ && _); [intros H; injection H as <-; now right | exact IH].
Qed.

(** A sub-combo that is one modifier alone is refused. *)
Lemma checkChords_single_modifier chords c :
  In c chords -> In c validModifiers -> checkChords chords <> None.
Proof.
  intros Hin Hm. induction chords as [|c' t IH]; [destruct Hin|].
  simpl. destruct (_ || _) eqn:E1; [discriminate|].
  destruct (_ && _) eqn:E2; [discriminate|].
  destruct Hin as [->|Hin]; [|now apply IH].
  exfalso. simpl in Hm.
  repeat (destruct Hm as [<-|Hm]; [discriminate E2|]). exact Hm.
Qed.

Lemma validate_rejects_single_modifier value current known c :
  In c (split " " (trim (toLowerCase value))) -> In c validModifiers ->
  validateKeybinding (Some value) current known <> Accepted.
Proof.
  intros Hin Hm. unfold validateKeybinding.
  destruct (isEmpty (trim value)); [discriminate|].
  destruct (negb (validCharacters _)); [discriminate|].
  destruct (firstInvalidPart _); [discriminate|].
  destruct (checkChords _) as [r|] eqn:E.
  - apply checkChords_refusal in E as [->| ->]; discriminate.
  - now apply checkChords_single_modifier with (c := c) in E.
Qed.

(** A key that passes the format check of the validation is well formed,
    so that every accepted key normalizes idempotently. *)
Lemma checkChords_wellFormed chords :
  checkChords chords = None ->
  forallb
    (fun chord => negb (existsb (fun k => isEmpty (trim k)) (split "+" chord)))
    chords = true.
Proof.
  induction chords as [|c t IH]; simpl; [reflexivity|].
  destruct (List.length (split "+" c) =? 0)%nat; [discriminate|]. simpl.
  destruct (existsb _ (split "+" c)); [discriminate|]. simpl.
  destruct (_ && _); [discriminate | exact IH].
Qed.

Lemma accepted_is_wellFormed value current known :
  validateKeybinding (Some value) current known = Accepted ->
  wellFormed value = true.
Proof.
  unfold validateKeybinding, wellFormed.
  destruct (isEmpty (trim value)); [discriminate|].
  destruct (negb (validCharacters _)); [discriminate|].
  destruct (firstInvalidPart _); [discriminate|].
  destruct (checkChords _) as [r|] eqn:E.
  - intros ->. apply checkChords_refusal in E as [E|E]; discriminate E.
  - intros _. now apply checkChords_wellFormed.
Qed.

Lemma accepted_normalizes_idempotently value current known :
  validateKeybinding (Some value) current known = Accepted ->
  normalizeKey (normalizeKey value) = normalizeKey value.
Proof.
  intros H.
  eapply normalizeKey_idem_of_trimmed, wellFormed_trimmed,
    accepted_is_wellFormed, H.
Qed.

(** C9 on the code: a sub-combo that is a single modifier is refused, but
    a sub-combo made of two modifiers and no main key passes the check,
    which only looks at sub-combos of length one; ["ctrl+shift"] is
    accepted. *)
Theorem two_modifiers_pass_validation :
  forall current : KeybindingInfo,
    validateKeybinding (Some "ctrl") current [] = OnlyModifiers /\
    validateKeybinding (Some "ctrl+k shift") current [] = OnlyModifiers /\
    validateKeybinding (Some "ctrl+shift") current [] = Accepted /\
    validateKeybinding (Some "ctrl+k ctrl+shift") current [] = Accepted.
Proof. intros current. repeat split. Qed.

(** When the typed key, in lower case and trimmed, is the key of a known
    binding of another command, the validation names that command and its
    extension, and the reassignment throws before it writes: an existing
    file is left as it was. *)
Lemma literal_conflict_is_refused binding newKey known parsed :
  (exists b, In b known /\ key b = trim (toLowerCase newKey) /\
             command b <> command binding) ->
  exists c,
    In c known /\ key c = trim (toLowerCase newKey) /\
    command c <> command binding /\
    reassignKeybinding binding newKey known (FileText parsed)
      = (FileText parsed, Thrown c).
Proof.
  intros (b & Hin & Hk & Hc). unfold reassignKeybinding.
  assert (Hr : readKeybindingsFile (FileText parsed) =
               (FileText parsed,
                Some (match parsed with Some l => l | None => [] end)))
    by (destruct parsed; reflexivity).
  rewrite Hr.
  destruct (find _ known) as [c|] eqn:F.
  - apply find_some in F as [F1 F2]. apply andb_true_iff in F2 as [F2 F3].
    apply String.eqb_eq in F2. apply negb_true_iff, String.eqb_neq in F3.
    exists c. auto.
  - exfalso. apply (find_none _ _ F) in Hin.
    apply andb_false_iff in Hin as [H|H].
    + apply String.eqb_neq in H. congruence.
    + apply negb_false_iff, String.eqb_eq in H. congruence.
Qed.

(** Scenario D of the specification: a free key is accepted. *)
Lemma scenarioD_evaluated :
  validateKeybinding (Some "ctrl+shift+k") Scenarios.reassigned
    Scenarios.knownBindings = Accepted.
Proof. reflexivity. Qed.

(** C5 on the code: the typed key is compared in lower case and trimmed,
    not normalized.  ["shift+ctrl+v"] normalizes to the key that [b.paste]
    owns, yet it is accepted and written; typed as ["ctrl+shift+v"] it is
    refused and nothing is written. *)
Theorem reordered_modifiers_escape_the_conflict_check :
  normalizeKey "shift+ctrl+v" = key Scenarios.pasteOwner /\
  command Scenarios.pasteOwner <> command Scenarios.reassigned /\
  validateKeybinding (Some "shift+ctrl+v") Scenarios.reassigned
    Scenarios.knownBindings = Accepted /\
  reassignKeybinding Scenarios.reassigned "shift+ctrl+v"
    Scenarios.knownBindings (FileText (Some []))
    = (FileText (Some [EObject (FString "-a.cut") (FString "ctrl+alt+x") FAbsent;
                       EObject (FString "a.cut") (FString "shift+ctrl+v") FAbsent]),
       Returned) /\
  validateKeybinding (Some "ctrl+shift+v") Scenarios.reassigned
    Scenarios.knownBindings = ConflictsWith "b.paste" "b" /\
  reassignKeybinding Scenarios.reassigned "ctrl+shift+v"
    Scenarios.knownBindings (FileText (Some []))
    = (FileText (Some []), Thrown Scenarios.pasteOwner).
Proof.
  repeat split. intros H. discriminate H.
Qed.

End ValidationClaims.

(** ** The updates of the resolver *)

Section WriteBack.
Import JS Scanner Presenter Resolver Vocabulary FlowVocabulary.

Lemma matchesBinding_key b c k k' w :
  matchesBinding b (EObject c k w) = matchesBinding b (EObject c k' w).
Proof. destruct c; reflexivity. Qed.

Lemma findIndex_setKeyEmpty b j cur :
  findIndex b (setKeyEmpty j cur) = findIndex b cur.
Proof.
  revert j. induction cur as [|e r IH]; intros j; [now destruct j|].
  destruct j as [|j]; simpl.
  - destruct e as [| |[|c|t] k w]; reflexivity.
  - destruct e as [| |[|c|t] k w]; simpl; try reflexivity;
      now rewrite IH.
Qed.

Lemma findIndex_bound b cur i :
  findIndex b cur = Some (Some i) -> (i < List.length cur)%nat.
Proof.
  revert i. induction cur as [|e r IH]; intros i; simpl; [discriminate|].
  destruct (matchesBinding b e) as [[]|]; try discriminate.
  - intros H. injection H as <-. lia.
  - destruct (findIndex b r) as [[j|]|]; simpl; try discriminate.
    intros H. injection H as <-. specialize (IH j eq_refl). lia.
Qed.

Lemma findIndex_app b cur e i :
  findIndex b cur = Some (Some i) -> findIndex b (cur ++ [e]) = Some (Some i).
Proof.
  revert i. induction cur as [|x r IH]; intros i; simpl; [discriminate|].
  destruct (matchesBinding b x) as [[]|]; try discriminate; [auto|].
  destruct (findIndex b r) as [[j|]|]; simpl; try discriminate.
  intros H. injection H as <-. now rewrite (IH j eq_refl).
Qed.

Lemma whenEq_own w : whenEq (entryWhen (whenField w)) (bindingWhen w) = true.
Proof.
  destruct w as [s|]; simpl; [|reflexivity].
  destruct (truthy s) eqn:T; simpl; [|reflexivity].
  rewrite T. apply String.eqb_refl.
Qed.

Lemma matchesBinding_own b :
  matchesBinding b (disableEntryOf b) = Some true.
Proof.
  unfold disableEntryOf. simpl. rewrite String.eqb_refl. simpl.
  now rewrite whenEq_own.
Qed.

Lemma findIndex_pushed b cur :
  findIndex b cur = Some None ->
  findIndex b (cur ++ [disableEntryOf b]) = Some (Some (List.length cur)).
Proof.
  induction cur as [|x r IH]; cbn [app findIndex List.length].
  - intros _. now rewrite matchesBinding_own.
  - destruct (matchesBinding b x) as [[]|]; try discriminate.
    destruct (findIndex b r) as [[j|]|]; cbn [option_map]; try discriminate.
    intros _. now rewrite (IH eq_refl).
Qed.

Lemma setKeyEmpty_idem i cur :
  setKeyEmpty i (setKeyEmpty i cur) = setKeyEmpty i cur.
Proof.
  revert i. induction cur as [|e r IH]; intros i; [now destruct i|].
  destruct i as [|i]; simpl.
  - destruct e; reflexivity.
  - destruct e; simpl; now rewrite IH.
Qed.

Lemma setKeyEmpty_comm i j cur :
  setKeyEmpty i (setKeyEmpty j cur) = setKeyEmpty j (setKeyEmpty i cur).
Proof.
  revert i j. induction cur as [|e r IH]; intros i j;
    [now destruct i, j|].
  destruct i as [|i], j as [|j]; simpl; destruct e; simpl;
    try reflexivity; now rewrite IH.
Qed.

Lemma setKeyEmpty_app i cur e :
  (i < List.length cur)%nat ->
  setKeyEmpty i (cur ++ [e]) = setKeyEmpty i cur ++ [e].
Proof.
  revert i. induction cur as [|x r IH]; intros i H; simpl in H; [lia|].
  destruct i as [|i]; simpl.
  - destruct x; reflexivity.
  - destruct x; simpl; rewrite IH by lia; reflexivity.
Qed.

Lemma setKeyEmpty_last cur b :
  setKeyEmpty (List.length cur) (cur ++ [disableEntryOf b])
  = cur ++ [disableEntryOf b].
Proof.
  induction cur as [|x r IH]; [reflexivity|].
  cbn [app List.length setKeyEmpty]. destruct x; now rewrite IH.
Qed.

(** One round of the loop, for the binding itself and for the others. *)
Lemma settled_found b cur i :
  findIndex b cur = Some (Some i) -> settled b (setKeyEmpty i cur).
Proof.
  intros H. exists i. split.
  - now rewrite findIndex_setKeyEmpty.
  - apply setKeyEmpty_idem.
Qed.

Lemma settled_pushed b cur :
  findIndex b cur = Some None -> settled b (cur ++ [disableEntryOf b]).
Proof.
  intros H. exists (List.length cur). split.
  - now apply findIndex_pushed.
  - apply setKeyEmpty_last.
Qed.

Lemma settled_setKeyEmpty b cur j :
  settled b cur -> settled b (setKeyEmpty j cur).
Proof.
  intros (i & H1 & H2). exists i. split.
  - now rewrite findIndex_setKeyEmpty.
  - now rewrite setKeyEmpty_comm, H2.
Qed.

Lemma settled_app b cur e : settled b cur -> settled b (cur ++ [e]).
Proof.
  intros (i & H1 & H2). exists i. split.
  - now apply findIndex_app.
  - rewrite setKeyEmpty_app, H2; [reflexivity|].
    now apply findIndex_bound with (b := b).
Qed.

Lemma disableLoop_keeps_settled b bs cur new :
  disableLoop bs cur = Some new -> settled b cur -> settled b new.
Proof.
  revert cur. induction bs as [|x r IH]; intros cur; simpl.
  - intros H. now injection H as <-.
  - destruct (findIndex x cur) as [[i|]|]; try discriminate; intros H S.
    + apply (IH _ H). now apply settled_setKeyEmpty.
    + apply (IH _ H). now apply settled_app.
Qed.

Lemma disableLoop_settles bs cur new :
  disableLoop bs cur = Some new -> forall b, In b bs -> settled b new.
Proof.
  revert cur. induction bs as [|x r IH]; intros cur H b Hin; [destruct Hin|].
  simpl in H.
  destruct (findIndex x cur) as [[i|]|] eqn:F; try discriminate.
  - destruct Hin as [<-|Hin]; [|now apply (IH _ H)].
    apply (disableLoop_keeps_settled _ _ _ _ H). now apply settled_found.
  - destruct Hin as [<-|Hin]; [|now apply (IH _ H)].
    apply (disableLoop_keeps_settled _ _ _ _ H). now apply settled_pushed.
Qed.

Lemma disableLoop_fixed bs cur :
  (forall b, In b bs -> settled b cur) -> disableLoop bs cur = Some cur.
Proof.
  induction bs as [|x r IH]; intros H; [reflexivity|]. simpl.
  destruct (H x (or_introl eq_refl)) as (i & H1 & H2).
  rewrite H1, H2. apply IH. intros b Hb. apply H. now right.
Qed.

(** X5: the update loop of [disableKeybindings] changes nothing the
    second time.  Run with the same selection over the array it produced,
    [findIndex] finds an entry for every selected binding, nothing is
    pushed and the array comes out as it went in; so on a file in which
    the resolver finds that array, [disableKeybindings] returns and hands
    the same array to [writeKeybindingsFile]. *)
Theorem disable_loop_is_idempotent :
  forall (bs : list KeybindingInfo) (current updated : list UserEntry),
    disableLoop bs current = Some updated ->
    disableLoop bs updated = Some updated /\
    (forall b, In b bs -> exists i, findIndex b updated = Some (Some i)) /\
    disableKeybindings bs (FileText (Some updated))
    = (FileText (Some updated), Done).
Proof.
  intros bs cur new L.
  pose proof (disableLoop_settles _ _ _ L) as S.
  pose proof (disableLoop_fixed bs new S) as F.
  split; [exact F | split].
  - intros b Hb. destruct (S b Hb) as (i & Hi & _). eauto.
  - unfold disableKeybindings.
    destruct (List.length bs =? 0)%nat eqn:E.
    + apply Nat.eqb_eq, length_zero_iff_nil in E. subst bs.
      simpl in L. now injection L as <-.
    + simpl. now rewrite F.
Qed.

Lemma disable_loop_is_idempotent_witness :
  disableLoop [Scenarios.binding "ctrl+k ctrl+s" "x.save" "x"]
    [EObject (FString "editor.fold") (FString "ctrl+9") FAbsent;
     EObject (FString "x.save") (FString "") FAbsent]
  = Some [EObject (FString "editor.fold") (FString "ctrl+9") FAbsent;
          EObject (FString "x.save") (FString "") FAbsent] /\
  exists i,
    findIndex (Scenarios.binding "ctrl+k ctrl+s" "x.save" "x")
      [EObject (FString "editor.fold") (FString "ctrl+9") FAbsent;
       EObject (FString "x.save") (FString "") FAbsent]
    = Some (Some i).
Proof.
  destruct (disable_loop_is_idempotent
              [Scenarios.binding "ctrl+k ctrl+s" "x.save" "x"]
              [EObject (FString "editor.fold") (FString "ctrl+9") FAbsent]
              [EObject (FString "editor.fold") (FString "ctrl+9") FAbsent;
               EObject (FString "x.save") (FString "") FAbsent])
    as (H1 & H2 & _).
  - reflexivity.
  - split; [exact H1|]. apply H2. now left.
Defined.

(** *** What the update keeps *)

Lemma sameButKey_refl e : sameButKey e e.
Proof. now left. Qed.

Lemma sameButKey_trans e1 e2 e3 :
  sameButKey e1 e2 -> sameButKey e2 e3 -> sameButKey e1 e3.
Proof.
  intros [->|(c & k & w & -> & ->)] [->|(c' & k' & w' & E & ->)].
  - now left.
  - right. eauto.
  - right. eauto.
  - injection E as <- _ <-. right. eauto.
Qed.

Lemma Forall2_sameButKey_refl l : Forall2 sameButKey l l.
Proof. induction l; constructor; auto using sameButKey_refl. Qed.

Lemma Forall2_sameButKey_trans l1 l2 l3 :
  Forall2 sameButKey l1 l2 -> Forall2 sameButKey l2 l3 ->
  Forall2 sameButKey l1 l3.
Proof.
  intros H. revert l3. induction H as [|a b l1 l2 Hab H IH]; intros l3 H3.
  - inversion H3. constructor.
  - inversion H3 as [|? c ? l3' Hbc H3']; subst. constructor.
    + now apply sameButKey_trans with (e2 := b).
    + now apply IH.
Qed.

Lemma setKeyEmpty_sameButKey i cur : Forall2 sameButKey cur (setKeyEmpty i cur).
Proof.
  revert i. induction cur as [|e r IH]; intros i; [destruct i; constructor|].
  destruct i as [|i].
  - destruct e as [| |c k w]; simpl; constructor;
      auto using sameButKey_refl, Forall2_sameButKey_refl.
    right. eauto.
  - destruct e; simpl; constructor; auto using sameButKey_refl.
Qed.

Lemma sameButKey_disableEntry b e :
  sameButKey (disableEntryOf b) e -> e = disableEntryOf b.
Proof.
  intros [->|(c & k & w & E & ->)]; [reflexivity|].
  unfold disableEntryOf in *. now injection E as <- _ <-.
Qed.

(** The array after the loop: the former entries at their places, some
    with their key emptied, then the entries pushed, at most one for each
    selected binding. *)
Lemma disableLoop_shape bs cur new :
  disableLoop bs cur = Some new ->
  exists kept added,
    new = kept ++ added /\ Forall2 sameButKey cur kept /\
    Forall (fun e => exists b, In b bs /\ e = disableEntryOf b) added /\
    (List.length added <= List.length bs)%nat.
Proof.
  revert cur. induction bs as [|x r IH]; intros cur; simpl.
  - intros [= <-]. exists cur, []. rewrite app_nil_r.
    auto using Forall2_sameButKey_refl.
  - destruct (findIndex x cur) as [[i|]|]; try discriminate; intros H.
    + destruct (IH _ H) as (kept & added & -> & H2 & HA & HL).
      exists kept, added. repeat split.
      * eapply Forall2_sameButKey_trans; [apply setKeyEmpty_sameButKey | exact H2].
      * revert HA. apply Forall_impl. intros e (b & Hb & ->). eauto.
      * lia.
    + destruct (IH _ H) as (kept & added & -> & H2 & HA & HL).
      apply Forall2_app_inv_l in H2 as (k1 & k2 & H21 & H22 & ->).
      inversion H22 as [|? e' ? ? He H22']; subst. inversion H22'; subst.
      apply sameButKey_disableEntry in He. subst e'.
      exists k1, (disableEntryOf x :: added). repeat split.
      * now rewrite <- app_assoc.
      * assumption.
      * constructor; [eauto|].
        revert HA. apply Forall_impl. intros e (b & Hb & ->). eauto.
      * simpl. lia.
Qed.

Lemma readable_sameButKey e e' :
  sameButKey e e' -> readable e' = readable e.
Proof. intros [->|(c & k & w & -> & ->)]; reflexivity. Qed.

Lemma readable_kept cur kept :
  Forall2 sameButKey cur kept ->
  forallb readable kept = forallb readable cur.
Proof.
  induction 1 as [|a b l l' Hab H IH]; simpl; [reflexivity|].
  now rewrite (readable_sameButKey a b Hab), IH.
Qed.

Lemma readable_noNull cur : forallb readable cur = true -> noNull cur = true.
Proof.
  unfold noNull. induction cur as [|e r IH]; simpl; [reflexivity|].
  intros H. apply andb_true_iff in H as [H1 H2].
  rewrite (IH H2). destruct e; [discriminate | reflexivity | reflexivity].
Qed.

Lemma findIndex_noNull b cur : noNull cur = true -> findIndex b cur <> None.
Proof.
  unfold noNull. induction cur as [|e r IH]; simpl; [discriminate|].
  intros H. apply andb_true_iff in H as [H1 H2]. specialize (IH H2).
  destruct e as [| |c k w]; [discriminate H1| |].
  - simpl. destruct (findIndex b r) as [[j|]|]; simpl; congruence.
  - destruct (matchesBinding b (EObject c k w)) as [[]|] eqn:M.
    + discriminate.
    + destruct (findIndex b r) as [[j|]|]; simpl; congruence.
    + destruct c as [|c|t]; simpl in M; try discriminate.
      destruct (negb _); discriminate.
Qed.

Lemma noNull_setKeyEmpty i cur : noNull (setKeyEmpty i cur) = noNull cur.
Proof.
  unfold noNull. revert i. induction cur as [|e r IH]; intros i;
    [now destruct i|].
  destruct i as [|i]; destruct e; simpl; try reflexivity; now rewrite IH.
Qed.

Lemma noNull_app cur e :
  noNull (cur ++ [disableEntryOf e]) = noNull cur.
Proof.
  unfold noNull. rewrite forallb_app. simpl. now rewrite andb_true_r.
Qed.

(** Without a [null] element the loop does not throw. *)
Lemma disableLoop_total bs cur :
  noNull cur = true -> exists new, disableLoop bs cur = Some new.
Proof.
  revert cur. induction bs as [|x r IH]; intros cur H; simpl; [eauto|].
  destruct (findIndex x cur) as [[i|]|] eqn:F.
  - apply IH. now rewrite noNull_setKeyEmpty.
  - apply IH. now rewrite noNull_app.
  - now apply findIndex_noNull in F.
Qed.

(** The entry that [findIndex] finds for a settled binding. *)
Lemma settled_entry b cur :
  settled b cur ->
  exists w, In (EObject (FString (command b)) (FString EmptyString) w) cur.
Proof.
  intros (i & H1 & H2). revert i H1 H2.
  induction cur as [|e r IH]; intros i; simpl; [discriminate|].
  destruct (matchesBinding b e) as [[]|] eqn:M; try discriminate.
  - intros [= <-]. destruct e as [| |c k w]; try discriminate M.
    destruct c as [|c|t]; try discriminate M. simpl in M.
    destruct (String.eqb_spec c (command b)) as [->|]; [|discriminate M].
    simpl. intros [= ->]. eauto.
  - destruct (findIndex b r) as [[j|]|] eqn:F; simpl; try discriminate.
    intros [= <-] H2.
    assert (H2' : setKeyEmpty j r = r)
      by (destruct e; simpl in H2; now injection H2).
    destruct (IH j eq_refl H2') as (w & Hw). eauto.
Qed.

Lemma emptied_disables c w :
  c <> EmptyString -> startsWith "-" c = false ->
  disables (EObject (FString c) (FString EmptyString) w) c.
Proof. intros H1 H2. simpl. right. auto. Qed.

Lemma disabled_of_readable kbs e c :
  forallb readable kbs = true -> In e kbs -> disables e c ->
  set_In c (disabledLoop kbs (empty_set string)).
Proof.
  intros Hr Hin Hd. rewrite <- (app_nil_r kbs).
  now apply disabledLoop_complete with (e := e).
Qed.

Lemma reported_not_disabled cmp h st g b c :
  set_In c (getUserDisabledCommands (keybindingsFile h)) ->
  In g (snd (scanConflicts cmp h st)) -> In b (bindings g) ->
  command b <> c.
Proof.
  intros Hc Hg Hb <-. simpl in Hg.
  apply findConflicts_spec in Hg as [Hg _]. rewrite Hg in Hb.
  apply liveWithKey_not_disabled in Hb as (_ & Hn & _). contradiction.
Qed.

(** X1: the array that a disabling writes disables the selection.  When
    every entry of the array read can be read by the scanner's loop, the
    update loop does not throw, and in the array it produces the scanner's
    loop finds every selected command (not empty, not starting with ["-"])
    disabled; a scan that parses that array from the file reports no
    binding of such a command. *)
Theorem written_array_disables_the_selection :
  forall (bs : list KeybindingInfo) (current : list UserEntry),
    forallb readable current = true ->
    exists updated,
      disableLoop bs current = Some updated /\
      forall b,
        In b bs -> command b <> EmptyString ->
        startsWith "-" (command b) = false ->
        set_In (command b) (disabledLoop updated (empty_set string)) /\
        forall localeCompare h st g b',
          keybindingsFile h = FileText (Some updated) ->
          In g (snd (scanConflicts localeCompare h st)) ->
          In b' (bindings g) -> command b' <> command b.
Proof.
  intros bs cur Hr.
  destruct (disableLoop_total bs cur (readable_noNull _ Hr)) as (new & L).
  exists new. split; [exact L|]. intros b Hb H1 H2.
  assert (Hin : set_In (command b) (disabledLoop new (empty_set string))).
  { destruct (settled_entry b new (disableLoop_settles _ _ _ L b Hb))
      as (w & Hw).
    apply disabled_of_readable
      with (e := EObject (FString (command b)) (FString EmptyString) w);
      auto using emptied_disables.
    destruct (disableLoop_shape _ _ _ L) as (kept & added & -> & K & A & _).
    rewrite forallb_app, (readable_kept _ _ K), Hr. simpl.
    apply forallb_forall. intros e He. rewrite Forall_forall in A.
    destruct (A e He) as (b0 & _ & ->). reflexivity. }
  split; [exact Hin|].
  intros cmp h st g b' Hf Hg Hb'.
  apply (reported_not_disabled cmp h st g b'); [|assumption|assumption].
  rewrite Hf. exact Hin.
Qed.

Lemma written_array_disables_the_selection_witness :
  exists updated,
    disableLoop [Scenarios.binding "ctrl+k ctrl+s" "y.save2" "y"]
      [EObject (FString "-x.save") FAbsent FAbsent] = Some updated /\
    set_In "y.save2" (disabledLoop updated (empty_set string)) /\
    command (Scenarios.binding "ctrl+1" "x.first" "x") <> "y.save2".
Proof.
  destruct (written_array_disables_the_selection
              [Scenarios.binding "ctrl+k ctrl+s" "y.save2" "y"]
              [EObject (FString "-x.save") FAbsent FAbsent])
    as (new & H1 & H2).
  - reflexivity.
  - exists new.
    destruct (H2 (Scenarios.binding "ctrl+k ctrl+s" "y.save2" "y"))
      as [H3 H4].
    + now left.
    + discriminate.
    + reflexivity.
    + split; [exact H1 | split; [exact H3|]].
      apply (H4 Collation.rootCompare
                {| extensions_all := extensions_all Scenarios.digitAndBracket;
                   platform := linux;
                   keybindingsFile := FileText (Some new) |}
                initial
                {| group_key := "ctrl+1";
                   bindings := [Scenarios.binding "ctrl+1" "x.first" "x";
                                Scenarios.binding "ctrl+1" "y.one" "y"] |}).
      * reflexivity.
      * vm_compute in H1. injection H1 as <-. vm_compute. right. now left.
      * now left.
Defined.

(** *** Both updates *)

Lemma set_add_subset (x : string) acc acc' :
  (forall c, set_In c acc -> set_In c acc') ->
  forall c, set_In c (set_add string_dec x acc) ->
            set_In c (set_add string_dec x acc').
Proof.
  intros H c Hc. apply set_add_elim in Hc as [->|Hc].
  - now apply set_add_intro2.
  - now apply set_add_intro1, H.
Qed.

Lemma set_add_grows (x : string) acc acc' :
  (forall c, set_In c acc -> set_In c acc') ->
  forall c, set_In c acc -> set_In c (set_add string_dec x acc').
Proof. intros H c Hc. now apply set_add_intro1, H. Qed.

(** Emptying keys and pushing entries can only add to the set that the
    scanner's loop builds. *)
Lemma disabledLoop_grows old kept added acc acc' :
  Forall2 sameButKey old kept ->
  (forall c, set_In c acc -> set_In c acc') ->
  forall c, set_In c (disabledLoop old acc) ->
            set_In c (disabledLoop (kept ++ added) acc').
Proof.
  intros H. revert acc acc'.
  induction H as [|e e' old kept He H IH]; intros acc acc' Hs c; simpl.
  - intros Hc. apply disabledLoop_mono. auto.
  - destruct He as [->|(cmd & k & w & -> & ->)].
    + destruct e as [| |cmd k w]; [now apply Hs | now apply IH |].
      destruct cmd as [|s0|[]]; [now apply IH| |now apply Hs|now apply IH].
      destruct (truthy s0 && startsWith "-" s0);
        [apply IH; now apply set_add_subset|].
      destruct (truthy s0 && falsy k); [apply IH; now apply set_add_subset|].
      now apply IH.
    + destruct cmd as [|s0|[]]; [now apply IH| |now apply Hs|now apply IH].
      destruct (truthy s0 && startsWith "-" s0);
        [apply IH; now apply set_add_subset|].
      simpl falsy. rewrite andb_true_r.
      destruct (truthy s0).
      * destruct (true && falsy k);
          [apply IH; now apply set_add_subset
          |apply IH; now apply set_add_grows].
      * simpl. now apply IH.
Qed.

(** X2: the update loop of [disableKeybindings] keeps the array it is
    given.  In the array it produces the former elements are at their
    places, unchanged or with their key emptied, followed by at most one
    pushed entry for each selected binding.  What the file held is kept
    only as far as the resolver found it: a file that is blank or that
    [JSON.parse] refuses is taken for the empty array, and what is written
    over it is the pushed entries alone. *)
Theorem update_loop_keeps_the_array :
  forall (bs : list KeybindingInfo),
    (forall current updated,
        disableLoop bs current = Some updated ->
        exists kept added,
          updated = kept ++ added /\
          Forall2 sameButKey current kept /\
          Forall (fun e => exists b, In b bs /\ e = disableEntryOf b) added /\
          (List.length added <= List.length bs)%nat) /\
    (bs <> [] ->
     exists added,
       disableKeybindings bs (FileText None) = (FileText (Some added), Done) /\
       Forall (fun e => exists b, In b bs /\ e = disableEntryOf b) added).
Proof.
  intros bs. split.
  - intros cur new L. now apply disableLoop_shape.
  - intros Hne. unfold disableKeybindings.
    destruct bs as [|x r]; [congruence|]. cbn [List.length Nat.eqb].
    cbn [readKeybindingsFile].
    destruct (disableLoop_total (x :: r) [] eq_refl) as (new & L).
    rewrite L. exists new. split; [reflexivity|].
    destruct (disableLoop_shape _ _ _ L) as (kept & added & -> & K & A & _).
    inversion K. exact A.
Qed.

Lemma update_loop_keeps_the_array_witness :
  exists added,
    disableKeybindings [Scenarios.binding "ctrl+9" "editor.fold" "e";
                        Scenarios.binding "f5" "x.run" "x"] (FileText None)
    = (FileText (Some added), Done) /\
    Forall (fun e =>
              exists b,
                In b [Scenarios.binding "ctrl+9" "editor.fold" "e";
                      Scenarios.binding "f5" "x.run" "x"] /\
                e = disableEntryOf b) added.
Proof.
  apply (proj2 (update_loop_keeps_the_array
                  [Scenarios.binding "ctrl+9" "editor.fold" "e";
                   Scenarios.binding "f5" "x.run" "x"])).
  discriminate.
Defined.

(** X3: neither update takes a command out of the disabled set.  Every
    command that the scanner's loop finds disabled in the array read, it
    finds disabled in the array that [disableKeybindings] produces from it
    and in the array that [reassignKeybinding] produces from it. *)
Theorem updates_never_reenable :
  forall (current : list UserEntry) (c : string),
    set_In c (disabledLoop current (empty_set string)) ->
    (forall bs updated,
        disableLoop bs current = Some updated ->
        set_In c (disabledLoop updated (empty_set string))) /\
    (forall b k,
        set_In c (disabledLoop (current ++ reassignEntries b k)
                               (empty_set string))).
Proof.
  intros cur c Hc. split.
  - intros bs new L.
    destruct (disableLoop_shape _ _ _ L) as (kept & added & -> & K & _).
    now apply disabledLoop_grows with (old := cur) (acc := empty_set string).
  - intros b k.
    apply disabledLoop_grows with (old := cur) (acc := empty_set string);
      auto using Forall2_sameButKey_refl.
Qed.

Lemma updates_never_reenable_witness :
  set_In "x.save"
    (disabledLoop [EObject (FString "-x.save") FAbsent FAbsent;
                   EObject (FString "y.save2") (FString "") FAbsent]
                  (empty_set string)) /\
  set_In "x.save"
    (disabledLoop ([EObject (FString "-x.save") FAbsent FAbsent]
                   ++ reassignEntries Scenarios.reassigned "ctrl+shift+k")
                  (empty_set string)).
Proof.
  destruct (updates_never_reenable
              [EObject (FString "-x.save") FAbsent FAbsent] "x.save")
    as [H1 H2].
  - simpl. now left.
  - split.
    + apply (H1 [Scenarios.binding "ctrl+k ctrl+s" "y.save2" "y"]).
      reflexivity.
    + apply (H2 Scenarios.reassigned "ctrl+shift+k").
Defined.

Lemma disableLoop_throws bs cur :
  disableLoop bs cur = None -> noNull cur = false.
Proof.
  intros H. destruct (noNull cur) eqn:N; [|reflexivity].
  destruct (disableLoop_total bs cur N) as (new & E). congruence.
Qed.

(** X4: a disabling that fails, or that has nothing selected, writes
    nothing.  Errors of the file system apart, the error comes from a file
    whose content is valid JSON but not an array (the first [findIndex] is
    a TypeError) or from a [null] element of the array; on those paths the
    file is as it was, and a missing file is never the cause.  With an
    empty selection the file is not even read. *)
Theorem failed_disable_writes_nothing :
  forall (bs : list KeybindingInfo) (f f' : KeybindingsFile),
    (disableKeybindings bs f = (f', UpdateFailed) ->
     f' = f /\
     (f = FileNotArray \/
      exists l, f = FileText (Some l) /\ noNull l = false)) /\
    (bs <> [] ->
     disableKeybindings bs FileNotArray = (FileNotArray, UpdateFailed)) /\
    disableKeybindings [] f = (f, Done).
Proof.
  intros bs f f'. split; [|split; [|reflexivity]].
  - unfold disableKeybindings.
    destruct (List.length bs =? 0)%nat; [discriminate|].
    destruct f as [|[l|]|]; simpl.
    + destruct (disableLoop bs []) eqn:L; [discriminate|].
      apply disableLoop_throws in L. discriminate L.
    + destruct (disableLoop bs l) eqn:L; [discriminate|].
      intros [= <-]. split; [reflexivity|]. right. exists l.
      split; [reflexivity | now apply disableLoop_throws in L].
    + destruct (disableLoop bs []) eqn:L; [discriminate|].
      apply disableLoop_throws in L. discriminate L.
    + intros [= <-]. auto.
  - intros Hne. destruct bs; [congruence | reflexivity].
Qed.

Lemma failed_disable_writes_nothing_witness :
  (FileText (Some [EObject (FString "a") FAbsent FAbsent; ENull])
   = FileText (Some [EObject (FString "a") FAbsent FAbsent; ENull]) /\
   (FileText (Some [EObject (FString "a") FAbsent FAbsent; ENull])
    = FileNotArray \/
    exists l,
      FileText (Some [EObject (FString "a") FAbsent FAbsent; ENull])
      = FileText (Some l) /\ noNull l = false)) /\
  disableKeybindings [Scenarios.binding "f5" "x.run" "x"] FileNotArray
  = (FileNotArray, UpdateFailed).
Proof.
  destruct (failed_disable_writes_nothing
              [Scenarios.binding "f5" "x.run" "x"]
              (FileText (Some [EObject (FString "a") FAbsent FAbsent; ENull]))
              (FileText (Some [EObject (FString "a") FAbsent FAbsent; ENull])))
    as (H1 & H2 & _).
  split.
  - apply H1. reflexivity.
  - apply H2. discriminate.
Defined.

(** *** Reassigning *)

Lemma trimmed_again v : trim (toLowerCase (trim v)) = trim (toLowerCase v).
Proof. now rewrite !trim_lower, trim_idem. Qed.

Lemma accepted_no_literal_conflict v current known :
  validateKeybinding (Some v) current known = Accepted ->
  find (fun b => String.eqb (key b) (trim (toLowerCase v)) &&
                 negb (String.eqb (command b) (command current))) known = None.
Proof.
  unfold validateKeybinding.
  destruct (isEmpty (trim v)); [discriminate|].
  destruct (negb (validCharacters _)); [discriminate|].
  destruct (firstInvalidPart _); [discriminate|].
  destruct (checkChords _) as [r|] eqn:E.
  - intros ->. apply checkChords_refusal in E as [E|E]; discriminate E.
  - destruct (find _ known); [discriminate | reflexivity].
Qed.

(** X6: what the input box accepts, the resolver does not refuse.  When
    [validateKeybinding] accepts the typed text for a binding, then
    [reassignKeybinding], called as [showConflicts] and
    [processConflictResolution] call it (same binding, same known
    bindings, the text trimmed), never throws the conflict error.  Where
    the resolver finds an array in the file it returns, the array written
    being the array read followed by the two entries; where the content is
    valid JSON but not an array, [push] throws and nothing is written. *)
Theorem accepted_key_is_not_refused :
  forall (v : string) (current : KeybindingInfo)
         (known : list KeybindingInfo) (f : KeybindingsFile),
    validateKeybinding (Some v) current known = Accepted ->
    (forall conflict,
        snd (reassignKeybinding current (trim v) known f) <> Thrown conflict) /\
    (forall array,
        readsArray f array ->
        reassignKeybinding current (trim v) known f
        = (FileText (Some (array ++ reassignEntries current v)), Returned)) /\
    reassignKeybinding current (trim v) known FileNotArray
    = (FileNotArray, PushFailed).
Proof.
  intros v current known f H.
  apply accepted_no_literal_conflict in H.
  unfold reassignKeybinding, readsArray, reassignEntries.
  rewrite trimmed_again, H. split; [|split].
  - intros conflict.
    destruct (readKeybindingsFile f) as [f1 [cur|]]; discriminate.
  - intros cur. destruct (readKeybindingsFile f) as [f1 cur']. cbn [snd].
    now intros ->.
  - reflexivity.
Qed.

Lemma accepted_key_is_not_refused_witness :
  reassignKeybinding Scenarios.reassigned (trim " Ctrl+Shift+K ")
    Scenarios.knownBindings someFile
  = (FileText
       (Some ([EObject (FString "editor.fold") (FString "ctrl+9") FAbsent]
              ++ reassignEntries Scenarios.reassigned " Ctrl+Shift+K ")),
     Returned) /\
  reassignKeybinding Scenarios.reassigned (trim " Ctrl+Shift+K ")
    Scenarios.knownBindings FileNotArray
  = (FileNotArray, PushFailed).
Proof.
  destruct (accepted_key_is_not_refused " Ctrl+Shift+K " Scenarios.reassigned
              Scenarios.knownBindings someFile)
    as (_ & H2 & H3).
  - reflexivity.
  - split; [|exact H3]. apply H2. reflexivity.
Defined.

(** X7: the array that a reassignment writes disables the old binding.
    [reassignKeybinding], when it returns, has written the array read
    followed by its two entries; when every entry of the array read can be
    read by the scanner's loop, the loop finds the reassigned command
    disabled in the array written (from the entry with the ["-"] prefix),
    so that a scan that parses that array from the file reports no binding
    of the command. *)
Theorem written_array_disables_the_reassigned :
  forall (binding : KeybindingInfo) (newKey : string)
         (current : list UserEntry),
    forallb readable current = true ->
    (forall known f f',
        readsArray f current ->
        reassignKeybinding binding newKey known f = (f', Returned) ->
        f' = FileText (Some (current ++ reassignEntries binding newKey))) /\
    set_In (command binding)
      (disabledLoop (current ++ reassignEntries binding newKey)
                    (empty_set string)) /\
    forall localeCompare h st g b,
      keybindingsFile h
      = FileText (Some (current ++ reassignEntries binding newKey)) ->
      In g (snd (scanConflicts localeCompare h st)) ->
      In b (bindings g) -> command b <> command binding.
Proof.
  intros binding newKey cur Hr.
  assert (Hin : set_In (command binding)
                  (disabledLoop (cur ++ reassignEntries binding newKey)
                                (empty_set string))).
  { apply disabled_of_readable
      with (e := EObject (FString ("-" ++ command binding))
                         (FString (key binding))
                         (whenField (when binding))).
    - rewrite forallb_app, Hr. reflexivity.
    - apply in_or_app. right. now left.
    - simpl. now left. }
  split; [|split; [exact Hin|]].
  - intros known f f'. unfold readsArray, reassignKeybinding.
    destruct (readKeybindingsFile f) as [f1 cur']. cbn [snd]. intros ->.
    destruct (find _ known); [discriminate|]. now intros [= <-].
  - intros cmp h st g b Hf Hg Hb.
    apply (reported_not_disabled cmp h st g b); [|assumption|assumption].
    rewrite Hf. exact Hin.
Qed.

Lemma written_array_disables_the_reassigned_witness :
  set_In "y.save2"
    (disabledLoop
       ([EObject (FString "-x.save") FAbsent FAbsent]
        ++ reassignEntries (Scenarios.binding "ctrl+k ctrl+s" "y.save2" "y")
                           "ctrl+alt+s")
       (empty_set string)) /\
  command (Scenarios.binding "ctrl+1" "x.first" "x") <> "y.save2".
Proof.
  destruct (written_array_disables_the_reassigned
              (Scenarios.binding "ctrl+k ctrl+s" "y.save2" "y") "ctrl+alt+s"
              [EObject (FString "-x.save") FAbsent FAbsent])
    as (_ & H1 & H2).
  - reflexivity.
  - split; [exact H1|].
    apply (H2 Collation.rootCompare
              {| extensions_all := extensions_all Scenarios.digitAndBracket;
                 platform := linux;
                 keybindingsFile :=
                   FileText
                     (Some ([EObject (FString "-x.save") FAbsent FAbsent]
                            ++ reassignEntries
                                 (Scenarios.binding "ctrl+k ctrl+s" "y.save2"
                                                    "y")
                                 "ctrl+alt+s")) |}
              initial
              {| group_key := "ctrl+1";
                 bindings := [Scenarios.binding "ctrl+1" "x.first" "x";
                              Scenarios.binding "ctrl+1" "y.one" "y"] |}).
    + reflexivity.
    + vm_compute. right. now left.
    + now left.
Defined.

End WriteBack.

(** ** The picker and the resolution flow *)

Section Flow.
Import JS Scanner Presenter Resolver Extension Vocabulary FlowVocabulary.

Lemma selectedBindingsOf_app l l' :
  selectedBindingsOf (l ++ l') = selectedBindingsOf l ++ selectedBindingsOf l'.
Proof. unfold selectedBindingsOf. apply flat_map_app. Qed.

Lemma selectedBindingsOf_items bs :
  selectedBindingsOf (map bindingItem bs) = bs.
Proof.
  induction bs as [|b r IH]; [reflexivity|].
  change (b :: selectedBindingsOf (map bindingItem r) = b :: r).
  now rewrite IH.
Qed.

Lemma items_of_group g :
  selectedBindingsOf (separatorItem g :: map bindingItem (bindings g))
  = bindings g.
Proof.
  change (selectedBindingsOf (map bindingItem (bindings g)) = bindings g).
  apply selectedBindingsOf_items.
Qed.

(** X8: the picker offers exactly the conflicting bindings.  The items
    built for a report are one separator for each group followed by one
    item for each member; ticking all of them selects the members of all
    groups, in order; an item is a separator exactly when it carries no
    binding. *)
Theorem picker_offers_the_conflicting_bindings :
  forall conflicts : list ConflictGroup,
    selectedBindingsOf (buildQuickPickItems conflicts)
      = flat_map bindings conflicts /\
    List.length (buildQuickPickItems conflicts)
      = (List.length conflicts + List.length (flat_map bindings conflicts))%nat /\
    filter isSeparator (buildQuickPickItems conflicts)
      = map separatorItem conflicts /\
    (forall item, In item (buildQuickPickItems conflicts) ->
                  (isSeparator item = true <-> item_binding item = None)).
Proof.
  intros conflicts. unfold buildQuickPickItems. repeat split.
  - induction conflicts as [|g r IH]; [reflexivity|].
    cbn [flat_map]. rewrite selectedBindingsOf_app, IH.
    now rewrite items_of_group.
  - induction conflicts as [|g r IH]; [reflexivity|].
    simpl. rewrite !length_app, length_map, IH. lia.
  - induction conflicts as [|g r IH]; [reflexivity|].
    cbn [flat_map map]. rewrite filter_app, IH. cbn [filter separatorItem isSeparator].
    rewrite filter_none; [reflexivity|].
    apply Forall_forall. intros it Hit.
    apply in_map_iff in Hit as (b & <- & _). reflexivity.
  - apply in_flat_map in H as (g & _ & [<-|Hin]); [reflexivity|].
    apply in_map_iff in Hin as (b & <- & _). discriminate.
  - apply in_flat_map in H as (g & _ & [<-|Hin]); [reflexivity|].
    apply in_map_iff in Hin as (b & <- & _). discriminate.
Qed.

Lemma selected_from_items conflicts sel b :
  incl sel (buildQuickPickItems conflicts) ->
  In b (selectedBindingsOf sel) ->
  exists g, In g conflicts /\ In b (bindings g).
Proof.
  intros Hincl Hb. unfold selectedBindingsOf in Hb.
  apply in_flat_map in Hb as (item & Hitem & Hb).
  apply Hincl in Hitem. unfold buildQuickPickItems in Hitem.
  apply in_flat_map in Hitem as (g & Hg & [<-|Hin]); [destruct Hb|].
  apply in_map_iff in Hin as (b' & <- & Hb'). simpl in Hb.
  destruct Hb as [<-|[]]. eauto.
Qed.

Lemma length_zero_nil {X} (l : list X) :
  (List.length l =? 0)%nat = true <-> l = [].
Proof. destruct l; simpl; split; congruence. Qed.

Lemma showConflicts_spec conflicts known a act :
  showConflicts conflicts known a = Some act ->
  exists sel,
    conflicts <> [] /\ picked a = Some sel /\
    selectedBindingsOf sel <> [] /\
    match act with
    | Disable bs =>
        chosen a = Some ChooseDisable /\ bs = selectedBindingsOf sel
    | Reassign bs newKey known' =>
        chosen a = Some ChooseReassign /\ known' = known /\
        bs = selectedBindingsOf sel /\ (exists b, bs = [b]) /\
        exists t, typed a = Some t /\ t <> EmptyString /\ newKey = trim t
    end.
Proof.
  unfold showConflicts.
  destruct conflicts as [|g r]; [discriminate|]. cbn [List.length Nat.eqb].
  destruct (picked a) as [sel|]; [|discriminate].
  destruct (List.length sel =? 0)%nat; [discriminate|].
  destruct (selectedBindingsOf sel) as [|b bs] eqn:S; [discriminate|].
  cbn [List.length Nat.eqb].
  destruct (chosen a) as [[| |]|]; try discriminate.
  - intros [= <-]. exists sel. rewrite S. repeat split; discriminate.
  - destruct bs as [|b' bs'];
      [|cbn [List.length Nat.ltb Nat.leb]; discriminate].
    cbn [List.length Nat.ltb Nat.leb].
    destruct (typed a) as [t|]; [|discriminate].
    destruct (isEmpty t) eqn:E; [discriminate|].
    intros [= <-]. exists sel. rewrite S.
    repeat split; try discriminate; eauto.
    exists t. apply isEmpty_false in E. auto.
Qed.

(** X9: an action carries what was ticked.  When [showConflicts] gives an
    action, its bindings are the bindings of the ticked items, at least
    one; a reassignment carries exactly one binding, the known bindings it
    was given and the typed text, not empty, trimmed; and when the ticked
    items are among those shown, every binding of the action is a member of
    a reported group. *)
Theorem action_carries_the_selection :
  forall (conflicts : list ConflictGroup) (known : list KeybindingInfo)
         (a : Answers) (act : ResolutionAction),
    showConflicts conflicts known a = Some act ->
    (exists sel, picked a = Some sel /\
                 actionBindings act = selectedBindingsOf sel) /\
    actionBindings act <> [] /\
    (forall bs newKey known',
        act = Reassign bs newKey known' ->
        known' = known /\ (exists b, bs = [b]) /\
        exists t, typed a = Some t /\ t <> EmptyString /\ newKey = trim t) /\
    ((forall sel, picked a = Some sel ->
                  incl sel (buildQuickPickItems conflicts)) ->
     forall b, In b (actionBindings act) ->
               exists g, In g conflicts /\ In b (bindings g)).
Proof.
  intros conflicts known a act H.
  destruct (showConflicts_spec _ _ _ _ H) as (sel & Hc & Hp & Hs & Hact).
  assert (E : actionBindings act = selectedBindingsOf sel).
  { destruct act; simpl; [now destruct Hact | now destruct Hact as (_ & _ & -> & _)]. }
  split; [eauto|]. split; [now rewrite E|]. split.
  - intros bs newKey known' ->. destruct Hact as (_ & -> & _ & Hb & Ht). auto.
  - intros Hincl b Hb. rewrite E in Hb.
    apply selected_from_items with (sel := sel); auto.
Qed.

Lemma action_carries_the_selection_witness :
  actionBindings
    (Reassign [Scenarios.binding "ctrl+k ctrl+s" "y.save2" "y"] "ctrl+alt+s"
              Scenarios.knownBindings) <> [] /\
  exists g, In g [Scenarios.mixedGroup] /\
            In (Scenarios.binding "ctrl+k ctrl+s" "y.save2" "y") (bindings g).
Proof.
  destruct (action_carries_the_selection
              [Scenarios.mixedGroup] Scenarios.knownBindings
              {| picked :=
                   Some [bindingItem
                           (Scenarios.binding "ctrl+k ctrl+s" "y.save2" "y")];
                 chosen := Some ChooseReassign;
                 typed := Some " ctrl+alt+s" |}
              (Reassign [Scenarios.binding "ctrl+k ctrl+s" "y.save2" "y"]
                        "ctrl+alt+s" Scenarios.knownBindings))
    as (_ & H2 & H3 & H4).
  - reflexivity.
  - split; [exact H2|].
    apply H4.
    + intros sel [= <-] item [<-|[]]. simpl. right. now left.
    + now left.
Defined.

(** X10: the flow never reassigns a missing binding.  Whatever the user
    answers, [processConflictResolution] reads [action.bindings[0]] only
    when it is there. *)
Theorem resolution_always_has_its_binding :
  forall (conflicts : list ConflictGroup) (known : list KeybindingInfo)
         (a : Answers) (f : KeybindingsFile),
    snd (processConflictResolution conflicts known a f) <> NoBindingToReassign.
Proof.
  intros conflicts known a f. unfold processConflictResolution.
  destruct (showConflicts conflicts known a) as [[bs|bs newKey known']|] eqn:H;
    [| |discriminate].
  - destruct (disableKeybindings bs f) as [f' []]; discriminate.
  - destruct (showConflicts_spec _ _ _ _ H)
      as (sel & _ & _ & _ & _ & _ & _ & (b & ->) & _).
    destruct (reassignKeybinding b newKey known' f) as [f' []]; discriminate.
Qed.

Lemma showConflicts_dismissed conflicts known a :
  showConflicts conflicts known a = None <-> dismissed conflicts a.
Proof.
  unfold showConflicts, dismissed.
  destruct conflicts as [|g r]; [tauto|]. cbn [List.length Nat.eqb].
  destruct (picked a) as [sel|]; [|tauto].
  destruct sel as [|it sel'].
  { cbn [List.length Nat.eqb]. split; [|reflexivity]. intros _.
    right. right. left. now exists []. }
  cbn [List.length Nat.eqb].
  destruct (selectedBindingsOf (it :: sel')) as [|b bs] eqn:S.
  { cbn [List.length Nat.eqb]. split; [|reflexivity]. intros _.
    right. right. left. eauto. }
  cbn [List.length Nat.eqb].
  assert (N : forall P : Prop,
             (exists sel, Some (it :: sel') = Some sel /\
                          selectedBindingsOf sel = []) -> P).
  { intros P (sel & [= <-] & E). congruence. }
  destruct (chosen a) as [[| |]|].
  - split; [discriminate|].
    intros [H|[H|[H|[H|[H|[H _]]]]]]; try discriminate; now apply N.
  - destruct bs as [|b' bs']; cbn [List.length Nat.ltb Nat.leb].
    + destruct (typed a) as [t|].
      * destruct t as [|c t']; simpl.
        -- split; [|reflexivity]. intros _. do 5 right. auto.
        -- split; [discriminate|].
           intros [H|[H|[H|[H|[H|[_ [H|[H|H]]]]]]]]; try discriminate;
             try (now apply N).
           destruct H as (sel & [= <-] & H). rewrite S in H. simpl in H. lia.
      * split; [|reflexivity]. intros _. do 5 right. auto.
    + split; [|reflexivity]. intros _. do 5 right. split; [reflexivity|].
      right. right. exists (it :: sel'). rewrite S. simpl. split; [reflexivity|lia].
  - split; [|reflexivity]. intros _. do 4 right. now left.
  - split; [|reflexivity]. intros _. do 3 right. now left.
Qed.

(** X11: a dismissed prompt writes nothing.  [processConflictResolution]
    ends without doing anything exactly when there is no conflict, nothing
    ticked that carries a binding, no action chosen, the shortcuts editor
    chosen, or a reassignment with several bindings ticked or no text
    entered; keybindings.json is then left as it was (a missing file is
    not created). *)
Theorem dismissed_prompt_writes_nothing :
  forall (conflicts : list ConflictGroup) (known : list KeybindingInfo)
         (a : Answers) (f : KeybindingsFile),
    (dismissed conflicts a <->
     snd (processConflictResolution conflicts known a f) = NothingDone) /\
    (dismissed conflicts a ->
     processConflictResolution conflicts known a f = (f, NothingDone)).
Proof.
  intros conflicts known a f.
  rewrite <- (showConflicts_dismissed conflicts known a).
  unfold processConflictResolution.
  destruct (showConflicts conflicts known a) as [[bs|bs newKey known']|] eqn:H.
  - split; [|discriminate]. split; [discriminate|].
    destruct (disableKeybindings bs f) as [f' []]; discriminate.
  - split; [|discriminate]. split; [discriminate|].
    destruct bs as [|b r]; [discriminate|].
    destruct (reassignKeybinding b newKey known' f) as [f' []]; discriminate.
  - split; [split|]; reflexivity.
Qed.

Lemma dismissed_prompt_writes_nothing_witness :
  processConflictResolution [Scenarios.mixedGroup] Scenarios.knownBindings
    {| picked := Some [separatorItem Scenarios.mixedGroup];
       chosen := Some ChooseDisable;
       typed := None |}
    FileMissing
  = (FileMissing, NothingDone).
Proof.
  apply (proj2 (dismissed_prompt_writes_nothing
                  [Scenarios.mixedGroup] Scenarios.knownBindings
                  {| picked := Some [separatorItem Scenarios.mixedGroup];
                     chosen := Some ChooseDisable;
                     typed := None |}
                  FileMissing)).
  right. right. left. exists [separatorItem Scenarios.mixedGroup].
  split; reflexivity.
Defined.

End Flow.

(** ** Change events and automatic scans *)

Section Activation.
Import JS Scanner Presenter Resolver Extension Vocabulary FlowVocabulary.

Lemma arrayIncludes_In l x : arrayIncludes l x = true <-> In x l.
Proof.
  unfold arrayIncludes. rewrite existsb_exists. split.
  - intros (y & Hy & E). apply String.eqb_eq in E. now subst.
  - intros H. exists x. split; [assumption | apply String.eqb_refl].
Qed.

Lemma arrayIncludes_not_In l x : arrayIncludes l x = false <-> ~ In x l.
Proof.
  rewrite <- arrayIncludes_In. destruct (arrayIncludes l x); split; congruence.
Qed.

Lemma filter_nil_iff {X} (f : X -> bool) l :
  filter f l = [] <-> forall x, In x l -> f x = false.
Proof.
  induction l as [|a r IH]; simpl; [split; [intros _ x [] | reflexivity]|].
  destruct (f a) eqn:E.
  - split; [discriminate|]. intros H. specialize (H a (or_introl eq_refl)).
    congruence.
  - rewrite IH. split.
    + intros H x [<-|Hx]; auto.
    + intros H x Hx. apply H. now right.
Qed.

(** X12: a change event schedules a scan for the new extensions only.
    With [autoDetect] off nothing happens and the remembered list is kept.
    With it on, the remembered list becomes the current one, and a scan is
    scheduled exactly for the current identifiers that were not remembered,
    if there is one: removing extensions schedules nothing, and the same
    event a second time schedules nothing. *)
Theorem change_event_schedules_new_extensions :
  forall (autoDetect : bool) (current lastKnown : list string),
    (autoDetect = false ->
     onDidChange autoDetect current lastKnown = (lastKnown, None)) /\
    (autoDetect = true ->
     fst (onDidChange autoDetect current lastKnown) = current) /\
    (forall ids,
        snd (onDidChange autoDetect current lastKnown) = Some ids ->
        autoDetect = true /\ ids <> [] /\
        forall i, In i ids <-> In i current /\ ~ In i lastKnown) /\
    (autoDetect = true -> incl current lastKnown ->
     onDidChange autoDetect current lastKnown = (current, None)) /\
    onDidChange true current (fst (onDidChange true current lastKnown))
      = (current, None).
Proof.
  intros autoDetect current lastKnown.
  assert (Hsub : forall last, incl current last ->
                 onDidChange true current last = (current, None)).
  { intros last Hi. unfold onDidChange. cbn [negb].
    replace (filter _ current) with (@nil string); [reflexivity|].
    symmetry. apply filter_nil_iff. intros x Hx.
    apply negb_false_iff, arrayIncludes_In, Hi, Hx. }
  split; [|split; [|split; [|split]]].
  - intros ->. reflexivity.
  - intros ->. unfold onDidChange. cbn [negb].
    destruct (0 <? _)%nat; reflexivity.
  - intros ids. unfold onDidChange. destruct autoDetect; [|discriminate].
    cbn [negb].
    destruct (filter _ current) as [|x r] eqn:F; [discriminate|].
    cbn [List.length Nat.ltb Nat.leb snd]. intros [= <-].
    split; [reflexivity|]. split; [discriminate|]. intros i.
    rewrite <- F, filter_In, negb_true_iff, arrayIncludes_not_In. reflexivity.
  - intros ->. apply Hsub.
  - unfold onDidChange at 2. cbn [negb].
    destruct (0 <? _)%nat; cbn [fst]; apply Hsub, incl_refl.
Qed.

Lemma change_event_schedules_new_extensions_witness :
  onDidChange false ["a"; "b"] ["a"] = (["a"], None) /\
  fst (onDidChange true ["a"; "b"] ["a"]) = ["a"; "b"] /\
  (In "b" ["b"] <-> In "b" ["a"; "b"] /\ ~ In "b" ["a"]) /\
  onDidChange true ["a"] ["a"; "b"] = (["a"], None).
Proof.
  destruct (change_event_schedules_new_extensions false ["a"; "b"] ["a"])
    as (H1 & _).
  destruct (change_event_schedules_new_extensions true ["a"; "b"] ["a"])
    as (_ & H2 & H3 & _).
  destruct (change_event_schedules_new_extensions true ["a"] ["a"; "b"])
    as (_ & _ & _ & H4 & _).
  split; [|split; [|split]].
  - apply H1. reflexivity.
  - apply H2. reflexivity.
  - apply (H3 ["b"]). reflexivity.
  - apply H4; [reflexivity|]. intros x [<-|[]]. now left.
Defined.

Lemma StronglySorted_filter {X} (R : X -> X -> Prop) (f : X -> bool) l :
  StronglySorted R l -> StronglySorted R (filter f l).
Proof.
  induction 1 as [|a l Hs IH Hf]; simpl; [constructor|].
  destruct (f a); [|assumption]. constructor; [assumption|].
  rewrite Forall_forall in *. intros x Hx. apply Hf.
  now apply filter_In in Hx.
Qed.

Lemma newExtensionConflicts_In ids all g :
  In g (newExtensionConflicts ids all) <->
  In g all /\ exists b, In b (bindings g) /\ In (extensionId b) ids.
Proof.
  unfold newExtensionConflicts. rewrite filter_In, existsb_exists.
  split; intros [H (b & Hb & Hi)]; (split; [assumption|]); exists b;
    (split; [assumption|]); now apply arrayIncludes_In.
Qed.

(** X13: the conflicts shown after an installation are whole groups of the
    scan.  A group is shown exactly when the scan reports it and one of its
    members comes from a new extension; it keeps all its members, those of
    the other extensions too; the shown list is in the order of the scan;
    without a new extension nothing is shown. *)
Theorem new_extension_conflicts_are_whole_groups :
  forall (localeCompare : string -> string -> Z) (ids : list string)
         (h : Host) (st : State),
    let bs := collectAllKeybindings (platform h) (extensions_all h) in
    let disabled := getUserDisabledCommands (keybindingsFile h) in
    let all := snd (scanConflicts localeCompare h st) in
    let shown := newExtensionConflicts ids all in
    (forall g, In g shown <->
               In g all /\
               exists b, In b (bindings g) /\ In (extensionId b) ids) /\
    (forall g, In g shown ->
               bindings g = liveWithKey (group_key g) bs disabled /\
               exists b1 b2, In b1 (bindings g) /\ In b2 (bindings g) /\
                             extensionId b1 <> extensionId b2) /\
    ((forall a b, (localeCompare a b <= 0)%Z \/ (localeCompare b a <= 0)%Z) ->
     (forall a b c, (localeCompare a b <= 0)%Z -> (localeCompare b c <= 0)%Z ->
                    (localeCompare a c <= 0)%Z) ->
     StronglySorted (precedes localeCompare) shown) /\
    (ids = [] -> shown = []).
Proof.
  intros cmp ids h st bs disabled all shown. subst shown all. simpl.
  fold bs disabled. split; [|split; [|split]].
  - intros g. apply newExtensionConflicts_In.
  - intros g Hg. apply newExtensionConflicts_In in Hg as [Hg _].
    apply findConflicts_spec in Hg as [Hb Q].
    apply qualifies_spec in Q as [_ Q]. auto.
  - intros Htot Htrans. apply StronglySorted_filter. unfold findConflicts.
    apply (sort_strongly_sorted (fun a b => cmp (group_key a) (group_key b))).
    + intros a b. apply Htot.
    + intros a b c. apply Htrans.
  - intros ->. apply filter_nil_iff. intros g _.
    unfold arrayIncludes. simpl.
    induction (bindings g); [reflexivity | assumption].
Qed.

Lemma new_extension_conflicts_are_whole_groups_witness :
  In Scenarios.mixedGroup
     (newExtensionConflicts ["w"]
        (snd (scanConflicts Collation.rootCompare Scenarios.mixed initial))) /\
  bindings Scenarios.mixedGroup
  = liveWithKey "ctrl+k ctrl+s"
      (collectAllKeybindings linux (extensions_all Scenarios.mixed))
      (getUserDisabledCommands (keybindingsFile Scenarios.mixed)) /\
  StronglySorted (precedes Collation.rootCompare)
     (newExtensionConflicts ["w"]
        (snd (scanConflicts Collation.rootCompare Scenarios.mixed initial))) /\
  newExtensionConflicts []
     (snd (scanConflicts Collation.rootCompare Scenarios.mixed initial)) = [].
Proof.
  destruct (new_extension_conflicts_are_whole_groups
              Collation.rootCompare ["w"] Scenarios.mixed initial)
    as (H1 & H2 & H3 & _).
  destruct (new_extension_conflicts_are_whole_groups
              Collation.rootCompare [] Scenarios.mixed initial)
    as (_ & _ & _ & H4).
  assert (Hin : In Scenarios.mixedGroup
                  (newExtensionConflicts ["w"]
                     (snd (scanConflicts Collation.rootCompare
                             Scenarios.mixed initial)))).
  { apply H1. split; [vm_compute; now left|].
    exists (Scenarios.binding "ctrl+k ctrl+s" "w.store" "w").
    split; [right; now left | now left]. }
  split; [exact Hin | split; [|split]].
  - exact (proj1 (H2 _ Hin)).
  - apply H3; [exact rootCompare_total | exact rootCompare_trans].
  - apply H4. reflexivity.
Defined.

(** X14: an automatic scan changes keybindings.json only on request.  The
    file after [scanNewExtensionConflicts] differs from the file before
    only if notifications are on, the user answered "Resolve Now", a
    reported group has a member from a new extension, and no prompt of the
    resolution was dismissed. *)
Theorem automatic_scan_writes_only_on_request :
  forall (localeCompare : string -> string -> Z) (ids : list string)
         (showNotifications : bool) (notice : Notice) (a : Answers) (h : Host),
    let shown :=
      newExtensionConflicts ids (snd (scanConflicts localeCompare h initial)) in
    fst (scanNewExtensionConflicts localeCompare ids showNotifications
           notice a h) <> keybindingsFile h ->
    showNotifications = true /\ notice = ResolveNow /\
    shown <> [] /\ ~ dismissed shown a.
Proof.
  intros cmp ids showN notice a h shown. subst shown.
  unfold scanNewExtensionConflicts.
  destruct (scanConflicts cmp h initial) as [st all] eqn:S. cbn [snd].
  destruct (newExtensionConflicts ids all) as [|g r] eqn:N;
    [cbn; congruence|].
  cbn [List.length Nat.eqb].
  destruct showN; [|cbn; congruence].
  destruct notice; try (cbn; congruence).
  intros H. repeat split; try discriminate.
  intros D. apply H. unfold processConflictResolution.
  apply (showConflicts_dismissed (g :: r) (getAllBindings st) a) in D.
  now rewrite D.
Qed.

Lemma automatic_scan_writes_only_on_request_witness :
  true = true /\ ResolveNow = ResolveNow /\
  newExtensionConflicts ["w"]
    (snd (scanConflicts Collation.rootCompare Scenarios.mixed initial)) <> [] /\
  ~ dismissed
      (newExtensionConflicts ["w"]
         (snd (scanConflicts Collation.rootCompare Scenarios.mixed initial)))
      {| picked :=
           Some [bindingItem (Scenarios.binding "ctrl+k ctrl+s" "w.store" "w")];
         chosen := Some ChooseDisable;
         typed := None |}.
Proof.
  apply (automatic_scan_writes_only_on_request
           Collation.rootCompare ["w"] true ResolveNow
           {| picked :=
                Some [bindingItem
                        (Scenarios.binding "ctrl+k ctrl+s" "w.store" "w")];
              chosen := Some ChooseDisable;
              typed := None |}
           Scenarios.mixed).
  vm_compute. discriminate.
Defined.

End Activation.

(** ** More on the scan *)

Section ScanFacts.
Import JS Scanner Presenter Resolver Vocabulary FlowVocabulary.

Lemma groupByKey_NoDup bs disabled : NoDup (map fst (groupByKey bs disabled)).
Proof.
  rewrite groupByKey_live.
  now destruct (group_fold (live bs disabled) [] (NoDup_nil _)).
Qed.

Lemma conflictsOf_keys m :
  NoDup (map fst m) -> NoDup (map group_key (conflictsOf m)).
Proof.
  induction m as [|[k l] r IH]; simpl; intros H; [constructor|].
  inversion H as [|? ? Hk Hr]; subst.
  destruct (qualifies l); simpl; [|now apply IH].
  constructor; [|now apply IH].
  intros Hin. apply in_map_iff in Hin as (g & <- & Hg).
  apply conflictsOf_spec in Hg as [Hg _].
  apply Hk. now apply (in_map fst) in Hg.
Qed.

(** X15: the groups of a scan have distinct keys and share no member.
    No two reported groups carry the same key; every member of a group
    carries the key of its group; a binding is a member of at most one
    group. *)
Theorem reported_groups_are_disjoint :
  forall (localeCompare : string -> string -> Z) (h : Host) (st : State),
    let result := snd (scanConflicts localeCompare h st) in
    NoDup (map group_key result) /\
    (forall g b, In g result -> In b (bindings g) -> key b = group_key g) /\
    (forall g g' b,
        In g result -> In g' result ->
        In b (bindings g) -> In b (bindings g') -> g = g').
Proof.
  intros cmp h st result. subst result. simpl.
  assert (Hkey : forall g b,
             In g (findConflicts cmp
                     (collectAllKeybindings (platform h) (extensions_all h))
                     (getUserDisabledCommands (keybindingsFile h))) ->
             In b (bindings g) -> key b = group_key g).
  { intros g b Hg Hb. apply findConflicts_spec in Hg as [Hg _].
    rewrite Hg in Hb. now apply liveWithKey_not_disabled in Hb. }
  split; [|split].
  - unfold findConflicts.
    eapply Permutation_NoDup;
      [symmetry; apply Permutation_map, sort_perm|].
    apply conflictsOf_keys, groupByKey_NoDup.
  - exact Hkey.
  - intros g g' b Hg Hg' Hb Hb'.
    pose proof (Hkey g b Hg Hb) as K. pose proof (Hkey g' b Hg' Hb') as K'.
    apply findConflicts_spec in Hg as [Hg _].
    apply findConflicts_spec in Hg' as [Hg' _].
    destruct g as [k l], g' as [k' l']. simpl in *. congruence.
Qed.

Lemma reported_groups_are_disjoint_witness :
  key (Scenarios.binding "ctrl+k ctrl+s" "w.store" "w")
  = group_key Scenarios.mixedGroup /\
  Scenarios.mixedGroup = Scenarios.mixedGroup.
Proof.
  destruct (reported_groups_are_disjoint
              Collation.rootCompare Scenarios.mixed initial) as (_ & H2 & H3).
  assert (Hin : In Scenarios.mixedGroup
                  (snd (scanConflicts Collation.rootCompare
                          Scenarios.mixed initial)))
    by (vm_compute; now left).
  split.
  - apply H2; [exact Hin | right; now left].
  - apply (H3 _ _ (Scenarios.binding "ctrl+k ctrl+s" "w.store" "w"));
      try exact Hin; right; now left.
Defined.

(** *** Collection *)

Lemma keysToProcess_spec p kb :
  keysToProcess p kb =
  if fieldTruthy (platformField p kb) then fieldKeys (platformField p kb)
  else if fieldTruthy (kb_key kb) then fieldKeys (kb_key kb) else [].
Proof. destruct p; reflexivity. Qed.

Lemma fieldKeys_truthy f k : In k (fieldKeys f) -> k <> EmptyString.
Proof.
  unfold fieldKeys. rewrite filter_In. intros [_ H]. now apply truthy_true.
Qed.

Lemma collect_inv p all b :
  In b (collectAllKeybindings p all) ->
  exists ext pkg kbs kb k,
    In ext all /\ packageJSON ext = Some pkg /\ keybindings pkg = Some kbs /\
    In kb kbs /\ In k (keysToProcess p kb) /\ b = bindingOf ext pkg kb k.
Proof.
  unfold collectAllKeybindings. rewrite in_flat_map.
  intros (ext & Hext & Hb). unfold extensionBindings in Hb.
  destruct (packageJSON ext) as [pkg|] eqn:P; [|destruct Hb].
  destruct (keybindings pkg) as [kbs|] eqn:K; [|destruct Hb].
  apply in_flat_map in Hb as (kb & Hkb & Hb).
  apply in_map_iff in Hb as (k & <- & Hk).
  exists ext, pkg, kbs, kb, k. repeat split; assumption.
Qed.

(** X16: what is collected.  A binding is collected exactly when it is the
    binding of a raw key of a contribution of an installed extension that
    has a [package.json] with keybindings.  The raw keys of a contribution
    are never empty strings; they come from the field of the platform when
    that field is truthy (an empty array there hides the generic key), and
    from [key] otherwise.  Every collected key is in lower case. *)
Theorem collected_bindings_come_from_contributions :
  forall (p : Platform) (all : list Extension),
    (forall b,
        In b (collectAllKeybindings p all) <->
        exists ext pkg kbs kb k,
          In ext all /\ packageJSON ext = Some pkg /\
          keybindings pkg = Some kbs /\ In kb kbs /\
          In k (keysToProcess p kb) /\ b = bindingOf ext pkg kb k) /\
    (forall kb k,
        In k (keysToProcess p kb) ->
        k <> EmptyString /\
        if fieldTruthy (platformField p kb)
        then In k (fieldKeys (platformField p kb))
        else In k (fieldKeys (kb_key kb))) /\
    (forall kb,
        platformField p kb = KeyArray [] -> keysToProcess p kb = []) /\
    (forall b, In b (collectAllKeybindings p all) ->
               toLowerCase (key b) = key b /\
               exists ext, In ext all /\ extensionId b = ext_id ext).
Proof.
  intros p all. split; [|split; [|split]].
  - intros b. split; [apply collect_inv|].
    intros (ext & pkg & kbs & kb & k & H1 & H2 & H3 & H4 & H5 & ->).
    now apply collect_In with (kbs := kbs).
  - intros kb k. rewrite keysToProcess_spec.
    destruct (fieldTruthy (platformField p kb)).
    + intros H. split; [now apply fieldKeys_truthy in H | exact H].
    + destruct (fieldTruthy (kb_key kb)); [|intros []].
      intros H. split; [now apply fieldKeys_truthy in H | exact H].
  - intros kb H. rewrite keysToProcess_spec, H. reflexivity.
  - intros b Hb.
    apply collect_inv in Hb as (ext & pkg & kbs & kb & k & H1 & _ & _ & _ & _ & ->).
    split; [apply normalizeKey_lower | eauto].
Qed.

Lemma collected_bindings_come_from_contributions_witness :
  (exists ext pkg kbs kb k,
      In ext (extensions_all Scenarios.scenarioA) /\
      packageJSON ext = Some pkg /\ keybindings pkg = Some kbs /\
      In kb kbs /\ In k (keysToProcess linux kb) /\
      Scenarios.binding "ctrl+k ctrl+s" "y.save2" "y"
      = bindingOf ext pkg kb k) /\
  "ctrl+K ctrl+S" <> EmptyString /\
  keysToProcess darwin
    {| kb_command := "c"; kb_when := None; kb_key := KeyString "ctrl+x";
       kb_mac := KeyArray []; kb_linux := KeyAbsent; kb_win := KeyAbsent |}
  = [].
Proof.
  destruct (collected_bindings_come_from_contributions
              linux (extensions_all Scenarios.scenarioA)) as (H1 & H2 & _).
  destruct (collected_bindings_come_from_contributions darwin [])
    as (_ & _ & H3 & _).
  split; [|split].
  - apply H1. right. now left.
  - apply (H2 (Scenarios.contribution "ctrl+K ctrl+S" "y.save2" None)).
    now left.
  - apply H3. reflexivity.
Defined.

(** X17: one extension alone has no conflict.  When every installed
    extension that contributes keybindings has the same identifier, and in
    particular when at most one is installed, a scan reports nothing,
    whatever it binds. *)
Theorem single_extension_has_no_conflict :
  forall (localeCompare : string -> string -> Z) (h : Host) (st : State)
         (e : string),
    (forall ext, In ext (extensions_all h) -> ext_id ext = e) ->
    snd (scanConflicts localeCompare h st) = [].
Proof.
  intros cmp h st e Hid. simpl.
  destruct (findConflicts cmp _ _) as [|g r] eqn:F; [reflexivity|].
  exfalso.
  assert (Hg : In g (findConflicts cmp
                       (collectAllKeybindings (platform h) (extensions_all h))
                       (getUserDisabledCommands (keybindingsFile h))))
    by (rewrite F; now left).
  apply findConflicts_spec in Hg as [Hb Q].
  apply qualifies_spec in Q as (_ & b1 & b2 & H1 & H2 & Hne).
  rewrite Hb in H1, H2.
  apply liveWithKey_not_disabled in H1 as (H1 & _).
  apply liveWithKey_not_disabled in H2 as (H2 & _).
  apply collect_inv in H1
    as (ext1 & pkg1 & kbs1 & kb1 & k1 & I1 & _ & _ & _ & _ & ->).
  apply collect_inv in H2
    as (ext2 & pkg2 & kbs2 & kb2 & k2 & I2 & _ & _ & _ & _ & ->).
  apply Hne. simpl. now rewrite (Hid ext1 I1), (Hid ext2 I2).
Qed.

Lemma single_extension_has_no_conflict_witness :
  snd (scanConflicts Collation.rootCompare Scenarios.scenarioB initial) = [].
Proof.
  apply (single_extension_has_no_conflict
           Collation.rootCompare Scenarios.scenarioB initial "z").
  intros ext [<-|[]]. reflexivity.
Defined.

End ScanFacts.

(** ** More on the normalizer and on the validation *)

Section KeyFacts.
Import JS Scanner Presenter Resolver Vocabulary FlowVocabulary.

(** X18: the normal form of a single sub-combo.  On every string,
    [normalizeSingleKey] is idempotent and its result is trimmed; the
    result of [normalizeKey] is always in lower case, and depends on its
    argument only through [toLowerCase] and [trim]. *)
Theorem single_key_normal_form :
  forall x : string,
    normalizeSingleKey (normalizeSingleKey x) = normalizeSingleKey x /\
    trim (normalizeSingleKey x) = normalizeSingleKey x /\
    toLowerCase (normalizeKey x) = normalizeKey x /\
    normalizeKey (trim (toLowerCase x)) = normalizeKey x.
Proof.
  intros x. repeat split.
  - apply normalizeSingleKey_idem.
  - apply normalizeSingleKey_trimmed.
  - apply normalizeKey_lower.
  - apply normalizeKey_ext, normalized_fixed.
Qed.

Lemma mainTail_last l b :
  isModifierKey b = false -> b <> EmptyString -> mainTail (l ++ [b]) = [b].
Proof.
  intros Hb Hne. unfold mainTail, lastNonModifier.
  rewrite filter_app. simpl. rewrite Hb. simpl. rewrite last_last.
  apply truthy_true in Hne. now rewrite Hne.
Qed.

Lemma filter_modifiers_last l b :
  isModifierKey b = false ->
  filter isModifierKey (l ++ [b]) = filter isModifierKey l.
Proof.
  intros Hb. rewrite filter_app. simpl. rewrite Hb. apply app_nil_r.
Qed.

Lemma normalizeKey_main_last parts b :
  Forall atom parts -> mainKeyToken b ->
  normalizeKey (join "+" (parts ++ [b]))
  = join "+" (sort modifierCompare (filter isModifierKey parts) ++ [b]).
Proof.
  intros Hp [Hb Hnb].
  assert (Ha : Forall atom (parts ++ [b]))
    by (apply Forall_app; split; [assumption | now constructor]).
  assert (Ht : Forall token (parts ++ [b]))
    by (revert Ha; apply Forall_impl, atom_token).
  rewrite normalizeKey_single.
  2:{ rewrite tokens_normalized by assumption.
      apply includes_join; [reflexivity|].
      revert Ha. apply Forall_impl. now intros y [_ H]. }
  rewrite normalizeSingleKey_tokens by assumption.
  assert (Hne : b <> EmptyString) by (now destruct Hb as [(H & _) _]).
  destruct parts as [|p r]; [reflexivity|].
  change ((p :: r) ++ [b]) with (p :: (r ++ [b])).
  destruct (r ++ [b]) as [|q t] eqn:E; [now destruct r|].
  rewrite <- E. change (p :: (r ++ [b])) with ((p :: r) ++ [b]).
  now rewrite filter_modifiers_last, mainTail_last.
Qed.

(** X19: only the last main key survives.  In a sub-combo of well-formed
    parts that ends with a main key, every earlier part that is not a
    modifier is dropped without notice: the result is the sorted modifiers
    followed by the last main key, the same as for the sub-combo without
    those parts. *)
Theorem earlier_main_keys_are_dropped :
  forall (parts : list string) (b : string),
    Forall atom parts -> mainKeyToken b ->
    normalizeKey (join "+" (parts ++ [b]))
    = join "+" (sort modifierCompare (filter isModifierKey parts) ++ [b]) /\
    normalizeKey (join "+" (parts ++ [b]))
    = normalizeKey (join "+" (filter isModifierKey parts ++ [b])).
Proof.
  intros parts b Hp Hb. split; [now apply normalizeKey_main_last|].
  rewrite !normalizeKey_main_last; try assumption.
  - rewrite (filter_all isModifierKey (filter isModifierKey parts));
      [reflexivity|].
    apply Forall_forall. intros x Hx. now apply filter_In in Hx.
  - rewrite Forall_forall in *. intros x Hx.
    apply filter_In in Hx as [Hx _]. now apply Hp.
Qed.

Lemma earlier_main_keys_are_dropped_witness :
  normalizeKey "shift+a+ctrl+b" = "ctrl+shift+b" /\
  normalizeKey "shift+a+ctrl+b" = normalizeKey "shift+ctrl+b".
Proof.
  apply (earlier_main_keys_are_dropped ["shift"; "a"; "ctrl"] "b").
  - repeat constructor; discriminate.
  - repeat split; (discriminate || reflexivity).
Defined.

(** *** Validation *)

Lemma firstInvalidPart_none parts part :
  firstInvalidPart parts = None -> In part parts -> part <> EmptyString ->
  arrayIncludes validModifiers part = true \/ isValidKey part = true.
Proof.
  induction parts as [|p r IH]; [intros _ []|]. cbn [firstInvalidPart].
  destruct (isEmpty p) eqn:E.
  - intros H [<-|Hin] Hne; [apply isEmpty_true in E; congruence | auto].
  - destruct (negb (arrayIncludes validModifiers p) && negb (isValidKey p))
      eqn:V; [discriminate|].
    intros H [<-|Hin] Hne; [|auto].
    apply andb_false_iff in V as [V|V]; apply negb_false_iff in V; auto.
Qed.

(** X20: what an accepted key looks like.  When [validateKeybinding]
    accepts a text, the text in lower case and trimmed has only the
    characters a-z, 0-9, ["+"] and white space; each of its non-empty parts
    is one of the six modifiers, one letter, digits, or [f] and digits; it
    passes the format check, so that the normalizer is idempotent on it;
    and no known binding of another command has it as its key. *)
Theorem accepted_key_shape :
  forall (v : string) (current : KeybindingInfo)
         (known : list KeybindingInfo),
    validateKeybinding (Some v) current known = Accepted ->
    let normalized := trim (toLowerCase v) in
    validCharacters normalized = true /\
    (forall part,
        In part (splitOn (fun c => isWhiteSpace c || Ascii.eqb c "+")
                         normalized) ->
        part <> EmptyString ->
        arrayIncludes validModifiers part = true \/ isValidKey part = true) /\
    wellFormed v = true /\
    normalizeKey (normalizeKey v) = normalizeKey v /\
    (forall b, In b known -> key b = normalized ->
               command b = command current).
Proof.
  intros v current known H normalized. subst normalized.
  pose proof (accepted_is_wellFormed _ _ _ H) as W.
  pose proof (accepted_no_literal_conflict _ _ _ H) as C.
  unfold validateKeybinding in H.
  destruct (isEmpty (trim v)); [discriminate H|].
  destruct (validCharacters _) eqn:V; [|discriminate H]. cbn [negb] in H.
  destruct (firstInvalidPart _) eqn:P; [discriminate H|].
  repeat split.
  - intros part. now apply firstInvalidPart_none.
  - exact W.
  - now apply normalizeKey_idem_of_trimmed, wellFormed_trimmed.
  - intros b Hb Hk. apply (find_none _ _ C) in Hb.
    apply andb_false_iff in Hb as [Hb|Hb].
    + apply String.eqb_neq in Hb. congruence.
    + now apply negb_false_iff, String.eqb_eq in Hb.
Qed.

Lemma accepted_key_shape_witness :
  validCharacters (trim (toLowerCase "Ctrl+Shift+K")) = true /\
  wellFormed "Ctrl+Shift+K" = true /\
  normalizeKey (normalizeKey "Ctrl+Shift+K") = normalizeKey "Ctrl+Shift+K".
Proof.
  destruct (accepted_key_shape "Ctrl+Shift+K" Scenarios.reassigned
              Scenarios.knownBindings) as (H1 & _ & H3 & H4 & _).
  - reflexivity.
  - split; [exact H1 | split; [exact H3 | exact H4]].
Defined.

(** X21: a modifier alone is never accepted.  When one of the
    space-separated sub-combos of the text is exactly one of the six
    modifiers, the validation refuses the text, and does so before it
    looks for a conflict. *)
Theorem lone_modifier_is_refused :
  forall (v : string) (current : KeybindingInfo)
         (known : list KeybindingInfo) (c : string),
    In c (split " " (trim (toLowerCase v))) -> In c validModifiers ->
    validateKeybinding (Some v) current known <> Accepted /\
    forall cmd ext,
      validateKeybinding (Some v) current known <> ConflictsWith cmd ext.
Proof.
  intros v current known c Hin Hm. unfold validateKeybinding.
  destruct (isEmpty (trim v)); [split; [|intros ? ?]; discriminate|].
  destruct (negb (validCharacters _)); [split; [|intros ? ?]; discriminate|].
  destruct (firstInvalidPart _); [split; [|intros ? ?]; discriminate|].
  destruct (checkChords _) as [r|] eqn:E.
  - apply checkChords_refusal in E as [->| ->];
      (split; [|intros ? ?]; discriminate).
  - now apply checkChords_single_modifier with (c := c) in E.
Qed.

Lemma lone_modifier_is_refused_witness :
  validateKeybinding (Some "Ctrl+K shift") Scenarios.reassigned
    Scenarios.knownBindings <> Accepted.
Proof.
  apply (lone_modifier_is_refused "Ctrl+K shift" Scenarios.reassigned
           Scenarios.knownBindings "shift").
  - right. now left.
  - simpl. auto.
Defined.

Lemma allOf_includes p c s :
  includes c s = true -> p c = false -> allOf p s = false.
Proof.
  induction s as [|a r IH]; simpl; [discriminate|].
  intros H Hp. apply orb_true_iff in H as [H|H].
  - apply Ascii.eqb_eq in H. subst a. now rewrite Hp.
  - rewrite (IH H Hp). apply andb_false_r.
Qed.

Lemma includes_nonempty c s : includes c s = true -> s <> EmptyString.
Proof. destruct s; [discriminate | discriminate]. Qed.

(** X22: the punctuation keys cannot be entered.  [isValidKey] lists the
    punctuation keys, but a text that contains one of them (or any
    character that is not a letter, a digit, ["+"] or white space) is
    refused before, as invalid characters. *)
Theorem punctuation_keys_are_refused :
  forall (v : string) (current : KeybindingInfo)
         (known : list KeybindingInfo) (c : ascii),
    includes c (trim (toLowerCase v)) = true ->
    (isLower c || isDigit c || Ascii.eqb c "+" || isWhiteSpace c) = false ->
    validateKeybinding (Some v) current known = InvalidCharacters /\
    (isPunctuationKey c = true ->
     isValidKey (String c EmptyString) = true).
Proof.
  intros v current known c Hin Hc. split.
  - unfold validateKeybinding.
    assert (Hne : isEmpty (trim v) = false).
    { apply includes_nonempty in Hin. rewrite trim_lower in Hin.
      rewrite <- isEmpty_lower. now apply isEmpty_false. }
    rewrite Hne. unfold validCharacters.
    rewrite (allOf_includes _ c _ Hin Hc), andb_false_r. reflexivity.
  - intros Hp. simpl. rewrite Hp. apply orb_true_r.
Qed.

Lemma punctuation_keys_are_refused_witness :
  validateKeybinding (Some "ctrl+/") Scenarios.reassigned
    Scenarios.knownBindings = InvalidCharacters /\
  isValidKey "/" = true.
Proof.
  destruct (punctuation_keys_are_refused "ctrl+/" Scenarios.reassigned
              Scenarios.knownBindings "/"%char) as [H1 H2].
  - reflexivity.
  - reflexivity.
  - split; [exact H1 | apply H2; reflexivity].
Defined.

End KeyFacts.

(** ** The text of keybindings.json and its comments *)

Section TextFacts.
Import JS Scanner Resolver Vocabulary FlowVocabulary.

Lemma string_append_assoc (a b c : string) :
  ((a ++ b) ++ c = a ++ (b ++ c))%string.
Proof. induction a as [|x a IH]; simpl; [reflexivity | now rewrite IH]. Qed.

Lemma hasPair_star s : hasPair true s = false -> hasPair false s = false.
Proof.
  induction s as [|c r IH]; simpl; [reflexivity|].
  intros H. apply orb_false_iff in H as [H1 H2]. rewrite (IH H2).
  destruct (Ascii.eqb c "/"); [|reflexivity]. simpl in *.
  destruct r as [|d r']; [reflexivity|]. simpl in *.
  apply orb_false_iff in H1 as [-> _]. reflexivity.
Qed.

Lemma stripLineComments_clean s :
  hasPair false s = false -> stripLineComments false s = s.
Proof.
  induction s as [|c r IH]; [reflexivity|].
  intros H. cbn [hasPair] in H. apply orb_false_iff in H as [H1 H2].
  cbn [stripLineComments]. destruct r as [|d r']; [reflexivity|].
  cbn [opensPair] in H1. rewrite andb_false_l, orb_false_r in H1.
  rewrite H1, (IH H2). reflexivity.
Qed.

Lemma stripBlockComments_clean s :
  hasPair true s = false -> stripBlockComments false s = s.
Proof.
  induction s as [|c r IH]; [reflexivity|].
  intros H. cbn [hasPair] in H. apply orb_false_iff in H as [H1 H2].
  cbn [stripBlockComments]. destruct r as [|d r']; [reflexivity|].
  cbn [opensPair] in H1. rewrite andb_true_l in H1.
  rewrite (IH H2).
  destruct (Ascii.eqb c "/"); [|reflexivity]. simpl in H1.
  apply orb_false_iff in H1 as [_ ->]. reflexivity.
Qed.

Lemma stripComments_clean s :
  hasCommentMarker s = false -> stripComments s = s.
Proof.
  intros H. unfold stripComments.
  rewrite (stripLineComments_clean s (hasPair_star s H)).
  now apply stripBlockComments_clean.
Qed.

(** X23: a text without [//] and [/*] goes through the comment stripping
    unchanged, so that the two readers find in the file what [JSON.parse]
    makes of its text: nothing when the text is blank or refused, the
    array, or the value that is not an array. *)
Theorem text_without_comment_markers_is_read_as_parsed :
  forall (JSON_parse : string -> option (option (list UserEntry)))
         (text : string),
    hasCommentMarker text = false ->
    stripComments text = text /\
    readText JSON_parse (Some text)
    = if negb (truthy (trim text)) then FileText None
      else match JSON_parse text with
           | None => FileText None
           | Some None => FileNotArray
           | Some (Some kbs) => FileText (Some kbs)
           end.
Proof.
  intros parse text H. apply stripComments_clean in H.
  split; [exact H|]. unfold readText. now rewrite H.
Qed.

Lemma text_without_comment_markers_is_read_as_parsed_witness :
  stripComments "[ ]" = "[ ]" /\
  readText (fun _ => Some (Some [])) (Some "[ ]") = FileText (Some []).
Proof.
  apply (text_without_comment_markers_is_read_as_parsed
           (fun _ => Some (Some [])) "[ ]").
  reflexivity.
Defined.

(** *** The text written *)

Lemma plain_app star g t :
  plain g = true -> hasPair star (g ++ t) = hasPair star t.
Proof.
  unfold plain. induction g as [|c g IH]; simpl; [reflexivity|].
  intros H. apply andb_true_iff in H as [H1 H2].
  apply negb_true_iff, orb_false_iff in H1 as [H1 _].
  now rewrite H1, (IH H2).
Qed.

Lemma plain_hasPair star g : plain g = true -> hasPair star g = false.
Proof.
  unfold plain. induction g as [|c g IH]; simpl; [reflexivity|].
  intros H. apply andb_true_iff in H as [H1 H2].
  apply negb_true_iff, orb_false_iff in H1 as [H1 _].
  now rewrite H1, (IH H2).
Qed.

Lemma plain_opens star g t :
  plain g = true -> g <> EmptyString -> opensPair star (g ++ t) = false.
Proof.
  unfold plain. destruct g as [|c g]; [congruence|]. simpl.
  intros H _. apply andb_true_iff in H as [H1 _].
  apply negb_true_iff, orb_false_iff in H1 as [-> ->].
  now rewrite andb_false_r.
Qed.

Lemma quoteUnit_cases c :
  quoteUnit c = String c EmptyString \/
  (plain (quoteUnit c) = true /\ quoteUnit c <> EmptyString /\
   Ascii.eqb c "/" = false /\ Ascii.eqb c "*" = false).
Proof.
  destruct c as [[] [] [] [] [] [] [] []]; vm_compute;
    first [left; reflexivity | right; repeat split; discriminate].
Qed.

Lemma quoteBody_pair star s t :
  hasPair star (quoteBody s ++ t) = hasPair star (s ++ t) /\
  opensPair star (quoteBody s ++ t) = opensPair star (s ++ t).
Proof.
  induction s as [|c r [IH1 IH2]]; [split; reflexivity|].
  cbn [quoteBody]. rewrite string_append_assoc.
  destruct (quoteUnit_cases c) as [->|(P & N & S1 & S2)].
  - cbn [append hasPair opensPair]. rewrite IH1, IH2. split; reflexivity.
  - rewrite (plain_app star _ _ P), (plain_opens star _ _ P N).
    cbn [append hasPair opensPair]. rewrite S1, S2, IH1.
    now rewrite andb_false_r.
Qed.

Lemma opensPair_app star s t :
  opensPair star t = false ->
  opensPair star (s ++ t) = opensPair star s.
Proof. destruct s; simpl; auto. Qed.

Lemma quoted_pair star s t :
  hasPair star (s ++ String "034" t) = hasPair star s || hasPair star t.
Proof.
  induction s as [|c r IH]; [reflexivity|].
  cbn [append hasPair]. rewrite IH, opensPair_app, orb_assoc;
    [reflexivity|].
  simpl. now rewrite andb_false_r.
Qed.

Lemma quoteJSONString_pair star s t :
  hasPair star (quoteJSONString s ++ t) = hasPair star s || hasPair star t.
Proof.
  unfold quoteJSONString. cbn [append hasPair].
  rewrite string_append_assoc. cbn [append].
  rewrite (proj1 (quoteBody_pair star s _)), quoted_pair. reflexivity.
Qed.

Lemma memberText_pair star name value t :
  plain name = true ->
  hasPair star (memberText name value ++ t)
  = hasPair star value || hasPair star t.
Proof.
  intros P. unfold memberText. rewrite !string_append_assoc.
  rewrite plain_app by reflexivity. rewrite quoteJSONString_pair.
  rewrite plain_app by reflexivity. rewrite quoteJSONString_pair.
  now rewrite (plain_hasPair star name P).
Qed.

Lemma objectText_pair star e t :
  hasPair star (objectText e ++ t) = entryHasPair star e || hasPair star t.
Proof.
  unfold objectText, members, entryHasPair.
  destruct (n_when e) as [w|]; cbn [join]; rewrite !string_append_assoc;
    repeat first [ rewrite memberText_pair by reflexivity
                 | rewrite plain_app by reflexivity ];
    [|rewrite orb_false_r]; now rewrite !orb_assoc.
Qed.

Lemma join_map_pair star {X} (f : X -> string) (m : X -> bool) sep :
  plain sep = true ->
  (forall x t, hasPair star (f x ++ t) = m x || hasPair star t) ->
  forall l t,
    hasPair star (join sep (map f l) ++ t) = existsb m l || hasPair star t.
Proof.
  intros P Hf. induction l as [|x r IH]; intros t; [reflexivity|].
  destruct r as [|y r'].
  - simpl. now rewrite Hf, orb_false_r.
  - change (join sep (map f (x :: y :: r')))
      with (f x ++ sep ++ join sep (map f (y :: r')))%string.
    rewrite !string_append_assoc, Hf, (plain_app star sep _ P), IH.
    cbn [existsb]. now rewrite !orb_assoc.
Qed.

(** The text written holds [//] (or [//] and [/*]) exactly when one of
    the strings of its entries does. *)
Lemma stringify_pair star keybindings :
  hasPair star (stringify keybindings)
  = existsb (entryHasPair star) keybindings.
Proof.
  unfold stringify. destruct keybindings as [|e r]; [reflexivity|].
  rewrite plain_app by reflexivity. rewrite plain_app by reflexivity.
  rewrite join_map_pair with (m := entryHasPair star).
  - rewrite plain_app by reflexivity. simpl hasPair at 1.
    now rewrite orb_false_r.
  - reflexivity.
  - intros x t. rewrite string_append_assoc.
    rewrite plain_app by reflexivity. apply objectText_pair.
Qed.

(** X24: when no key, command or [when] clause of the entries written
    holds [//] or [/*], the text that [writeKeybindingsFile] writes for
    them goes through the comment stripping of the two readers unchanged:
    what they find in the file is what [JSON.parse] makes of the text
    written. *)
Theorem written_text_without_markers_is_read_whole :
  forall (keybindings : list NewEntry),
    existsb (entryHasPair true) keybindings = false ->
    stripComments (stringify keybindings) = stringify keybindings /\
    forall JSON_parse,
      readText JSON_parse (Some (stringify keybindings))
      = match JSON_parse (stringify keybindings) with
        | None => FileText None
        | Some None => FileNotArray
        | Some (Some kbs) => FileText (Some kbs)
        end.
Proof.
  intros l H. rewrite <- (stringify_pair true) in H.
  apply stripComments_clean in H. split; [exact H|].
  intros parse. unfold readText. rewrite H.
  destruct l as [|e r]; reflexivity.
Qed.

Lemma written_text_without_markers_is_read_whole_witness :
  stripComments
    (stringify (newReassignEntries
                  (Scenarios.binding "ctrl+/" "x.toggle" "x") "ctrl+alt+t"))
  = stringify (newReassignEntries
                 (Scenarios.binding "ctrl+/" "x.toggle" "x") "ctrl+alt+t").
Proof.
  apply (written_text_without_markers_is_read_whole
           (newReassignEntries
              (Scenarios.binding "ctrl+/" "x.toggle" "x") "ctrl+alt+t")).
  reflexivity.
Defined.

(** *** What the stripping removes *)

Lemma stripLineComments_length n :
  forall s m, (String.length s <= n)%nat ->
    (String.length (stripLineComments m s) <= String.length s)%nat.
Proof.
  induction n as [|n IH]; intros s m H.
  - destruct s; [destruct m; simpl; lia | simpl in H; lia].
  - destruct s as [|c r]; [destruct m; simpl; lia|].
    simpl in H. cbn [stripLineComments]. destruct m.
    + destruct (isLineTerminator c).
      * specialize (IH r false). simpl. lia.
      * specialize (IH r true). simpl. lia.
    + destruct r as [|d r']; [simpl; lia|].
      destruct (Ascii.eqb c "/" && Ascii.eqb d "/").
      * simpl in H. specialize (IH r' true). simpl. lia.
      * specialize (IH (String d r') false).
        cbn [String.length] in *. lia.
Qed.

Lemma stripBlockComments_length n :
  forall s m, (String.length s <= n)%nat ->
    (String.length (stripBlockComments m s) <= String.length s)%nat.
Proof.
  induction n as [|n IH]; intros s m H.
  - destruct s; [simpl; lia | simpl in H; lia].
  - destruct s as [|c r]; [simpl; lia|].
    simpl in H. cbn [stripBlockComments].
    destruct r as [|d r']; [destruct m; simpl; lia|].
    simpl in H. destruct m.
    + destruct (Ascii.eqb c "*" && Ascii.eqb d "/").
      * specialize (IH r' false). simpl. lia.
      * specialize (IH (String d r') true). cbn [String.length] in *. lia.
    + destruct (Ascii.eqb c "/" && Ascii.eqb d "*" && hasBlockEnd r').
      * specialize (IH r' true). simpl. lia.
      * specialize (IH (String d r') false). cbn [String.length] in *. lia.
Qed.

Lemma stripLineComments_cut s :
  hasPair false s = true ->
  (String.length (stripLineComments false s) < String.length s)%nat.
Proof.
  induction s as [|c r IH]; [discriminate|].
  cbn [hasPair stripLineComments]. destruct r as [|d r'].
  - simpl. rewrite andb_false_r. discriminate.
  - cbn [opensPair]. rewrite andb_false_l, orb_false_r.
    destruct (Ascii.eqb c "/" && Ascii.eqb d "/").
    + intros _.
      pose proof (stripLineComments_length _ r' true (le_n _)).
      simpl. lia.
    + simpl orb. intros H. specialize (IH H). cbn [String.length] in *. lia.
Qed.

(** X25: when a key, a command or a [when] clause of the entries written
    holds [//], the comment stripping of the two readers takes characters
    out of the text that [writeKeybindingsFile] wrote: what they hand to
    [JSON.parse] is not the text written. *)
Theorem written_comment_marker_is_cut :
  forall (keybindings : list NewEntry),
    existsb (entryHasPair false) keybindings = true ->
    (String.length (stripComments (stringify keybindings))
     < String.length (stringify keybindings))%nat /\
    stripComments (stringify keybindings) <> stringify keybindings.
Proof.
  intros l H. rewrite <- (stringify_pair false) in H.
  apply stripLineComments_cut in H.
  assert (L : (String.length (stripComments (stringify l))
               < String.length (stringify l))%nat).
  { unfold stripComments.
    pose proof (stripBlockComments_length _
                  (stripLineComments false (stringify l)) false (le_n _)).
    lia. }
  split; [exact L|]. intros E. rewrite E in L. lia.
Qed.

Lemma written_comment_marker_is_cut_witness :
  ((String.length
      (stripComments (stringify [newDisableEntry Scenarios.linked]))
    < String.length (stringify [newDisableEntry Scenarios.linked]))%nat /\
   stripComments (stringify [newDisableEntry Scenarios.linked])
   <> stringify [newDisableEntry Scenarios.linked]) /\
  stripComments (stringify [newDisableEntry Scenarios.linked])
  = ("[" ++ lineFeed ++ "  {" ++ lineFeed ++
     memberText "key" EmptyString ++ "," ++ lineFeed ++
     memberText "command" "x.open" ++ "," ++ lineFeed ++
     "    " ++ quoteJSONString "when" ++ ": " ++
     String "034" "origin == 'http:" ++ lineFeed ++
     "  }" ++ lineFeed ++ "]")%string.
Proof.
  split.
  - apply (written_comment_marker_is_cut [newDisableEntry Scenarios.linked]).
    reflexivity.
  - reflexivity.
Defined.

(** The created entries, once parsed, are the entries of the updates. *)
Lemma created_entries_are_the_entries_written :
  (forall b, entryView (newDisableEntry b) = disableEntryOf b) /\
  (forall b k, map entryView (newReassignEntries b k) = reassignEntries b k).
Proof.
  split.
  - intros b. unfold entryView, newDisableEntry, disableEntryOf, whenField.
    simpl. destruct (when b) as [w|]; [|reflexivity].
    simpl. destruct (truthy w); reflexivity.
  - intros b k. unfold entryView, newReassignEntries, reassignEntries, whenField.
    simpl. destruct (when b) as [w|]; [|reflexivity].
    simpl. destruct (truthy w); reflexivity.
Qed.

End TextFacts.
